(** * DynaMemSim: dynamic partition allocation and demand paging

    A shallow embedding of the two engines of [main.py]: the class
    [DynamicPartition] (first/best/worst fit with coalescing of free blocks)
    and the class [DynamicPaging] (page table, page faults, FIFO
    replacement).  Python integers are [Z]; positions produced by
    [enumerate] are [nat]; [dict]s are [gmap]s; the mutable objects of an
    engine are the fields of its state record, and every method is a
    function from the state before the call to its result and the state
    after it. *)

From Stdlib Require Import ZArith Lia.
From stdpp Require Import gmap strings list fin_maps sorting.
From Equations Require Import Equations.
From Equations.Prop Require Import Logic.

Local Open Scope Z_scope.

(** ** Part I: definitions *)

(** [list.insert(i, x)]: [x] is placed before position [i], or at the end
    when the list is shorter than [i]. *)
Definition list_insert_at {A} (i : nat) (x : A) (l : list A) : list A :=
  take i l ++ x :: drop i l.

(** *** class MemoryBlock *)
Module MemoryBlock.
Record t := new {
  start_addr : Z;
  size : Z;
  allocated : bool;
  process_id : option Z
}.

Definition is_free (b : t) : Prop := allocated b = false.

#[export] Instance eq_dec : EqDecision t.
Proof. solve_decision. Defined.

(** [current_block.size += n] *)
Definition grow (b : t) (n : Z) : t :=
  new (start_addr b) (size b + n) (allocated b) (process_id b).
End MemoryBlock.

(** *** class Process *)
Module Process.
Record t := new {
  pid : Z;
  memory_size : Z;
  allocated_block : option MemoryBlock.t
}.
End Process.

(** *** class DynamicPartition *)
Module DynamicPartition.

Record t := mk {
  memory_size : Z;
  memory_blocks : list MemoryBlock.t;
  processes : gmap Z Process.t
}.

(** The strings the methods return, one constructor per format string. *)
Inductive message :=
| ProcessExists (pid : Z)            (* "进程 {pid} 已存在" *)
| Allocated (pid : Z)                (* "成功为进程 {pid} 分配内存" *)
| CannotAllocate (pid : Z) (n : Z)   (* "无法为进程 {pid} 分配 {n} 单位内存" *)
| ProcessMissing (pid : Z)           (* "进程 {pid} 不存在" *)
| NoAllocatedBlock (pid : Z)         (* "进程 {pid} 没有分配内存块" *)
| Released (pid : Z).                (* "成功释放进程 {pid} 的内存" *)

(** [__init__]: one free block spanning the whole memory. *)
Definition init (memory_size : Z) : t :=
  mk memory_size [MemoryBlock.new 0 memory_size false None] ∅.

(** [free_blocks = [block for block in self.memory_blocks if not
    block.allocated]].  The blocks are objects: a later
    [self.memory_blocks.index(block)] finds the position of that very
    object (the class defines no [__eq__]), so each free block is kept
    together with its position in [memory_blocks]. *)
Definition free_blocks (l : list MemoryBlock.t) : list (nat * MemoryBlock.t) :=
  filter (λ ib, MemoryBlock.is_free ib.2) (imap pair l).

(** The [first_fit] loop: the first large-enough block, then [break]. *)
Fixpoint first_fit_loop (req : Z) (fb : list (nat * MemoryBlock.t))
  : option (nat * MemoryBlock.t) :=
  match fb with
  | [] => None
  | (i, b) :: rest =>
      if bool_decide (MemoryBlock.size b >= req) then Some (i, b)
      else first_fit_loop req rest
  end.

(** The [best_fit] loop; [min_size_diff] starts at [float('inf')],
    here [None]. *)
Definition below (d : Z) (min_size_diff : option Z) : bool :=
  match min_size_diff with
  | None => true
  | Some m => bool_decide (d < m)
  end.

Fixpoint best_fit_loop (req : Z) (fb : list (nat * MemoryBlock.t))
    (min_size_diff : option Z) (suitable : option (nat * MemoryBlock.t))
  : option (nat * MemoryBlock.t) :=
  match fb with
  | [] => suitable
  | (i, b) :: rest =>
      if bool_decide (MemoryBlock.size b >= req)
         && below (MemoryBlock.size b - req) min_size_diff
      then best_fit_loop req rest (Some (MemoryBlock.size b - req)) (Some (i, b))
      else best_fit_loop req rest min_size_diff suitable
  end.

(** The [worst_fit] loop; [max_size_diff] starts at [-1]. *)
Fixpoint worst_fit_loop (req : Z) (fb : list (nat * MemoryBlock.t))
    (max_size_diff : Z) (suitable : option (nat * MemoryBlock.t))
  : option (nat * MemoryBlock.t) :=
  match fb with
  | [] => suitable
  | (i, b) :: rest =>
      if bool_decide (MemoryBlock.size b >= req)
         && bool_decide (MemoryBlock.size b - req > max_size_diff)
      then worst_fit_loop req rest (MemoryBlock.size b - req) (Some (i, b))
      else worst_fit_loop req rest max_size_diff suitable
  end.

(** The [if/elif/elif] on the algorithm name: [(suitable_index,
    suitable_block)], or [None] when no branch assigned them. *)
Definition select (algorithm : string) (req : Z) (l : list MemoryBlock.t)
  : option (nat * MemoryBlock.t) :=
  if bool_decide (algorithm = "first_fit") then
    first_fit_loop req (free_blocks l)
  else if bool_decide (algorithm = "best_fit") then
    best_fit_loop req (free_blocks l) None None
  else if bool_decide (algorithm = "worst_fit") then
    worst_fit_loop req (free_blocks l) (-1) None
  else None.

(** The list surgery of a successful [allocate]: [pop(suitable_index)],
    then the remainder (if any) and the allocated block are both inserted
    at [suitable_index], the allocated block last, hence in front. *)
Definition place (suitable_index : nat) (suitable_block : MemoryBlock.t)
    (process : Process.t) (l : list MemoryBlock.t) : list MemoryBlock.t :=
  let start_addr := MemoryBlock.start_addr suitable_block in
  let original_size := MemoryBlock.size suitable_block in
  let allocated_block :=
    MemoryBlock.new start_addr (Process.memory_size process) true
                    (Some (Process.pid process)) in
  let l1 := delete suitable_index l in
  let l2 :=
    if bool_decide (original_size > Process.memory_size process) then
      list_insert_at suitable_index
        (MemoryBlock.new (start_addr + Process.memory_size process)
                         (original_size - Process.memory_size process)
                         false None) l1
    else l1 in
  list_insert_at suitable_index allocated_block l2.

Definition allocate (process : Process.t) (algorithm : string) (st : t)
  : (bool * message) * t :=
  let pid := Process.pid process in
  let req := Process.memory_size process in
  if bool_decide (is_Some (processes st !! pid)) then
    ((false, ProcessExists pid), st)
  else
    match select algorithm req (memory_blocks st) with
    | Some (suitable_index, suitable_block) =>
        let allocated_block :=
          MemoryBlock.new (MemoryBlock.start_addr suitable_block) req true
                          (Some pid) in
        let process' := Process.new pid req (Some allocated_block) in
        ((true, Allocated pid),
         mk (memory_size st)
            (place suitable_index suitable_block process (memory_blocks st))
            (<[pid := process']> (processes st)))
    | None => ((false, CannotAllocate pid req), st)
    end.

(** [_merge_adjacent_blocks]: the [while i < len(self.memory_blocks) - 1]
    loop.  The test holds exactly when positions [i] and [i + 1] both
    exist.  Either the list loses an element or [i] advances, so
    [len - i] decreases. *)
Equations? merge_loop (i : nat) (l : list MemoryBlock.t)
  : list MemoryBlock.t by wf (length l - i)%nat lt :=
  merge_loop i l with inspect (l !! i) := {
    | exist _ None _ => l
    | exist _ (Some current_block) E1 with inspect (l !! S i) := {
      | exist _ None _ => l
      | exist _ (Some next_block) E2 =>
          if negb (MemoryBlock.allocated current_block)
             && negb (MemoryBlock.allocated next_block)
          then merge_loop i
                 (delete (S i)
                    (<[i := MemoryBlock.grow current_block
                              (MemoryBlock.size next_block)]> l))
          else merge_loop (S i) l } }.
Proof.
  - apply lookup_lt_Some in E2.
    rewrite length_delete, length_insert.
    + lia.
    + apply lookup_lt_is_Some. rewrite length_insert. exact E2.
  - apply lookup_lt_Some in E1. lia.
Qed.

Definition _merge_adjacent_blocks (l : list MemoryBlock.t) : list MemoryBlock.t :=
  merge_loop 0 l.

(** The search loop of [deallocate]: first block owned by [pid]. *)
Fixpoint find_owned (pid : Z) (i : nat) (l : list MemoryBlock.t)
  : option (nat * MemoryBlock.t) :=
  match l with
  | [] => None
  | block :: rest =>
      if MemoryBlock.allocated block
         && bool_decide (MemoryBlock.process_id block = Some pid)
      then Some (i, block)
      else find_owned pid (S i) rest
  end.

Definition deallocate (pid : Z) (st : t) : (bool * message) * t :=
  if bool_decide (processes st !! pid = None) then
    ((false, ProcessMissing pid), st)
  else
    match find_owned pid 0 (memory_blocks st) with
    | None => ((false, NoAllocatedBlock pid), st)
    | Some (block_index, allocated_block) =>
        let free_block :=
          MemoryBlock.new (MemoryBlock.start_addr allocated_block)
                          (MemoryBlock.size allocated_block) false None in
        ((true, Released pid),
         mk (memory_size st)
            (_merge_adjacent_blocks
               (<[block_index := free_block]> (memory_blocks st)))
            (delete pid (processes st)))
    end.

(** States reachable from a fresh engine of [m] units by calls whose
    processes satisfy [ok] (the caller's validation of the request). *)
Inductive reachable (ok : Process.t → Prop) (m : Z) : t → Prop :=
| reach_init : reachable ok m (init m)
| reach_allocate st process algorithm :
    reachable ok m st → ok process →
    reachable ok m (allocate process algorithm st).2
| reach_deallocate st pid :
    reachable ok m st → reachable ok m (deallocate pid st).2.

(** The caller only submits positive sizes ([_allocate_memory] rejects
    [memory_size <= 0]). *)
Definition positive_request (p : Process.t) : Prop := 0 < Process.memory_size p.
Definition any_request (p : Process.t) : Prop := True.

End DynamicPartition.

(** *** Exceptions and the state monad of the paging engine

    A method of [DynamicPaging] either returns a value or raises; in both
    cases the attributes it assigned before keep their new values. *)
Inductive exn :=
| KeyError (k : Z)
| IndexError
| TypeError
| ZeroDivisionError.

Inductive outcome (A : Type) :=
| Return (a : A)
| Raise (e : exn).
Arguments Return {A} a.
Arguments Raise {A} e.

Definition M (S A : Type) : Type := S → outcome A * S.

#[export] Instance M_ret {S} : MRet (M S) := λ A a s, (Return a, s).
#[export] Instance M_bind {S} : MBind (M S) :=
  λ A B k m s, match m s with
               | (Return a, s') => k a s'
               | (Raise e, s') => (Raise e, s')
               end.
Definition raise {S A} (e : exn) : M S A := λ s, (Raise e, s).
Definition get {S} : M S S := λ s, (Return s, s).
Definition modify {S} (f : S → S) : M S unit := λ s, (Return tt, f s).

(** *** class Page *)
Module Page.
Record t := new {
  page_no : Z;
  exists_ : bool;          (* the attribute [exists] *)
  frame_no : option nat;
  modified : bool;
  disk_pos : string
}.

(** [replaced_page.exists = False; replaced_page.frame_no = None] *)
Definition evict (p : t) : t :=
  new (page_no p) false None (modified p) (disk_pos p).

(** [page.exists = True; page.frame_no = frame_no] *)
Definition load (f : nat) (p : t) : t :=
  new (page_no p) true (Some f) (modified p) (disk_pos p).

(** [page.modified = True] *)
Definition touch (p : t) : t :=
  new (page_no p) (exists_ p) (frame_no p) true (disk_pos p).
End Page.

(** *** The dictionary [current_job] *)
Module Job.
Record t := new {
  id : string;
  size : Z;
  pages_count : Z;
  allocated_frames_count : Z
}.
End Job.

(** *** class DynamicPaging *)
Module DynamicPaging.

Record t := mk {
  memory_size : Z;
  page_size : Z;
  max_job_size : Z;
  total_frames : Z;
  frames : list (option Z);
  current_job : option Job.t;
  page_table : gmap Z Page.t;
  allocated_frames : list nat;
  frame_queue : list nat
}.

(** What the methods return as their text, one constructor per string. *)
Inductive message :=
| JobTooLarge (max_job_size : Z)   (* "作业大小超过最大限制 ..." *)
| TooManyFrames (total_frames : Z) (* "分配的内存块数超过总内存块数 ..." *)
| OutOfFrames                      (* "内存不足，无法为作业分配足够的内存块" *)
| JobCreated (job_id : string) (n : Z). (* "成功创建作业 ..., 分配 ... 个内存块" *)

Inductive info :=
| PageOutOfRange (page_no : Z)     (* "页号 {page_no} 超出范围" *)
| CannotLoad                       (* "无法调入页面，内存已满且无法置换" *)
| QueueEmpty                       (* "FIFO队列为空，无法进行页面置换" *)
| Evicted (page_no : Z)            (* "淘汰第{page_no}页" *)
| NothingEvicted                   (* "无需淘汰页面" *)
| NoInfo.                          (* [None] *)

(** Assignments to single attributes. *)
Definition set_frames (v : list (option Z)) (s : t) : t :=
  mk (memory_size s) (page_size s) (max_job_size s) (total_frames s) v
     (current_job s) (page_table s) (allocated_frames s) (frame_queue s).
Definition set_current_job (v : option Job.t) (s : t) : t :=
  mk (memory_size s) (page_size s) (max_job_size s) (total_frames s)
     (frames s) v (page_table s) (allocated_frames s) (frame_queue s).
Definition set_page_table (v : gmap Z Page.t) (s : t) : t :=
  mk (memory_size s) (page_size s) (max_job_size s) (total_frames s)
     (frames s) (current_job s) v (allocated_frames s) (frame_queue s).
Definition set_allocated_frames (v : list nat) (s : t) : t :=
  mk (memory_size s) (page_size s) (max_job_size s) (total_frames s)
     (frames s) (current_job s) (page_table s) v (frame_queue s).
Definition set_frame_queue (v : list nat) (s : t) : t :=
  mk (memory_size s) (page_size s) (max_job_size s) (total_frames s)
     (frames s) (current_job s) (page_table s) (allocated_frames s) v.

(** [__init__(memory_size, page_size, max_job_size)], sizes in KB; the
    floor division raises when the page size is zero. *)
Definition init (memory_size page_size max_job_size : Z) : outcome t :=
  let memory_size := memory_size * 1024 in
  let page_size := page_size * 1024 in
  let max_job_size := max_job_size * 1024 in
  if bool_decide (page_size = 0) then Raise ZeroDivisionError
  else
    let total_frames := memory_size `div` page_size in
    Return (mk memory_size page_size max_job_size total_frames
               (replicate (Z.to_nat total_frames) None) None ∅ [] []).

(** The page table built by the loop [for i in range(pages_count)].
    [disk i] is the tag drawn by the three [random.randint] calls for
    page [i]. *)
Definition fresh_page_table (disk : nat → string) (pages_count : Z)
  : gmap Z Page.t :=
  foldl (λ pt i, <[Z.of_nat i := Page.new (Z.of_nat i) false None false (disk i)]> pt)
        ∅ (seq 0 (Z.to_nat pages_count)).

(** [[i for i, frame in enumerate(self.frames) if frame is None]] *)
Definition empty_frames (fs : list (option Z)) : list nat :=
  (filter (λ ifr, ifr.2 = None) (imap pair fs)).*1.

Definition create_job (job_id : string) (job_size allocated_frames_count : Z)
    (disk : nat → string) : M t (bool * message) :=
  s ← get;
  if bool_decide (job_size > max_job_size s) then
    mret (false, JobTooLarge (max_job_size s))
  else if bool_decide (allocated_frames_count > total_frames s) then
    mret (false, TooManyFrames (total_frames s))
  else if bool_decide (page_size s = 0) then raise ZeroDivisionError
  else
    let pages_count := (job_size + page_size s - 1) `div` page_size s in
    modify (set_page_table (fresh_page_table disk pages_count));;
    modify (set_allocated_frames []);;
    let free_frames := empty_frames (frames s) in
    if bool_decide (Z.of_nat (length free_frames) < allocated_frames_count) then
      mret (false, OutOfFrames)
    else
      (* for i in range(allocated_frames_count): append free_frames[i] *)
      modify (set_allocated_frames
                (take (Z.to_nat allocated_frames_count) free_frames));;
      modify (set_current_job
                (Some (Job.new job_id job_size pages_count
                               allocated_frames_count)));;
      modify (set_frame_queue []);;
      mret (true, JobCreated job_id allocated_frames_count).

(** [self.frames[i]], raising on a position outside the list. *)
Definition frame_at (i : nat) : M t (option Z) :=
  s ← get;
  match frames s !! i with
  | Some slot => mret slot
  | None => raise IndexError
  end.

(** [[frame for frame in self.allocated_frames
      if self.frames[frame] is None]] *)
Fixpoint free_among (afs : list nat) : M t (list nat) :=
  match afs with
  | [] => mret []
  | frame :: rest =>
      slot ← frame_at frame;
      free ← free_among rest;
      mret (if slot is None then frame :: free else free)
  end.

(** Attribute assignments on the page object stored under [page_no]:
    the object stays in the dictionary under its key, so they are an
    update of that entry. *)
Definition assign_page (page_no : Z) (f : Page.t → Page.t) : M t unit :=
  modify (λ s, set_page_table (alter f page_no (page_table s)) s).

(** [self.page_table[page_no]], raising when the key is absent. *)
Definition page_at (page_no : Z) : M t Page.t :=
  s ← get;
  match page_table s !! page_no with
  | Some page => mret page
  | None => raise (KeyError page_no)
  end.

Definition _handle_page_fault (page_no : Z) : M t (option nat * info) :=
  s ← get;
  free_frames ← free_among (allocated_frames s);
  match free_frames with
  | frame_no :: _ =>
      modify (set_frames (<[frame_no := Some page_no]> (frames s)));;
      modify (set_frame_queue (frame_queue s ++ [frame_no]));;
      mret (Some frame_no, NoInfo)
  | [] =>
      match frame_queue s with
      | [] => mret (None, QueueEmpty)
      | replaced_frame :: queue =>
          modify (set_frame_queue queue);;
          replaced_page_no ← frame_at replaced_frame;
          replaced_info ←
            match replaced_page_no with
            | Some p =>
                page_at p;; assign_page p Page.evict;; mret (Evicted p)
            | None => mret NothingEvicted
            end;
          modify (λ s', set_frames (<[replaced_frame := Some page_no]> (frames s')) s');;
          modify (λ s', set_frame_queue (frame_queue s' ++ [replaced_frame]) s');;
          mret (Some replaced_frame, replaced_info)
      end
  end.

(** [operation in ["save", "存"]] *)
Definition is_store (operation : string) : bool :=
  bool_decide (operation = "save") || bool_decide (operation = "存").

Definition access_memory (page_no offset : Z) (operation : string)
  : M t (option Z * bool * info) :=
  s ← get;
  match page_table s !! page_no with
  | None => mret (None, false, PageOutOfRange page_no)
  | Some page =>
      if negb (Page.exists_ page) then
        '(frame_no, replaced_page) ← _handle_page_fault page_no;
        match frame_no with
        | None => mret (None, true, CannotLoad)
        | Some frame_no =>
            assign_page page_no (Page.load frame_no);;
            (if is_store operation then assign_page page_no Page.touch
             else mret tt);;
            s' ← get;
            mret (Some (Z.of_nat frame_no * page_size s' + offset), true,
                 replaced_page)
        end
      else
        (if is_store operation then assign_page page_no Page.touch
         else mret tt);;
        match Page.frame_no page with
        | Some frame_no =>
            mret (Some (Z.of_nat frame_no * page_size s + offset), false, NoInfo)
        | None => raise TypeError
        end
  end.

(** States reachable from a constructed engine by any calls. *)
Inductive reachable : t → Prop :=
| reach_init memory_size page_size max_job_size s0 :
    init memory_size page_size max_job_size = Return s0 → reachable s0
| reach_create_job s job_id job_size n disk :
    reachable s → reachable (create_job job_id job_size n disk s).2
| reach_access_memory s page_no offset operation :
    reachable s → reachable (access_memory page_no offset operation s).2.

End DynamicPaging.

(** *** class MemoryManagementApp: the handler that calls [access_memory]

    Only the decisions of [_execute_instruction] are kept; what it shows is
    an event.  The entry fields are taken as already parsed integers. *)
Module MemoryManagementApp.
Inductive event :=
| WarnCreateJobFirst                         (* "请先创建作业" *)
| WarnOffsetOutOfRange                       (* "页内偏移超出范围 ..." *)
| WarnEngine (i : DynamicPaging.info)        (* the engine's text *)
| Logged (physical_addr : Z) (page_fault : bool) (i : DynamicPaging.info)
| Uncaught (e : exn).

Definition _execute_instruction (operation : string) (page_no offset : Z)
    (paging_manager : DynamicPaging.t) : event * DynamicPaging.t :=
  match DynamicPaging.current_job paging_manager with
  | None => (WarnCreateJobFirst, paging_manager)
  | Some _ =>
      if bool_decide (offset >= DynamicPaging.page_size paging_manager) then
        (WarnOffsetOutOfRange, paging_manager)
      else
        match DynamicPaging.access_memory page_no offset operation
                paging_manager with
        | (Return (Some physical_addr, page_fault, i), s') =>
            (* "发生缺页中断，" + info: the concatenation raises when the
               engine answered a fault with [None] as its third component *)
            match page_fault, i with
            | true, DynamicPaging.NoInfo => (Uncaught TypeError, s')
            | _, _ => (Logged physical_addr page_fault i, s')
            end
        | (Return (None, _, i), s') => (WarnEngine i, s')
        | (Raise e, s') => (Uncaught e, s')
        end
  end.

(** The handlers of the partition tab, [_allocate_memory] and
    [_deallocate_memory], on parsed entry fields: the first refuses a size
    that is not positive before it builds the [Process]. *)
Inductive partition_event :=
| ErrorNotPositive                           (* "内存大小必须为正数" *)
| AllocateLogged (ok : bool) (m : DynamicPartition.message)
| DeallocateLogged (ok : bool) (m : DynamicPartition.message).

Definition _allocate_memory (pid memory_size : Z) (algorithm : string)
    (partition_manager : DynamicPartition.t)
  : partition_event * DynamicPartition.t :=
  if bool_decide (memory_size <= 0) then (ErrorNotPositive, partition_manager)
  else
    let process := Process.new pid memory_size None in
    let '((success, message), st') :=
      DynamicPartition.allocate process algorithm partition_manager in
    (AllocateLogged success message, st').

Definition _deallocate_memory (pid : Z) (partition_manager : DynamicPartition.t)
  : partition_event * DynamicPartition.t :=
  let '((success, message), st') :=
    DynamicPartition.deallocate pid partition_manager in
  (DeallocateLogged success message, st').

(** The partition manager of the application, [DynamicPartition(1024)], and
    the states its two handlers can bring it to. *)
Inductive partition_tab_state : DynamicPartition.t → Prop :=
| tab_start : partition_tab_state (DynamicPartition.init 1024)
| tab_allocate st pid memory_size algorithm :
    partition_tab_state st →
    partition_tab_state (_allocate_memory pid memory_size algorithm st).2
| tab_deallocate st pid :
    partition_tab_state st → partition_tab_state (_deallocate_memory pid st).2.

(** The handler [_create_job] of the paging tab, on parsed entry fields:
    the job size is typed in KB and handed to the engine in bytes. *)
Inductive job_event :=
| InfoCreated (m : DynamicPaging.message)      (* showinfo("成功", message) *)
| WarnNotCreated (m : DynamicPaging.message)   (* showwarning("失败", message) *)
| JobUncaught (e : exn).

Definition _create_job (job_id : string) (job_size allocated_frames : Z)
    (disk : nat → string) (paging_manager : DynamicPaging.t)
  : job_event * DynamicPaging.t :=
  match DynamicPaging.create_job job_id (job_size * 1024) allocated_frames disk
          paging_manager with
  | (Return (true, message), s') => (InfoCreated message, s')
  | (Return (false, message), s') => (WarnNotCreated message, s')
  | (Raise e, s') => (JobUncaught e, s')
  end.

(** The paging manager of the application, [DynamicPaging(64, 1, 64)], and
    the states its two handlers can bring it to. *)
Inductive paging_tab_state : DynamicPaging.t → Prop :=
| paging_tab_start s0 :
    DynamicPaging.init 64 1 64 = Return s0 → paging_tab_state s0
| paging_tab_create_job s job_id job_size allocated_frames disk :
    paging_tab_state s →
    paging_tab_state (_create_job job_id job_size allocated_frames disk s).2
| paging_tab_execute s operation page_no offset :
    paging_tab_state s →
    paging_tab_state (_execute_instruction operation page_no offset s).2.

End MemoryManagementApp.

(** ** Part II: the properties stated about the engines *)

Module PartitionSpec.
Import DynamicPartition.

Definition total_size (l : list MemoryBlock.t) : Z :=
  foldr (λ b acc, MemoryBlock.size b + acc) 0 l.

(** Ordered by start address. *)
Definition ordered_by_start (l : list MemoryBlock.t) : Prop :=
  ∀ i j bi bj, (i < j)%nat → l !! i = Some bi → l !! j = Some bj →
               MemoryBlock.start_addr bi < MemoryBlock.start_addr bj.

(** The first block starts at 0 and each block starts where the previous
    one ends. *)
Definition contiguous (l : list MemoryBlock.t) : Prop :=
  (∀ b, l !! 0%nat = Some b → MemoryBlock.start_addr b = 0) ∧
  ∀ i b1 b2, l !! i = Some b1 → l !! S i = Some b2 →
             MemoryBlock.start_addr b2
             = MemoryBlock.start_addr b1 + MemoryBlock.size b1.

Definition non_overlapping (l : list MemoryBlock.t) : Prop :=
  ∀ i j bi bj, (i < j)%nat → l !! i = Some bi → l !! j = Some bj →
               MemoryBlock.start_addr bi + MemoryBlock.size bi
               ≤ MemoryBlock.start_addr bj.

Definition no_adjacent_free (l : list MemoryBlock.t) : Prop :=
  ∀ i b1 b2, l !! i = Some b1 → l !! S i = Some b2 →
             ¬ (MemoryBlock.allocated b1 = false
                ∧ MemoryBlock.allocated b2 = false).

(** The same facts in the recursive form the proofs maintain. *)
Fixpoint chained (a : Z) (l : list MemoryBlock.t) : Prop :=
  match l with
  | [] => True
  | b :: rest =>
      MemoryBlock.start_addr b = a ∧ chained (a + MemoryBlock.size b) rest
  end.

Fixpoint alternating (l : list MemoryBlock.t) : Prop :=
  match l with
  | [] => True
  | b :: rest =>
      match rest with
      | [] => True
      | b' :: _ =>
          (MemoryBlock.allocated b = true ∨ MemoryBlock.allocated b' = true)
          ∧ alternating rest
      end
  end.

Record good (m : Z) (st : t) : Prop := {
  good_size : memory_size st = m;
  good_chained : chained 0 (memory_blocks st);
  good_positive : Forall (λ b, 0 < MemoryBlock.size b) (memory_blocks st);
  good_total : total_size (memory_blocks st) = m;
  good_alternating : alternating (memory_blocks st)
}.

Definition invariant (m : Z) (st : t) : Prop := st = init m ∨ good m st.

(** Every tracked process owns a block. *)
Definition tracked_owns (st : t) : Prop :=
  ∀ pid, is_Some (processes st !! pid) →
         ∃ b, b ∈ memory_blocks st ∧ MemoryBlock.allocated b = true
              ∧ MemoryBlock.process_id b = Some pid.

(** One left-to-right sweep: [cur] is [memory_blocks[i]], [rest] what
    follows it, and the blocks before [i] are already final. *)
Fixpoint sweep (cur : MemoryBlock.t) (rest : list MemoryBlock.t)
  : list MemoryBlock.t :=
  match rest with
  | [] => [cur]
  | nxt :: rest' =>
      if negb (MemoryBlock.allocated cur) && negb (MemoryBlock.allocated nxt)
      then sweep (MemoryBlock.grow cur (MemoryBlock.size nxt)) rest'
      else cur :: sweep nxt rest'
  end.

Definition known_algorithm (algorithm : string) : Prop :=
  algorithm = "first_fit" ∨ algorithm = "best_fit" ∨ algorithm = "worst_fit".

Definition candidate (req : Z) (l : list MemoryBlock.t) (j : nat)
    (b : MemoryBlock.t) : Prop :=
  l !! j = Some b ∧ MemoryBlock.allocated b = false ∧ MemoryBlock.size b >= req.
(** The two blocks that replace the chosen one. *)
Definition allocated_block_for (b : MemoryBlock.t) (p : Process.t) : MemoryBlock.t :=
  MemoryBlock.new (MemoryBlock.start_addr b) (Process.memory_size p) true
                  (Some (Process.pid p)).

Definition remainder_for (b : MemoryBlock.t) (p : Process.t) : list MemoryBlock.t :=
  if bool_decide (MemoryBlock.size b > Process.memory_size p) then
    [MemoryBlock.new (MemoryBlock.start_addr b + Process.memory_size p)
                     (MemoryBlock.size b - Process.memory_size p) false None]
  else [].

(** Order of the candidates by their position in [memory_blocks]. *)
Definition idx_lt (x y : nat * MemoryBlock.t) : Prop := (x.1 < y.1)%nat.


(** The accumulators of the two scanning loops agree with the block
    kept so far. *)
Definition best_acc (req : Z) (min_size_diff : option Z)
    (suitable : option (nat * MemoryBlock.t)) : Prop :=
  match suitable with
  | None => min_size_diff = None
  | Some (_, b0) =>
      min_size_diff = Some (MemoryBlock.size b0 - req)
      ∧ MemoryBlock.size b0 >= req
  end.

Definition worst_acc (req : Z) (max_size_diff : Z)
    (suitable : option (nat * MemoryBlock.t)) : Prop :=
  match suitable with
  | None => max_size_diff = -1
  | Some (_, b0) =>
      max_size_diff = MemoryBlock.size b0 - req ∧ MemoryBlock.size b0 >= req
  end.

Definition seen (suitable : option (nat * MemoryBlock.t))
    (fb : list (nat * MemoryBlock.t)) (x : nat * MemoryBlock.t) : Prop :=
  suitable = Some x ∨ x ∈ fb.
End PartitionSpec.

(** Concrete runs used to exercise the statements. *)
Module PartitionRun.
Import DynamicPartition.

Definition proc (pid size : Z) : Process.t := Process.new pid size None.

(** A(10), B(10), C(10) in a memory of 30 units, then B and A released. *)
Definition abc : t :=
  (allocate (proc 3 10) "first_fit"
     (allocate (proc 2 10) "first_fit"
        (allocate (proc 1 10) "first_fit" (init 30)).2).2).2.
Definition abc_released : t := (deallocate 1 (deallocate 2 abc).2).2.

(** Free blocks of sizes 300, 120 and 584 separated by allocated ones. *)
Definition holes : t :=
  (deallocate 1
     (deallocate 3
        (allocate (proc 4 10) "first_fit"
           (allocate (proc 3 120) "first_fit"
              (allocate (proc 2 10) "first_fit"
                 (allocate (proc 1 300) "first_fit" (init 1024)).2).2).2).2).2).2.
End PartitionRun.


Module PagingSpec.
Import DynamicPaging.

(** A resident page sits in the frame its entry names. *)
Definition resident_in_frame (s : t) : Prop :=
  ∀ p pg, page_table s !! p = Some pg → Page.exists_ pg = true →
          ∃ f, Page.frame_no pg = Some f ∧ frames s !! f = Some (Some p).

(** The page held by frame [f] is resident there. *)
Definition holds_resident (s : t) (f : nat) : Prop :=
  ∀ p, frames s !! f = Some (Some p) →
       ∃ pg, page_table s !! p = Some pg ∧ Page.exists_ pg = true
             ∧ Page.frame_no pg = Some f.

(** Every occupied frame holds a resident page (all frame slots). *)
Definition frames_hold_resident (s : t) : Prop :=
  ∀ f, holds_resident s f.

(** The same for the frames of the current job only. *)
Definition job_frames_hold_resident (s : t) : Prop :=
  ∀ f, f ∈ allocated_frames s ∨ f ∈ frame_queue s → holds_resident s f.

(** What every reachable state satisfies. *)
Record wf (s : t) : Prop := {
  wf_page_size : page_size s ≠ 0;
  wf_alloc_range :
    Forall (λ f, (f < length (frames s))%nat) (allocated_frames s);
  wf_alloc_sorted : StronglySorted lt (allocated_frames s);
  wf_queue_occupied :
    ∀ f, f ∈ frame_queue s → ∃ p, frames s !! f = Some (Some p);
  wf_queue_nodup : NoDup (frame_queue s);
  wf_resident : resident_in_frame s
}.

(** What holds in addition while no [create_job] has returned from its
    third check: the FIFO queue lists frames of the job, each holding a
    resident page. *)
Record settled (s : t) : Prop := {
  settled_wf : wf s;
  settled_queue :
    ∀ f, f ∈ frame_queue s →
         ∃ p pg, frames s !! f = Some (Some p)
                 ∧ page_table s !! p = Some pg ∧ Page.exists_ pg = true
                 ∧ Page.frame_no pg = Some f;
  settled_alloc :
    ∀ f, f ∈ allocated_frames s → holds_resident s f
}.

(** States in which the latest [create_job] that got past its first two
    checks succeeded: reached from a successful [create_job] (or from the
    constructor) by [access_memory] calls and by [create_job] calls that
    do not answer [OutOfFrames]. *)
Inductive coherent : t → Prop :=
| coherent_init memory_size page_size max_job_size s0 :
    init memory_size page_size max_job_size = Return s0 → coherent s0
| coherent_job s job_id job_size n disk s' :
    reachable s →
    create_job job_id job_size n disk s
    = (Return (true, JobCreated job_id n), s') →
    coherent s'
| coherent_create_job s job_id job_size n disk :
    coherent s →
    (create_job job_id job_size n disk s).1 ≠ Return (false, OutOfFrames) →
    coherent (create_job job_id job_size n disk s).2
| coherent_access_memory s page_no offset operation :
    coherent s → coherent (access_memory page_no offset operation s).2.

(** States reached while no [create_job] call has succeeded yet. *)
Inductive before_first_job : t → Prop :=
| before_init memory_size page_size max_job_size s0 :
    init memory_size page_size max_job_size = Return s0 →
    before_first_job s0
| before_create_job s job_id job_size n disk :
    before_first_job s →
    (create_job job_id job_size n disk s).1
    ≠ Return (true, JobCreated job_id n) →
    before_first_job (create_job job_id job_size n disk s).2
| before_access_memory s page_no offset operation :
    before_first_job s →
    before_first_job (access_memory page_no offset operation s).2.

(** The error kinds of the specification that a result of
    [access_memory] can stand for. *)
Inductive error_kind := PageOutOfRangeKind | NoCurrentJobKind | CannotLoadKind.

Definition access_error_kind (r : outcome (option Z * bool * info))
  : option error_kind :=
  match r with
  | Return (None, _, PageOutOfRange _) => Some PageOutOfRangeKind
  | Return (None, _, CannotLoad) => Some CannotLoadKind
  | _ => None
  end.

(** The frames of the job that are empty, in list order. *)
Definition free_frames (s : t) : list nat :=
  filter (λ f, frames s !! f = Some None) (allocated_frames s).

(** The page-table entry of the faulting page after the access. *)
Definition mark (operation : string) (p : Page.t) : Page.t :=
  if is_store operation then Page.touch p else p.

(** The state after a fault served by the empty frame [f]. *)
Definition after_fill (page_no : Z) (operation : string) (f : nat) (s : t) : t :=
  mk (memory_size s) (page_size s) (max_job_size s) (total_frames s)
     (<[f := Some page_no]> (frames s)) (current_job s)
     (alter (mark operation) page_no
        (alter (Page.load f) page_no (page_table s)))
     (allocated_frames s) (frame_queue s ++ [f]).

(** The state after a fault served by the oldest frame [rf], which held
    [held] (a page number, or nothing), [queue] being the rest of the
    FIFO queue. *)
Definition evicting (held : option Z) (pt : gmap Z Page.t) : gmap Z Page.t :=
  match held with
  | Some rp => alter Page.evict rp pt
  | None => pt
  end.

Definition after_replace (page_no : Z) (operation : string) (rf : nat)
    (held : option Z) (queue : list nat) (s : t) : t :=
  mk (memory_size s) (page_size s) (max_job_size s) (total_frames s)
     (<[rf := Some page_no]> (frames s)) (current_job s)
     (alter (mark operation) page_no
        (alter (Page.load rf) page_no (evicting held (page_table s))))
     (allocated_frames s) (queue ++ [rf]).

(** A fault that returns an address. *)
Definition fault_returns_address (s : t) (page_no offset : Z)
    (operation : string) : Prop :=
  ∃ f i, (access_memory page_no offset operation s).1
         = Return (Some (Z.of_nat f * page_size s + offset), true, i).

(** A run of [access_memory] calls, results dropped. *)
Definition run_accesses (calls : list (Z * Z * string)) (s : t) : t :=
  foldl (λ s c, (access_memory c.1.1 c.1.2 c.2 s).2) s calls.
End PagingSpec.

(** Concrete runs of the paging engine as the application configures it:
    [DynamicPaging(64, 1, 64)]. *)
Module PagingRun.
Import DynamicPaging.

Definition disk (i : nat) : string := "000".

Definition app : t :=
  match init 64 1 64 with
  | Return s => s
  | Raise _ => mk 0 0 0 0 [] None ∅ [] []
  end.

(** A job of two pages with all 64 frames, pages 1 and 0 touched. *)
Definition two_pages : t :=
  (access_memory 0 0 "load"
     (access_memory 1 0 "save"
        (create_job "j1" 2048 64 disk app).2).2).2.

(** A second job asking for all 64 frames while two are occupied. *)
Definition refused : t := (create_job "j2" 1024 64 disk two_pages).2.

(** A second job that fits: one page, one frame. *)
Definition second_job : t := (create_job "j2" 1024 1 disk two_pages).2.

(** A job of one page with no frame at all. *)
Definition no_frames : t := (create_job "j0" 1024 0 disk app).2.

(** A job of two pages with one frame, page 0 written. *)
Definition one_frame : t :=
  (access_memory 0 0 "save" (create_job "j" 2048 1 disk app).2).2.
End PagingRun.


(** Further properties of the partition engine. *)
Module PartitionMore.
Import DynamicPartition PartitionSpec.

(** The allocated blocks of a list, in list order, and their number. *)
Definition allocated_blocks (l : list MemoryBlock.t) : list MemoryBlock.t :=
  filter (λ b, MemoryBlock.allocated b = true) l.

(** [_merge_adjacent_blocks] seen as a function of the whole list. *)
Definition sweep_list (l : list MemoryBlock.t) : list MemoryBlock.t :=
  match l with
  | [] => []
  | cur :: rest => sweep cur rest
  end.

(** The process map and the allocated blocks describe each other. *)
Record ownership (st : t) : Prop := {
  own_block :
    ∀ b, b ∈ allocated_blocks (memory_blocks st) →
         ∃ p, processes st !! Process.pid p = Some p
              ∧ MemoryBlock.process_id b = Some (Process.pid p)
              ∧ MemoryBlock.size b = Process.memory_size p
              ∧ Process.allocated_block p = Some b;
  own_process :
    ∀ pid p, processes st !! pid = Some p →
             Process.pid p = pid
             ∧ ∃ b, b ∈ allocated_blocks (memory_blocks st)
                    ∧ Process.allocated_block p = Some b
                    ∧ MemoryBlock.process_id b = Some pid
                    ∧ MemoryBlock.size b = Process.memory_size p;
  own_distinct :
    NoDup (MemoryBlock.process_id <$> allocated_blocks (memory_blocks st));
  own_count :
    length (allocated_blocks (memory_blocks st)) = size (processes st);
  own_free :
    ∀ b, b ∈ memory_blocks st → MemoryBlock.allocated b = false →
         MemoryBlock.process_id b = None
}.
End PartitionMore.


(** Further properties of the paging engine. *)
Module PagingMore.
Import DynamicPaging PagingSpec.

(** The ways an [access_memory] call on a well-formed state can go. *)
Inductive access_shape (s : t) (page_no offset : Z) (operation : string)
  : outcome (option Z * bool * info) → t → Prop :=
| shape_out_of_range :
    page_table s !! page_no = None →
    access_shape s page_no offset operation
      (Return (None, false, PageOutOfRange page_no)) s
| shape_hit page f :
    page_table s !! page_no = Some page → Page.exists_ page = true →
    Page.frame_no page = Some f → frames s !! f = Some (Some page_no) →
    access_shape s page_no offset operation
      (Return (Some (Z.of_nat f * page_size s + offset), false, NoInfo))
      (set_page_table (alter (mark operation) page_no (page_table s)) s)
| shape_fill page f rest :
    page_table s !! page_no = Some page → Page.exists_ page = false →
    free_frames s = f :: rest →
    access_shape s page_no offset operation
      (Return (Some (Z.of_nat f * page_size s + offset), true, NoInfo))
      (after_fill page_no operation f s)
| shape_replace page rf queue rp old :
    page_table s !! page_no = Some page → Page.exists_ page = false →
    free_frames s = [] → frame_queue s = rf :: queue →
    frames s !! rf = Some (Some rp) → page_table s !! rp = Some old →
    access_shape s page_no offset operation
      (Return (Some (Z.of_nat rf * page_size s + offset), true, Evicted rp))
      (after_replace page_no operation rf (Some rp) queue s)
| shape_stale page rf queue rp :
    page_table s !! page_no = Some page → Page.exists_ page = false →
    free_frames s = [] → frame_queue s = rf :: queue →
    frames s !! rf = Some (Some rp) → page_table s !! rp = None →
    access_shape s page_no offset operation
      (Raise (KeyError rp)) (set_frame_queue queue s)
| shape_no_frame page :
    page_table s !! page_no = Some page → Page.exists_ page = false →
    free_frames s = [] → frame_queue s = [] →
    access_shape s page_no offset operation
      (Return (None, true, CannotLoad)) s.

(** Facts about the layout that every reachable state has. *)
Record tidy (s : t) : Prop := {
  tidy_frames : length (frames s) = Z.to_nat (total_frames s);
  tidy_total : total_frames s = memory_size s `div` page_size s;
  tidy_keys :
    ∀ p pg, page_table s !! p = Some pg →
            Page.page_no pg = p ∧ 0 ≤ p
            ∧ (Page.exists_ pg = false → Page.frame_no pg = None);
  tidy_queued :
    ∀ p pg f, page_table s !! p = Some pg → Page.exists_ pg = true →
              Page.frame_no pg = Some f → f ∈ frame_queue s
}.

(** The number of empty frame slots. *)
Definition empty_count (s : t) : nat := length (empty_frames (frames s)).

(** The resident pages, as a map. *)
Definition resident_pages (s : t) : gmap Z Page.t :=
  filter (λ kv, Page.exists_ kv.2 = true) (page_table s).
End PagingMore.


(** ** Part III: proofs *)

(** *** The partition engine *)
Section Partition.
Import DynamicPartition PartitionSpec.

Lemma merge_loop_unfold i l :
  merge_loop i l =
  match l !! i, l !! S i with
  | Some current_block, Some next_block =>
      if negb (MemoryBlock.allocated current_block)
         && negb (MemoryBlock.allocated next_block)
      then merge_loop i
             (delete (S i)
                (<[i := MemoryBlock.grow current_block
                          (MemoryBlock.size next_block)]> l))
      else merge_loop (S i) l
  | _, _ => l
  end.
Proof.
  funelim (merge_loop i l);
    repeat match goal with
           | H : ?l !! ?i = _ |- context [?l !! ?i] => rewrite H
           end; reflexivity.
Qed.

(** The indexed loop is the sweep of the part of the list from [i] on. *)
Lemma merge_loop_sweep rest : ∀ pre cur,
  merge_loop (length pre) (pre ++ cur :: rest) = pre ++ sweep cur rest.
Proof.
  induction rest as [|nxt rest IH]; intros pre cur;
    rewrite merge_loop_unfold.
  - rewrite list_lookup_middle by reflexivity.
    rewrite lookup_ge_None_2; [reflexivity|].
    rewrite length_app. simpl. lia.
  - rewrite list_lookup_middle by reflexivity.
    replace ((pre ++ cur :: nxt :: rest) !! S (length pre)) with (Some nxt).
    2:{ rewrite lookup_app_r by lia.
        replace (S (length pre) - length pre)%nat with 1%nat by lia.
        reflexivity. }
    simpl sweep.
    destruct (negb (MemoryBlock.allocated cur)
              && negb (MemoryBlock.allocated nxt)).
    + rewrite insert_app_r_alt by lia.
      replace (length pre - length pre)%nat with 0%nat by lia. simpl.
      set (cur' := MemoryBlock.grow cur (MemoryBlock.size nxt)).
      replace (pre ++ cur' :: nxt :: rest)
        with ((pre ++ [cur']) ++ nxt :: rest)
        by (rewrite <- app_assoc; reflexivity).
      replace (S (length pre)) with (length (pre ++ [cur']))
        by (rewrite length_app; simpl; lia).
      rewrite delete_middle, <- app_assoc. apply IH.
    + replace (pre ++ cur :: nxt :: rest) with ((pre ++ [cur]) ++ nxt :: rest)
        by (rewrite <- app_assoc; reflexivity).
      replace (S (length pre)) with (length (pre ++ [cur]))
        by (rewrite length_app; simpl; lia).
      rewrite IH, <- app_assoc. reflexivity.
Qed.

Lemma merge_adjacent_blocks_sweep l :
  _merge_adjacent_blocks l
  = match l with [] => [] | cur :: rest => sweep cur rest end.
Proof.
  unfold _merge_adjacent_blocks. destruct l as [|cur rest].
  - rewrite merge_loop_unfold. reflexivity.
  - apply (merge_loop_sweep rest [] cur).
Qed.

(** **** What one sweep preserves and what it establishes *)

Lemma sweep_cons rest : ∀ cur, ∃ c' r',
  sweep cur rest = c' :: r'
  ∧ MemoryBlock.allocated c' = MemoryBlock.allocated cur
  ∧ MemoryBlock.start_addr c' = MemoryBlock.start_addr cur.
Proof.
  induction rest as [|nxt rest IH]; intros cur; simpl.
  - eauto.
  - destruct (negb (MemoryBlock.allocated cur)
              && negb (MemoryBlock.allocated nxt)); [|eauto].
    destruct (IH (MemoryBlock.grow cur (MemoryBlock.size nxt)))
      as (c' & r' & -> & Ha & Hs). eauto.
Qed.

Lemma sweep_alternating rest : ∀ cur, alternating (sweep cur rest).
Proof.
  induction rest as [|nxt rest IH]; intros cur; simpl; [exact I|].
  destruct (negb (MemoryBlock.allocated cur)
            && negb (MemoryBlock.allocated nxt)) eqn:E; [apply IH|].
  destruct (sweep_cons rest nxt) as (c' & r' & Heq & Ha & _).
  specialize (IH nxt). rewrite Heq in *. simpl. split; [|exact IH].
  rewrite Ha.
  destruct (MemoryBlock.allocated cur), (MemoryBlock.allocated nxt);
    simpl in E; auto; discriminate.
Qed.

Lemma sweep_chained rest : ∀ cur a,
  chained a (cur :: rest) → chained a (sweep cur rest).
Proof.
  induction rest as [|nxt rest IH]; intros cur a H; simpl; [exact H|].
  destruct H as (Hs & Hn & Hr).
  destruct (negb (MemoryBlock.allocated cur)
            && negb (MemoryBlock.allocated nxt)).
  - apply IH. simpl. split; [exact Hs|].
    replace (a + (MemoryBlock.size cur + MemoryBlock.size nxt))
      with (a + MemoryBlock.size cur + MemoryBlock.size nxt) by lia.
    exact Hr.
  - simpl. split; [exact Hs|]. apply IH. simpl. auto.
Qed.

Lemma sweep_total rest : ∀ cur,
  total_size (sweep cur rest) = total_size (cur :: rest).
Proof.
  induction rest as [|nxt rest IH]; intros cur; simpl; [reflexivity|].
  destruct (negb (MemoryBlock.allocated cur)
            && negb (MemoryBlock.allocated nxt)).
  - rewrite IH. simpl. lia.
  - simpl. rewrite IH. simpl. lia.
Qed.

Lemma sweep_positive rest : ∀ cur,
  Forall (λ b, 0 < MemoryBlock.size b) (cur :: rest) →
  Forall (λ b, 0 < MemoryBlock.size b) (sweep cur rest).
Proof.
  induction rest as [|nxt rest IH]; intros cur H; simpl; [exact H|].
  apply Forall_cons in H as (Hc & H). apply Forall_cons in H as (Hn & H).
  destruct (negb (MemoryBlock.allocated cur)
            && negb (MemoryBlock.allocated nxt)).
  - apply IH. apply Forall_cons. split; [simpl; lia|exact H].
  - apply Forall_cons. split; [exact Hc|]. apply IH.
    apply Forall_cons. auto.
Qed.

(** Allocated blocks go through the sweep untouched. *)
Lemma sweep_keeps_allocated rest : ∀ cur b,
  b ∈ cur :: rest → MemoryBlock.allocated b = true → b ∈ sweep cur rest.
Proof.
  induction rest as [|nxt rest IH]; intros cur b Hin Hb; simpl; [exact Hin|].
  destruct (negb (MemoryBlock.allocated cur)
            && negb (MemoryBlock.allocated nxt)) eqn:E.
  - apply andb_true_iff in E as (Ec & En).
    apply negb_true_iff in Ec, En.
    apply IH; [|exact Hb].
    apply elem_of_cons in Hin as [->|Hin]; [congruence|].
    apply elem_of_cons in Hin as [->|Hin]; [congruence|].
    apply elem_of_cons. auto.
  - apply elem_of_cons in Hin as [->|Hin]; [apply elem_of_cons; auto|].
    apply elem_of_cons. right. apply IH; assumption.
Qed.

(** **** The recursive invariants over concatenations *)

Lemma total_size_app l1 l2 :
  total_size (l1 ++ l2) = total_size l1 + total_size l2.
Proof. induction l1 as [|b l1 IH]; simpl; [reflexivity|]. rewrite IH. lia. Qed.

Lemma chained_app l1 : ∀ a l2,
  chained a (l1 ++ l2) ↔ chained a l1 ∧ chained (a + total_size l1) l2.
Proof.
  induction l1 as [|b l1 IH]; intros a l2; simpl.
  - replace (a + 0) with a by lia. tauto.
  - rewrite IH.
    replace (a + MemoryBlock.size b + total_size l1)
      with (a + (MemoryBlock.size b + total_size l1)) by lia.
    tauto.
Qed.

Lemma alternating_app l1 : ∀ l2,
  alternating (l1 ++ l2) ↔
  alternating l1 ∧ alternating l2
  ∧ (∀ x y, last l1 = Some x → head l2 = Some y →
            MemoryBlock.allocated x = true ∨ MemoryBlock.allocated y = true).
Proof.
  induction l1 as [|b l1 IH]; intros l2.
  - simpl. split; [intros H; repeat split; auto; discriminate|tauto].
  - destruct l1 as [|b' l1].
    + simpl. destruct l2 as [|y l2]; simpl.
      * split; [intros _; repeat split; auto; discriminate|auto].
      * split.
        -- intros (Hb & Hl). repeat split; auto. intros x y' [= <-] [= <-]. exact Hb.
        -- intros (_ & Hl & Hb). split; [eapply Hb; reflexivity|exact Hl].
    + specialize (IH l2). simpl in IH |- *.
      change (last (b :: b' :: l1)) with (last (b' :: l1)).
      rewrite IH. tauto.
Qed.


(** **** The list surgery of [allocate] *)

Lemma list_insert_at_middle {A} (pre post : list A) (x : A) :
  list_insert_at (length pre) x (pre ++ post) = pre ++ x :: post.
Proof.
  unfold list_insert_at.
  rewrite take_app_length, drop_app_length. reflexivity.
Qed.

Lemma place_middle pre post b p :
  place (length pre) b p (pre ++ b :: post)
  = pre ++ allocated_block_for b p :: remainder_for b p ++ post.
Proof.
  unfold place, remainder_for. rewrite delete_middle.
  destruct (bool_decide (MemoryBlock.size b > Process.memory_size p)).
  - rewrite list_insert_at_middle, list_insert_at_middle. reflexivity.
  - rewrite list_insert_at_middle. reflexivity.
Qed.

Lemma place_lookup i b p l :
  l !! i = Some b →
  place i b p l
  = take i l ++ allocated_block_for b p :: remainder_for b p ++ drop (S i) l.
Proof.
  intros H.
  destruct (list_elem_of_split_length _ _ _ H) as (pre & post & -> & ->).
  rewrite place_middle, take_app_length.
  replace (S (length pre)) with (length (pre ++ [b]))
    by (rewrite length_app; simpl; lia).
  replace (pre ++ b :: post) with ((pre ++ [b]) ++ post)
    by (rewrite <- app_assoc; reflexivity).
  rewrite drop_app_length. reflexivity.
Qed.

(** **** Candidates and the three selection loops *)

Lemma free_blocks_elem l i b :
  (i, b) ∈ free_blocks l ↔ l !! i = Some b ∧ MemoryBlock.allocated b = false.
Proof.
  unfold free_blocks. rewrite list_elem_of_filter, elem_of_lookup_imap.
  unfold MemoryBlock.is_free. simpl. split.
  - intros (Hf & j & y & [= -> ->] & Hl). auto.
  - intros (Hl & Hf). eauto.
Qed.

Lemma filter_imap_sorted (l : list MemoryBlock.t) : ∀ k,
  StronglySorted idx_lt
    (filter (λ ib, MemoryBlock.is_free ib.2) (imap (λ i b, ((k + i)%nat, b)) l))
  ∧ Forall (λ x, (k ≤ x.1)%nat)
      (filter (λ ib, MemoryBlock.is_free ib.2) (imap (λ i b, ((k + i)%nat, b)) l)).
Proof.
  induction l as [|b l IH]; intros k.
  - split; constructor.
  - rewrite imap_cons.
    destruct (IH (S k)) as (Hs & Hf).
    assert (Heq : imap ((λ i b0, ((k + i)%nat, b0)) ∘ S) l
                  = imap (λ i b0, ((S k + i)%nat, b0)) l).
    { apply imap_ext. intros i x _. simpl. f_equal. lia. }
    rewrite Heq, filter_cons.
    assert (Hf' : Forall (λ x : nat * MemoryBlock.t, (k ≤ x.1)%nat)
              (filter (λ ib, MemoryBlock.is_free ib.2)
                      (imap (λ i b0, ((S k + i)%nat, b0)) l))).
    { eapply Forall_impl; [exact Hf|]. simpl. intros; lia. }
    destruct (decide (MemoryBlock.is_free (k + 0, b).2)%nat); [|auto].
    split.
    + constructor; [exact Hs|].
      eapply Forall_impl; [exact Hf|]. unfold idx_lt. simpl. intros; lia.
    + constructor; [simpl; lia|exact Hf'].
Qed.

Lemma free_blocks_sorted l : StronglySorted idx_lt (free_blocks l).
Proof. exact (proj1 (filter_imap_sorted l 0)). Qed.

Lemma first_fit_loop_spec req fb :
  StronglySorted idx_lt fb →
  match first_fit_loop req fb with
  | Some (i, b) =>
      (i, b) ∈ fb ∧ MemoryBlock.size b >= req
      ∧ ∀ x, x ∈ fb → MemoryBlock.size x.2 >= req → (i ≤ x.1)%nat
  | None => ∀ x, x ∈ fb → ¬ MemoryBlock.size x.2 >= req
  end.
Proof.
  induction fb as [|[j c] fb IH]; intros Hs; simpl.
  - intros x Hx. inversion Hx.
  - apply StronglySorted_inv in Hs as (Hs & Hall).
    case_bool_decide as Hc.
    + split; [left|]. split; [exact Hc|].
      intros x Hx _. apply elem_of_cons in Hx as [->|Hx]; [simpl; lia|].
      rewrite Forall_forall in Hall. specialize (Hall x Hx).
      unfold idx_lt in Hall. simpl in *. lia.
    + specialize (IH Hs). destruct (first_fit_loop req fb) as [[i b]|].
      * destruct IH as (Hin & Hb & Hfirst). split; [right; exact Hin|].
        split; [exact Hb|]. intros x Hx Hreq.
        apply elem_of_cons in Hx as [->|Hx]; [contradiction|]. auto.
      * intros x Hx. apply elem_of_cons in Hx as [->|Hx]; [exact Hc|auto].
Qed.


Lemma best_fit_loop_spec req fb : ∀ min_size_diff suitable,
  best_acc req min_size_diff suitable →
  StronglySorted idx_lt fb →
  (∀ x0 x, suitable = Some x0 → x ∈ fb → idx_lt x0 x) →
  match best_fit_loop req fb min_size_diff suitable with
  | Some (i, b) =>
      seen suitable fb (i, b) ∧ MemoryBlock.size b >= req
      ∧ ∀ x, seen suitable fb x → MemoryBlock.size x.2 >= req →
             MemoryBlock.size b ≤ MemoryBlock.size x.2
             ∧ (MemoryBlock.size x.2 = MemoryBlock.size b → (i ≤ x.1)%nat)
  | None => suitable = None ∧ ∀ x, x ∈ fb → ¬ MemoryBlock.size x.2 >= req
  end.
Proof.
  induction fb as [|[j c] fb IH]; intros m suit Hacc Hs Hlt; simpl.
  - destruct suit as [[i b]|]; [|split; [reflexivity|intros x Hx; inversion Hx]].
    destruct Hacc as (_ & Hb). split; [left; reflexivity|]. split; [exact Hb|].
    intros x [[= <-]|Hx] _; [simpl; lia|inversion Hx].
  - apply StronglySorted_inv in Hs as (Hs & Hall).
    rewrite Forall_forall in Hall.
    destruct (bool_decide (MemoryBlock.size c >= req)
              && below (MemoryBlock.size c - req) m) eqn:E.
    + apply andb_true_iff in E as (Ec & Eb). apply bool_decide_eq_true in Ec.
      specialize (IH (Some (MemoryBlock.size c - req)) (Some (j, c))).
      destruct (best_fit_loop req fb _ _) as [[i b]|].
      * destruct IH as (Hseen & Hb & Hmin).
        { simpl. auto. } { exact Hs. }
        { intros x0 x [= <-] Hx. auto. }
        split; [|split; [exact Hb|]].
        { destruct Hseen as [[= -> ->]|Hin]; right; [left|right; exact Hin]. }
        intros x Hx Hreq.
        destruct Hx as [->|Hx].
        -- destruct x as [i0 b0]. destruct Hacc as (-> & Hb0).
           simpl in Eb. apply bool_decide_eq_true in Eb.
           destruct (Hmin (j, c)) as (Hle & _); [left; reflexivity|exact Ec|].
           simpl in *. split; lia.
        -- apply elem_of_cons in Hx as [->|Hx]; apply Hmin; auto;
             [left; reflexivity|right; exact Hx].
      * destruct IH as (Hcontra & _); [simpl; auto|exact Hs| |discriminate].
        intros x0 x [= <-] Hx. auto.
    + specialize (IH m suit Hacc Hs).
      assert (Hlt' : ∀ x0 x, suit = Some x0 → x ∈ fb → idx_lt x0 x).
      { intros x0 x H0 Hx. apply (Hlt x0 x H0). right. exact Hx. }
      specialize (IH Hlt').
      apply andb_false_iff in E.
      destruct (best_fit_loop req fb m suit) as [[i b]|].
      * destruct IH as (Hseen & Hb & Hmin).
        split; [|split; [exact Hb|]].
        { destruct Hseen as [Hs0|Hin]; [left; exact Hs0|right; right; exact Hin]. }
        intros x Hx Hreq. destruct Hx as [Hx|Hx]; [apply Hmin; auto; left; exact Hx|].
        apply elem_of_cons in Hx as [->|Hx]; [|apply Hmin; auto; right; exact Hx].
        simpl in Hreq. destruct E as [E|E];
          [apply bool_decide_eq_false in E; contradiction|].
        destruct suit as [[i0 b0]|]; simpl in Hacc.
        -- destruct Hacc as (-> & Hb0). simpl in E.
           apply bool_decide_eq_false in E.
           destruct (Hmin (i0, b0)) as (Hle & Htie); [left; reflexivity|exact Hb0|].
           simpl in *. split; [lia|]. intros Heq.
           assert (Hi : (i ≤ i0)%nat) by (apply Htie; lia).
           specialize (Hlt (i0, b0) (j, c) eq_refl). unfold idx_lt in Hlt.
           simpl in Hlt. assert ((i0 < j)%nat) by (apply Hlt; left). lia.
        -- subst m. simpl in E. discriminate.
      * destruct IH as (-> & Hnone). split; [reflexivity|].
        intros x Hx. apply elem_of_cons in Hx as [->|Hx]; [|auto].
        simpl in Hacc. subst m. simpl in *.
        destruct E as [E|E]; [apply bool_decide_eq_false in E; exact E|discriminate].
Qed.

Lemma worst_fit_loop_spec req fb : ∀ max_size_diff suitable,
  worst_acc req max_size_diff suitable →
  StronglySorted idx_lt fb →
  (∀ x0 x, suitable = Some x0 → x ∈ fb → idx_lt x0 x) →
  match worst_fit_loop req fb max_size_diff suitable with
  | Some (i, b) =>
      seen suitable fb (i, b) ∧ MemoryBlock.size b >= req
      ∧ ∀ x, seen suitable fb x → MemoryBlock.size x.2 >= req →
             MemoryBlock.size x.2 ≤ MemoryBlock.size b
             ∧ (MemoryBlock.size x.2 = MemoryBlock.size b → (i ≤ x.1)%nat)
  | None => suitable = None ∧ ∀ x, x ∈ fb → ¬ MemoryBlock.size x.2 >= req
  end.
Proof.
  induction fb as [|[j c] fb IH]; intros m suit Hacc Hs Hlt; simpl.
  - destruct suit as [[i b]|]; [|split; [reflexivity|intros x Hx; inversion Hx]].
    destruct Hacc as (_ & Hb). split; [left; reflexivity|]. split; [exact Hb|].
    intros x [[= <-]|Hx] _; [simpl; lia|inversion Hx].
  - apply StronglySorted_inv in Hs as (Hs & Hall).
    rewrite Forall_forall in Hall.
    destruct (bool_decide (MemoryBlock.size c >= req)
              && bool_decide (MemoryBlock.size c - req > m)) eqn:E.
    + apply andb_true_iff in E as (Ec & Eb). apply bool_decide_eq_true in Ec, Eb.
      specialize (IH (MemoryBlock.size c - req) (Some (j, c))).
      destruct (worst_fit_loop req fb _ _) as [[i b]|].
      * destruct IH as (Hseen & Hb & Hmax).
        { simpl. auto. } { exact Hs. }
        { intros x0 x [= <-] Hx. auto. }
        split; [|split; [exact Hb|]].
        { destruct Hseen as [[= -> ->]|Hin]; right; [left|right; exact Hin]. }
        intros x Hx Hreq.
        destruct Hx as [->|Hx].
        -- destruct x as [i0 b0]. destruct Hacc as (-> & Hb0).
           destruct (Hmax (j, c)) as (Hle & _); [left; reflexivity|exact Ec|].
           simpl in *. split; lia.
        -- apply elem_of_cons in Hx as [->|Hx]; apply Hmax; auto;
             [left; reflexivity|right; exact Hx].
      * destruct IH as (Hcontra & _); [simpl; auto|exact Hs| |discriminate].
        intros x0 x [= <-] Hx. auto.
    + specialize (IH m suit Hacc Hs).
      assert (Hlt' : ∀ x0 x, suit = Some x0 → x ∈ fb → idx_lt x0 x).
      { intros x0 x H0 Hx. apply (Hlt x0 x H0). right. exact Hx. }
      specialize (IH Hlt').
      apply andb_false_iff in E.
      destruct (worst_fit_loop req fb m suit) as [[i b]|].
      * destruct IH as (Hseen & Hb & Hmax).
        split; [|split; [exact Hb|]].
        { destruct Hseen as [Hs0|Hin]; [left; exact Hs0|right; right; exact Hin]. }
        intros x Hx Hreq. destruct Hx as [Hx|Hx]; [apply Hmax; auto; left; exact Hx|].
        apply elem_of_cons in Hx as [->|Hx]; [|apply Hmax; auto; right; exact Hx].
        simpl in Hreq. destruct E as [E|E];
          [apply bool_decide_eq_false in E; contradiction|].
        apply bool_decide_eq_false in E.
        destruct suit as [[i0 b0]|]; simpl in Hacc.
        -- destruct Hacc as (-> & Hb0).
           destruct (Hmax (i0, b0)) as (Hle & Htie); [left; reflexivity|exact Hb0|].
           simpl in *. split; [lia|]. intros Heq.
           assert (Hi : (i ≤ i0)%nat) by (apply Htie; lia).
           specialize (Hlt (i0, b0) (j, c) eq_refl). unfold idx_lt in Hlt.
           simpl in Hlt. assert ((i0 < j)%nat) by (apply Hlt; left). lia.
        -- subst m. lia.
      * destruct IH as (-> & Hnone). split; [reflexivity|].
        intros x Hx. apply elem_of_cons in Hx as [->|Hx]; [|auto].
        simpl in Hacc. subst m. simpl in *.
        destruct E as [E|E]; apply bool_decide_eq_false in E; lia.
Qed.


Lemma candidate_free_blocks req l j c :
  candidate req l j c ↔ (j, c) ∈ free_blocks l ∧ MemoryBlock.size c >= req.
Proof. unfold candidate. rewrite free_blocks_elem. tauto. Qed.

Lemma select_first_fit req l :
  match select "first_fit" req l with
  | Some (i, b) =>
      candidate req l i b ∧ ∀ j c, candidate req l j c → (i ≤ j)%nat
  | None => ∀ j c, ¬ candidate req l j c
  end.
Proof.
  unfold select. rewrite bool_decide_eq_true_2 by reflexivity.
  pose proof (first_fit_loop_spec req _ (free_blocks_sorted l)) as H.
  destruct (first_fit_loop req (free_blocks l)) as [[i b]|].
  - destruct H as (Hin & Hb & Hfirst). split.
    + apply candidate_free_blocks. auto.
    + intros j c Hc. apply candidate_free_blocks in Hc as (Hc & Hreq).
      apply (Hfirst (j, c) Hc Hreq).
  - intros j c Hc. apply candidate_free_blocks in Hc as (Hc & Hreq).
    exact (H (j, c) Hc Hreq).
Qed.

Lemma select_best_fit req l :
  match select "best_fit" req l with
  | Some (i, b) =>
      candidate req l i b
      ∧ ∀ j c, candidate req l j c →
               MemoryBlock.size b ≤ MemoryBlock.size c
               ∧ (MemoryBlock.size c = MemoryBlock.size b → (i ≤ j)%nat)
  | None => ∀ j c, ¬ candidate req l j c
  end.
Proof.
  unfold select. rewrite bool_decide_eq_false_2 by discriminate.
  rewrite bool_decide_eq_true_2 by reflexivity.
  pose proof (best_fit_loop_spec req (free_blocks l) None None) as H.
  destruct (best_fit_loop req (free_blocks l) None None) as [[i b]|].
  - destruct H as (Hin & Hb & Hmin);
      [reflexivity|apply free_blocks_sorted|discriminate|].
    destruct Hin as [Hin|Hin]; [discriminate|]. split.
    + apply candidate_free_blocks. auto.
    + intros j c Hc. apply candidate_free_blocks in Hc as (Hc & Hreq).
      apply (Hmin (j, c)); [right; exact Hc|exact Hreq].
  - destruct H as (_ & H);
      [reflexivity|apply free_blocks_sorted|discriminate|].
    intros j c Hc. apply candidate_free_blocks in Hc as (Hc & Hreq).
    exact (H (j, c) Hc Hreq).
Qed.

Lemma select_worst_fit req l :
  match select "worst_fit" req l with
  | Some (i, b) =>
      candidate req l i b
      ∧ ∀ j c, candidate req l j c →
               MemoryBlock.size c ≤ MemoryBlock.size b
               ∧ (MemoryBlock.size c = MemoryBlock.size b → (i ≤ j)%nat)
  | None => ∀ j c, ¬ candidate req l j c
  end.
Proof.
  unfold select. rewrite !bool_decide_eq_false_2 by discriminate.
  rewrite bool_decide_eq_true_2 by reflexivity.
  pose proof (worst_fit_loop_spec req (free_blocks l) (-1) None) as H.
  destruct (worst_fit_loop req (free_blocks l) (-1) None) as [[i b]|].
  - destruct H as (Hin & Hb & Hmax);
      [reflexivity|apply free_blocks_sorted|discriminate|].
    destruct Hin as [Hin|Hin]; [discriminate|]. split.
    + apply candidate_free_blocks. auto.
    + intros j c Hc. apply candidate_free_blocks in Hc as (Hc & Hreq).
      apply (Hmax (j, c)); [right; exact Hc|exact Hreq].
  - destruct H as (_ & H);
      [reflexivity|apply free_blocks_sorted|discriminate|].
    intros j c Hc. apply candidate_free_blocks in Hc as (Hc & Hreq).
    exact (H (j, c) Hc Hreq).
Qed.

(** Whatever the algorithm name, a selected block is a candidate. *)
Lemma select_candidate algorithm req l i b :
  select algorithm req l = Some (i, b) → candidate req l i b.
Proof.
  intros H. unfold select in H.
  case_bool_decide as H1.
  { subst. pose proof (select_first_fit req l) as S. unfold select in S.
    rewrite bool_decide_eq_true_2 in S by reflexivity. rewrite H in S. tauto. }
  case_bool_decide as H2.
  { subst. pose proof (select_best_fit req l) as S. unfold select in S.
    rewrite bool_decide_eq_false_2 in S by discriminate.
    rewrite bool_decide_eq_true_2 in S by reflexivity. rewrite H in S. tauto. }
  case_bool_decide as H3; [|discriminate].
  subst. pose proof (select_worst_fit req l) as S. unfold select in S.
  rewrite !bool_decide_eq_false_2 in S by discriminate.
  rewrite bool_decide_eq_true_2 in S by reflexivity. rewrite H in S. tauto.
Qed.

(** **** Positions and addresses in a chained list *)

Lemma total_size_nonneg l :
  Forall (λ b, 0 < MemoryBlock.size b) l → 0 ≤ total_size l.
Proof.
  induction 1 as [|b l Hb _ IH]; simpl; lia.
Qed.

Lemma chained_lookup l : ∀ a i b,
  chained a l → l !! i = Some b →
  MemoryBlock.start_addr b = a + total_size (take i l).
Proof.
  induction l as [|c l IH]; intros a i b Hc Hl; [discriminate|].
  destruct Hc as (Hs & Hc). destruct i as [|i]; simpl in *.
  - injection Hl as <-. lia.
  - rewrite (IH _ _ _ Hc Hl). lia.
Qed.

Lemma chained_order l a i j bi bj :
  chained a l → Forall (λ b, 0 < MemoryBlock.size b) l →
  (i < j)%nat → l !! i = Some bi → l !! j = Some bj →
  MemoryBlock.start_addr bi + MemoryBlock.size bi ≤ MemoryBlock.start_addr bj
  ∧ MemoryBlock.start_addr bi < MemoryBlock.start_addr bj.
Proof.
  intros Hc Hp Hij Hi Hj.
  rewrite (chained_lookup _ _ _ _ Hc Hi), (chained_lookup _ _ _ _ Hc Hj).
  assert (Hbi : 0 < MemoryBlock.size bi).
  { rewrite Forall_forall in Hp. apply Hp. eapply list_elem_of_lookup_2, Hi. }
  assert (Htake : take j l = take i l ++ bi :: take (j - S i) (drop (S i) l)).
  { rewrite <- (take_drop_middle l i bi Hi) at 1.
    rewrite take_app_ge by (rewrite length_take; lia).
    f_equal. rewrite length_take_le by (apply lookup_lt_Some in Hi; lia).
    replace (j - i)%nat with (S (j - S i)) by lia. reflexivity. }
  rewrite Htake, total_size_app. simpl.
  assert (0 ≤ total_size (take (j - S i) (drop (S i) l))).
  { apply total_size_nonneg, Forall_take, Forall_drop, Hp. }
  lia.
Qed.


(** **** The invariant is kept by [allocate] and [deallocate] *)

Local Ltac chained_from H :=
  match goal with
  | |- chained ?a ?l =>
      match type of H with
      | chained ?a' l => replace a with a' by (simpl in *; lia); exact H
      end
  end.

Lemma good_init m : 0 < m → good m (init m).
Proof.
  intros Hm.
  split; simpl; [reflexivity|auto|repeat constructor; exact Hm|lia|exact I].
Qed.

Lemma good_place m st i b p :
  good m st → candidate (Process.memory_size p) (memory_blocks st) i b →
  0 < Process.memory_size p →
  good m (mk (memory_size st) (place i b p (memory_blocks st))
             (<[Process.pid p := Process.new (Process.pid p)
                  (Process.memory_size p) (Some (allocated_block_for b p))]>
                (processes st))).
Proof.
  intros [Hsz Hch Hpos Htot Halt] (Hl & Hfree & Hreq) Hp.
  destruct (list_elem_of_split_length _ _ _ Hl) as (pre & post & Heq & ->).
  rewrite Heq in *. rewrite place_middle.
  apply chained_app in Hch as (Hch1 & Hb & Hch2). simpl in Hb, Hch2.
  apply Forall_app in Hpos as (Hpos1 & Hpos2).
  apply Forall_cons in Hpos2 as (Hposb & Hpos2).
  apply alternating_app in Halt as (Halt1 & Halt2 & Hbound).
  assert (Hpost : alternating post
                  ∧ ∀ y, head post = Some y → MemoryBlock.allocated y = true).
  { destruct post as [|y post]; [split; [exact I|discriminate]|].
    destruct Halt2 as ([Hx|Hy] & Hrest); [congruence|].
    split; [exact Hrest|]. intros y' [= <-]. exact Hy. }
  destruct Hpost as (Haltp & Hhead).
  rewrite total_size_app in Htot. simpl in Htot.
  unfold remainder_for.
  split; simpl; [exact Hsz| | | |].
  - apply chained_app. split; [exact Hch1|]. simpl. split; [exact Hb|].
    case_bool_decide; simpl.
    + split; [lia|]. chained_from Hch2.
    + chained_from Hch2.
  - apply Forall_app. split; [exact Hpos1|].
    apply Forall_cons. split; [exact Hp|].
    case_bool_decide; simpl; [|exact Hpos2].
    apply Forall_cons. split; [simpl; lia|exact Hpos2].
  - rewrite total_size_app. simpl.
    case_bool_decide; simpl; lia.
  - apply alternating_app. split; [exact Halt1|]. split.
    + case_bool_decide; simpl.
      * split; [left; reflexivity|].
        destruct post as [|y post]; [exact I|].
        split; [right; apply Hhead; reflexivity|exact Haltp].
      * destruct post as [|y post]; [exact I|].
        split; [left; reflexivity|exact Haltp].
    + intros x y _ [= <-]. right. reflexivity.
Qed.

Lemma allocate_invariant m st p algorithm :
  invariant m st → positive_request p →
  invariant m (allocate p algorithm st).2.
Proof.
  intros Hinv Hp. unfold allocate.
  case_bool_decide; [exact Hinv|].
  destruct (select algorithm _ _) as [[i b]|] eqn:Hsel; [|exact Hinv].
  apply select_candidate in Hsel. simpl. right.
  apply good_place; [|exact Hsel|exact Hp].
  destruct Hinv as [->|Hg]; [|exact Hg].
  apply good_init. destruct Hsel as (Hl & _ & Hreq). simpl in Hl.
  destruct i; [|discriminate]. injection Hl as <-. simpl in Hreq.
  unfold positive_request in Hp. lia.
Qed.

Lemma find_owned_spec pid l : ∀ k,
  match find_owned pid k l with
  | Some (i, b) =>
      (k ≤ i)%nat ∧ l !! (i - k)%nat = Some b
      ∧ MemoryBlock.allocated b = true ∧ MemoryBlock.process_id b = Some pid
  | None =>
      ∀ b, b ∈ l → ¬ (MemoryBlock.allocated b = true
                      ∧ MemoryBlock.process_id b = Some pid)
  end.
Proof.
  induction l as [|c l IH]; intros k; simpl.
  - intros b Hb. inversion Hb.
  - destruct (MemoryBlock.allocated c
              && bool_decide (MemoryBlock.process_id c = Some pid)) eqn:E.
    + apply andb_true_iff in E as (Ea & Ep). apply bool_decide_eq_true in Ep.
      replace (k - k)%nat with 0%nat by lia. auto.
    + specialize (IH (S k)). destruct (find_owned pid (S k) l) as [[i b]|].
      * destruct IH as (Hk & Hl & Hrest). split; [lia|].
        replace (i - k)%nat with (S (i - S k)) by lia. auto.
      * intros b Hb. apply elem_of_cons in Hb as [->|Hb]; [|auto].
        intros (Ha & Hp). rewrite Ha in E. simpl in E.
        apply bool_decide_eq_false in E. contradiction.
Qed.



Lemma insert_middle {A} (pre post : list A) (x y : A) :
  <[length pre := y]> (pre ++ x :: post) = pre ++ y :: post.
Proof.
  rewrite insert_app_r_alt by lia.
  replace (length pre - length pre)%nat with 0%nat by lia. reflexivity.
Qed.

(** What a successful [deallocate] does to the list: the owned block [b]
    becomes free in place, then the list is swept. *)
Lemma deallocate_cases pid st :
  (deallocate pid st = ((false, ProcessMissing pid), st)
   ∧ processes st !! pid = None)
  ∨ (deallocate pid st = ((false, NoAllocatedBlock pid), st)
     ∧ ∀ b, b ∈ memory_blocks st →
            ¬ (MemoryBlock.allocated b = true
               ∧ MemoryBlock.process_id b = Some pid))
  ∨ ∃ pre b post c rest,
      memory_blocks st = pre ++ b :: post
      ∧ MemoryBlock.allocated b = true
      ∧ MemoryBlock.process_id b = Some pid
      ∧ pre ++ MemoryBlock.new (MemoryBlock.start_addr b)
                 (MemoryBlock.size b) false None :: post = c :: rest
      ∧ is_Some (processes st !! pid)
      ∧ deallocate pid st
        = ((true, Released pid),
           mk (memory_size st) (sweep c rest) (delete pid (processes st))).
Proof.
  unfold deallocate. case_bool_decide as Hp; [left; auto|right].
  pose proof (find_owned_spec pid (memory_blocks st) 0) as H.
  destruct (find_owned pid 0 (memory_blocks st)) as [[i b]|]; [right|left; auto].
  destruct H as (_ & Hl & Ha & Hpid).
  replace (i - 0)%nat with i in Hl by lia.
  destruct (list_elem_of_split_length _ _ _ Hl) as (pre & post & Heq & ->).
  rewrite Heq, insert_middle, merge_adjacent_blocks_sweep.
  set (free_block := MemoryBlock.new (MemoryBlock.start_addr b)
                       (MemoryBlock.size b) false None).
  destruct (pre ++ free_block :: post) as [|c rest] eqn:Hcr.
  { destruct pre; discriminate. }
  exists pre, b, post, c, rest. repeat split; auto.
  destruct (processes st !! pid); [eauto|congruence].
Qed.

Lemma deallocate_invariant m st pid :
  invariant m st → invariant m (deallocate pid st).2.
Proof.
  intros Hinv.
  destruct (deallocate_cases pid st)
    as [(-> & _)|[(-> & _)|(pre & b & post & c & rest & Heq & Ha & Hpid
                            & Hcr & Hsome & ->)]]; [exact Hinv..|].
  destruct Hinv as [->|[Hsz Hch Hpos Htot Halt]].
  { simpl in Hsome. rewrite lookup_empty in Hsome. destruct Hsome; discriminate. }
  right. rewrite Heq in *. simpl.
  apply chained_app in Hch as (Hch1 & Hb & Hch2).
  apply Forall_app in Hpos as (Hpos1 & Hpos2).
  apply Forall_cons in Hpos2 as (Hposb & Hpos2).
  rewrite total_size_app in Htot. simpl in Htot.
  split; simpl; [exact Hsz| | | |apply sweep_alternating].
  - apply sweep_chained. rewrite <- Hcr.
    apply chained_app. simpl. auto.
  - apply sweep_positive. rewrite <- Hcr.
    apply Forall_app. split; [exact Hpos1|].
    apply Forall_cons. auto.
  - rewrite sweep_total, <- Hcr, total_size_app. simpl. exact Htot.
Qed.

Lemma reachable_invariant m st :
  reachable positive_request m st → invariant m st.
Proof.
  induction 1 as [|st p algorithm _ IH Hp|st pid _ IH].
  - left. reflexivity.
  - apply allocate_invariant; assumption.
  - apply deallocate_invariant; assumption.
Qed.

(** **** Tracked processes own a block *)

Lemma allocate_tracked st p algorithm :
  tracked_owns st → tracked_owns (allocate p algorithm st).2.
Proof.
  intros Ht. unfold allocate.
  case_bool_decide; [exact Ht|].
  destruct (select algorithm _ _) as [[i b]|] eqn:Hsel; [|exact Ht].
  apply select_candidate in Hsel as (Hl & Hfree & _). simpl.
  destruct (list_elem_of_split_length _ _ _ Hl) as (pre & post & Heq & ->).
  intros pid' Hsome. simpl in *. rewrite Heq, place_middle.
  destruct (decide (Process.pid p = pid')) as [<-|Hne].
  - exists (allocated_block_for b p). split; [|auto].
    apply elem_of_app. right. left.
  - rewrite lookup_insert_ne in Hsome by exact Hne.
    destruct (Ht pid' Hsome) as (b' & Hin & Ha & Hp'). exists b'.
    split; [|auto]. rewrite Heq in Hin.
    apply elem_of_app in Hin as [Hin|Hin]; [apply elem_of_app; auto|].
    apply elem_of_cons in Hin as [->|Hin]; [congruence|].
    apply elem_of_app. right. right. apply elem_of_app. auto.
Qed.

Lemma deallocate_tracked st pid :
  tracked_owns st → tracked_owns (deallocate pid st).2.
Proof.
  intros Ht.
  destruct (deallocate_cases pid st)
    as [(-> & _)|[(-> & _)|(pre & b & post & c & rest & Heq & Ha & Hpid
                            & Hcr & Hsome & ->)]]; [exact Ht..|].
  intros pid' Hsome'. simpl in *.
  destruct (decide (pid = pid')) as [<-|Hne].
  { rewrite lookup_delete_eq in Hsome'. destruct Hsome'; discriminate. }
  rewrite lookup_delete_ne in Hsome' by exact Hne.
  destruct (Ht pid' Hsome') as (b' & Hin & Ha' & Hp'). exists b'.
  split; [|auto]. apply sweep_keeps_allocated; [|exact Ha'].
  rewrite <- Hcr. rewrite Heq in Hin.
  apply elem_of_app in Hin as [Hin|Hin]; [apply elem_of_app; auto|].
  apply elem_of_cons in Hin as [->|Hin]; [congruence|].
  apply elem_of_app. right. right. exact Hin.
Qed.

Lemma reachable_tracked ok m st : reachable ok m st → tracked_owns st.
Proof.
  induction 1 as [|st p algorithm _ IH Hp|st pid _ IH].
  - intros pid Hsome. simpl in Hsome. rewrite lookup_empty in Hsome.
    destruct Hsome; discriminate.
  - apply allocate_tracked; assumption.
  - apply deallocate_tracked; assumption.
Qed.


(** **** From the recursive invariants to the stated ones *)

Lemma alternating_no_adjacent_free l : alternating l → no_adjacent_free l.
Proof.
  induction l as [|b l IH]; intros Halt i b1 b2 H1 H2; [discriminate|].
  destruct l as [|b' l]; [destruct i; discriminate|].
  destruct Halt as (Hor & Halt).
  destruct i as [|i]; simpl in H1, H2.
  - injection H1 as <-. injection H2 as <-. intros (? & ?).
    destruct Hor; congruence.
  - exact (IH Halt i b1 b2 H1 H2).
Qed.

Lemma chained_contiguous l : chained 0 l → contiguous l.
Proof.
  intros Hc. split.
  - intros b Hb. rewrite (chained_lookup _ _ _ _ Hc Hb). simpl. lia.
  - intros i b1 b2 H1 H2.
    rewrite (chained_lookup _ _ _ _ Hc H1), (chained_lookup _ _ _ _ Hc H2).
    rewrite (take_S_r _ _ _ H1), total_size_app. simpl. lia.
Qed.

Lemma invariant_order m st i j bi bj :
  invariant m st → (i < j)%nat →
  memory_blocks st !! i = Some bi → memory_blocks st !! j = Some bj →
  MemoryBlock.start_addr bi + MemoryBlock.size bi ≤ MemoryBlock.start_addr bj
  ∧ MemoryBlock.start_addr bi < MemoryBlock.start_addr bj.
Proof.
  intros [->|Hg] Hij Hi Hj.
  - simpl in Hj. destruct j as [|j]; [lia|discriminate].
  - destruct Hg. eapply chained_order; eauto.
Qed.

Lemma invariant_order_le m st i j bi bj :
  invariant m st → (i ≤ j)%nat →
  memory_blocks st !! i = Some bi → memory_blocks st !! j = Some bj →
  MemoryBlock.start_addr bi ≤ MemoryBlock.start_addr bj.
Proof.
  intros Hinv Hij Hi Hj. destruct (decide (i = j)) as [->|Hne].
  - rewrite Hi in Hj. injection Hj as <-. lia.
  - destruct (invariant_order m st i j bi bj Hinv) as (_ & Hlt); auto; lia.
Qed.

(** **** The runs of the specification, evaluated *)

Example first_fit_takes_first_hole :
  select "first_fit" 100 (memory_blocks PartitionRun.holes)
  = Some (0%nat, MemoryBlock.new 0 300 false None).
Proof. vm_compute. reflexivity. Qed.

Example best_fit_takes_tightest_hole :
  select "best_fit" 100 (memory_blocks PartitionRun.holes)
  = Some (2%nat, MemoryBlock.new 310 120 false None).
Proof. vm_compute. reflexivity. Qed.

Example worst_fit_takes_widest_hole :
  select "worst_fit" 100 (memory_blocks PartitionRun.holes)
  = Some (4%nat, MemoryBlock.new 440 584 false None).
Proof. vm_compute. reflexivity. Qed.

Example unknown_algorithm_selects_nothing :
  select "next_fit" 100 (memory_blocks PartitionRun.holes) = None.
Proof. reflexivity. Qed.

Example released_neighbours_coalesce :
  memory_blocks PartitionRun.abc_released
  = [MemoryBlock.new 0 20 false None; MemoryBlock.new 20 10 true (Some 3)]
  ∧ memory_blocks (deallocate 3 PartitionRun.abc_released).2
    = [MemoryBlock.new 0 30 false None].
Proof. split; vm_compute; reflexivity. Qed.


(** **** The statements about the partition engine *)

(** C5: in every state reachable by [allocate] calls with positive sizes
    and [deallocate] calls, the block list is ordered by start address,
    contiguous from 0, non-overlapping, sums to the memory size, and has
    no two adjacent free blocks; and one run of [_merge_adjacent_blocks]
    leaves no two adjacent free blocks in any list, so a chain of free
    neighbours collapses in a single pass. *)
Theorem partition_invariant m st :
  reachable positive_request m st →
  ordered_by_start (memory_blocks st)
  ∧ contiguous (memory_blocks st)
  ∧ non_overlapping (memory_blocks st)
  ∧ total_size (memory_blocks st) = m
  ∧ memory_size st = m
  ∧ no_adjacent_free (memory_blocks st)
  ∧ ∀ l, no_adjacent_free (_merge_adjacent_blocks l).
Proof.
  intros Hr. pose proof (reachable_invariant m st Hr) as Hinv.
  split; [|split; [|split; [|split; [|split; [|split]]]]].
  - intros i j bi bj Hij Hi Hj.
    exact (proj2 (invariant_order m st i j bi bj Hinv Hij Hi Hj)).
  - destruct Hinv as [->|Hg]; [|apply chained_contiguous; apply Hg].
    apply chained_contiguous. simpl. auto.
  - intros i j bi bj Hij Hi Hj.
    exact (proj1 (invariant_order m st i j bi bj Hinv Hij Hi Hj)).
  - destruct Hinv as [->|Hg]; [simpl; lia|apply Hg].
  - destruct Hinv as [->|Hg]; [reflexivity|apply Hg].
  - apply alternating_no_adjacent_free.
    destruct Hinv as [->|Hg]; [exact I|apply Hg].
  - intros l. rewrite merge_adjacent_blocks_sweep.
    apply alternating_no_adjacent_free.
    destruct l as [|cur rest]; [exact I|apply sweep_alternating].
Qed.

Lemma partition_invariant_witness :
  ordered_by_start (memory_blocks PartitionRun.abc_released)
  ∧ contiguous (memory_blocks PartitionRun.abc_released)
  ∧ non_overlapping (memory_blocks PartitionRun.abc_released)
  ∧ total_size (memory_blocks PartitionRun.abc_released) = 30
  ∧ memory_size PartitionRun.abc_released = 30
  ∧ no_adjacent_free (memory_blocks PartitionRun.abc_released)
  ∧ ∀ l, no_adjacent_free (_merge_adjacent_blocks l).
Proof.
  apply (partition_invariant 30 PartitionRun.abc_released).
  unfold PartitionRun.abc_released, PartitionRun.abc.
  repeat first
    [ apply reach_deallocate
    | apply reach_allocate; [|unfold positive_request; simpl; lia]
    | apply reach_init ].
Defined.

(** C4: when some free block is large enough, [first_fit] selects the
    first such block in ascending-start order, [best_fit] one minimizing
    [size - requested_size], [worst_fit] one maximizing it, and a tie
    goes to the candidate that comes first in ascending-address order. *)
Theorem allocate_selection_policy m st algorithm req :
  reachable positive_request m st →
  known_algorithm algorithm →
  (∃ j c, candidate req (memory_blocks st) j c) →
  ∃ i b,
    select algorithm req (memory_blocks st) = Some (i, b)
    ∧ candidate req (memory_blocks st) i b
    ∧ ∀ j c, candidate req (memory_blocks st) j c →
        (algorithm = "first_fit" →
           (i ≤ j)%nat
           ∧ MemoryBlock.start_addr b ≤ MemoryBlock.start_addr c)
        ∧ (algorithm = "best_fit" →
             MemoryBlock.size b - req ≤ MemoryBlock.size c - req
             ∧ (MemoryBlock.size c - req = MemoryBlock.size b - req →
                (i ≤ j)%nat
                ∧ MemoryBlock.start_addr b ≤ MemoryBlock.start_addr c))
        ∧ (algorithm = "worst_fit" →
             MemoryBlock.size c - req ≤ MemoryBlock.size b - req
             ∧ (MemoryBlock.size c - req = MemoryBlock.size b - req →
                (i ≤ j)%nat
                ∧ MemoryBlock.start_addr b ≤ MemoryBlock.start_addr c)).
Proof.
  intros Hr Halg (j0 & c0 & Hc0).
  pose proof (reachable_invariant m st Hr) as Hinv.
  assert (Hord : ∀ i j b c, (i ≤ j)%nat →
            candidate req (memory_blocks st) i b →
            candidate req (memory_blocks st) j c →
            MemoryBlock.start_addr b ≤ MemoryBlock.start_addr c).
  { intros i j b c Hij (Hi & _) (Hj & _).
    exact (invariant_order_le m st i j b c Hinv Hij Hi Hj). }
  destruct Halg as [-> | [-> | ->]].
  - pose proof (select_first_fit req (memory_blocks st)) as H.
    destruct (select "first_fit" req (memory_blocks st)) as [[i b]|];
      [|destruct (H j0 c0 Hc0)].
    destruct H as (Hc & Hfirst). exists i, b. split; [reflexivity|].
    split; [exact Hc|]. intros j c Hj.
    split; [|split; discriminate].
    intros _. split; [eauto|]. apply (Hord i j b c); eauto.
  - pose proof (select_best_fit req (memory_blocks st)) as H.
    destruct (select "best_fit" req (memory_blocks st)) as [[i b]|];
      [|destruct (H j0 c0 Hc0)].
    destruct H as (Hc & Hmin). exists i, b. split; [reflexivity|].
    split; [exact Hc|]. intros j c Hj.
    destruct (Hmin j c Hj) as (Hle & Htie).
    split; [discriminate|]. split; [|discriminate].
    intros _. split; [lia|]. intros Heq.
    assert (Hij : (i ≤ j)%nat) by (apply Htie; lia).
    split; [exact Hij|]. apply (Hord i j b c); eauto.
  - pose proof (select_worst_fit req (memory_blocks st)) as H.
    destruct (select "worst_fit" req (memory_blocks st)) as [[i b]|];
      [|destruct (H j0 c0 Hc0)].
    destruct H as (Hc & Hmax). exists i, b. split; [reflexivity|].
    split; [exact Hc|]. intros j c Hj.
    destruct (Hmax j c Hj) as (Hle & Htie).
    split; [discriminate|]. split; [discriminate|].
    intros _. split; [lia|]. intros Heq.
    assert (Hij : (i ≤ j)%nat) by (apply Htie; lia).
    split; [exact Hij|]. apply (Hord i j b c); eauto.
Qed.


Lemma allocate_selection_policy_witness :
  ∃ i b,
    select "best_fit" 100 (memory_blocks PartitionRun.holes) = Some (i, b)
    ∧ candidate 100 (memory_blocks PartitionRun.holes) i b
    ∧ ∀ j c, candidate 100 (memory_blocks PartitionRun.holes) j c →
        ("best_fit" = "first_fit" →
           (i ≤ j)%nat
           ∧ MemoryBlock.start_addr b ≤ MemoryBlock.start_addr c)
        ∧ ("best_fit" = "best_fit" →
             MemoryBlock.size b - 100 ≤ MemoryBlock.size c - 100
             ∧ (MemoryBlock.size c - 100 = MemoryBlock.size b - 100 →
                (i ≤ j)%nat
                ∧ MemoryBlock.start_addr b ≤ MemoryBlock.start_addr c))
        ∧ ("best_fit" = "worst_fit" →
             MemoryBlock.size c - 100 ≤ MemoryBlock.size b - 100
             ∧ (MemoryBlock.size c - 100 = MemoryBlock.size b - 100 →
                (i ≤ j)%nat
                ∧ MemoryBlock.start_addr b ≤ MemoryBlock.start_addr c)).
Proof.
  apply (allocate_selection_policy 1024 PartitionRun.holes "best_fit" 100).
  - unfold PartitionRun.holes.
    repeat first
      [ apply reach_deallocate
      | apply reach_allocate; [|unfold positive_request; simpl; lia]
      | apply reach_init ].
  - right. left. reflexivity.
  - exists 4%nat, (MemoryBlock.new 440 584 false None).
    unfold candidate. split; [vm_compute; reflexivity|].
    split; [reflexivity|simpl; lia].
Defined.

(** C6: a successful [allocate] replaces the chosen free block, in place,
    by an allocated block of exactly the requested size that starts where
    the chosen block started and is owned by the process, followed, only
    when the chosen block was larger, by a free block holding the
    remainder; the blocks before and after are unchanged and the process
    is recorded in the process map. *)
Theorem allocate_success_shape p algorithm st msg st' :
  allocate p algorithm st = ((true, msg), st') →
  ∃ i b,
    select algorithm (Process.memory_size p) (memory_blocks st) = Some (i, b)
    ∧ candidate (Process.memory_size p) (memory_blocks st) i b
    ∧ memory_blocks st'
      = take i (memory_blocks st)
        ++ MemoryBlock.new (MemoryBlock.start_addr b) (Process.memory_size p)
             true (Some (Process.pid p))
        :: (if bool_decide (MemoryBlock.size b > Process.memory_size p)
            then [MemoryBlock.new
                    (MemoryBlock.start_addr b + Process.memory_size p)
                    (MemoryBlock.size b - Process.memory_size p) false None]
            else [])
        ++ drop (S i) (memory_blocks st)
    ∧ processes st' !! Process.pid p
      = Some (Process.new (Process.pid p) (Process.memory_size p)
                (Some (MemoryBlock.new (MemoryBlock.start_addr b)
                         (Process.memory_size p) true (Some (Process.pid p)))))
    ∧ (∀ pid, pid ≠ Process.pid p → processes st' !! pid = processes st !! pid)
    ∧ memory_size st' = memory_size st
    ∧ msg = Allocated (Process.pid p).
Proof.
  unfold allocate. case_bool_decide; [discriminate|].
  destruct (select algorithm _ _) as [[i b]|] eqn:Hsel; [|discriminate].
  intros [= <- <-]. exists i, b. split; [reflexivity|].
  pose proof (select_candidate _ _ _ _ _ Hsel) as Hc.
  split; [exact Hc|]. simpl.
  split; [apply place_lookup, Hc|].
  split; [apply lookup_insert_eq|].
  split; [|auto].
  intros pid Hne. apply lookup_insert_ne. congruence.
Qed.

Lemma allocate_success_shape_witness :
  ∃ i b,
    select "first_fit" 10 (memory_blocks (init 30)) = Some (i, b)
    ∧ candidate 10 (memory_blocks (init 30)) i b
    ∧ memory_blocks (allocate (PartitionRun.proc 1 10) "first_fit" (init 30)).2
      = take i (memory_blocks (init 30))
        ++ MemoryBlock.new (MemoryBlock.start_addr b) 10 true (Some 1)
        :: (if bool_decide (MemoryBlock.size b > 10)
            then [MemoryBlock.new (MemoryBlock.start_addr b + 10)
                    (MemoryBlock.size b - 10) false None]
            else [])
        ++ drop (S i) (memory_blocks (init 30))
    ∧ processes (allocate (PartitionRun.proc 1 10) "first_fit" (init 30)).2 !! 1
      = Some (Process.new 1 10
                (Some (MemoryBlock.new (MemoryBlock.start_addr b) 10 true
                         (Some 1))))
    ∧ (∀ pid, pid ≠ 1 →
         processes (allocate (PartitionRun.proc 1 10) "first_fit" (init 30)).2
           !! pid = processes (init 30) !! pid)
    ∧ memory_size (allocate (PartitionRun.proc 1 10) "first_fit" (init 30)).2
      = memory_size (init 30)
    ∧ Allocated 1 = Allocated 1.
Proof.
  apply (allocate_success_shape (PartitionRun.proc 1 10) "first_fit" (init 30)
           (Allocated 1)
           (allocate (PartitionRun.proc 1 10) "first_fit" (init 30)).2).
  reflexivity.
Defined.

(** C8: in every reachable state a process present in the process map
    owns an allocated block of the block list, so [deallocate] of a
    tracked id never takes the "no allocated block" branch: it
    succeeds. *)
Theorem tracked_process_owns_block m st pid :
  reachable any_request m st →
  is_Some (processes st !! pid) →
  (∃ b, b ∈ memory_blocks st ∧ MemoryBlock.allocated b = true
        ∧ MemoryBlock.process_id b = Some pid)
  ∧ (deallocate pid st).1 = (true, Released pid)
  ∧ processes (deallocate pid st).2 !! pid = None.
Proof.
  intros Hr Hsome.
  pose proof (reachable_tracked _ _ _ Hr pid Hsome) as Hown.
  split; [exact Hown|].
  destruct (deallocate_cases pid st)
    as [(_ & Hnone)|[(_ & Hno)|(pre & b & post & c & rest & _ & _ & _
                                & _ & _ & ->)]].
  - rewrite Hnone in Hsome. destruct Hsome; discriminate.
  - destruct Hown as (b & Hin & Ha & Hp). destruct (Hno b Hin). auto.
  - simpl. split; [reflexivity|apply lookup_delete_eq].
Qed.

Lemma tracked_process_owns_block_witness :
  (∃ b, b ∈ memory_blocks PartitionRun.abc ∧ MemoryBlock.allocated b = true
        ∧ MemoryBlock.process_id b = Some 2)
  ∧ (deallocate 2 PartitionRun.abc).1 = (true, Released 2)
  ∧ processes (deallocate 2 PartitionRun.abc).2 !! 2 = None.
Proof.
  apply (tracked_process_owns_block 30 PartitionRun.abc 2).
  - unfold PartitionRun.abc.
    repeat first
      [ apply reach_allocate; [|exact I] | apply reach_init ].
  - vm_compute. eexists. reflexivity.
Defined.

End Partition.

(** *** The paging engine *)
Section Paging.
Import DynamicPaging PagingSpec.

Local Ltac msimpl :=
  unfold assign_page, page_at, frame_at;
  unfold mbind, M_bind, mret, M_ret, get, modify, raise; cbn beta iota.

(** **** The methods as equations on the state *)

Lemma free_among_spec afs : ∀ s,
  free_among afs s =
  if bool_decide (Forall (λ f, (f < length (frames s))%nat) afs)
  then (Return (filter (λ f, frames s !! f = Some None) afs), s)
  else (Raise IndexError, s).
Proof.
  induction afs as [|f afs IH]; intros s.
  - reflexivity.
  - simpl. msimpl.
    destruct (frames s !! f) as [slot|] eqn:E.
    + msimpl. rewrite IH.
      assert (Hf : (f < length (frames s))%nat) by (eapply lookup_lt_Some, E).
      case_bool_decide as H1.
      * rewrite bool_decide_eq_true_2 by (constructor; auto).
        rewrite filter_cons.
        destruct slot; case_decide; try congruence; reflexivity.
      * rewrite bool_decide_eq_false_2; [reflexivity|].
        intros H2. apply Forall_cons in H2. tauto.
    + msimpl. rewrite bool_decide_eq_false_2; [reflexivity|].
      intros H2. apply Forall_cons in H2 as (H2 & _).
      apply lookup_ge_None in E. lia.
Qed.

Lemma handle_page_fault_cases page_no s :
  Forall (λ f, (f < length (frames s))%nat) (allocated_frames s) →
  _handle_page_fault page_no s =
  match free_frames s with
  | f :: _ =>
      (Return (Some f, NoInfo),
       set_frame_queue (frame_queue s ++ [f])
         (set_frames (<[f := Some page_no]> (frames s)) s))
  | [] =>
      match frame_queue s with
      | [] => (Return (None, QueueEmpty), s)
      | rf :: queue =>
          match frames s !! rf with
          | None => (Raise IndexError, set_frame_queue queue s)
          | Some None =>
              (Return (Some rf, NothingEvicted),
               set_frame_queue (queue ++ [rf])
                 (set_frames (<[rf := Some page_no]> (frames s)) s))
          | Some (Some rp) =>
              match page_table s !! rp with
              | None => (Raise (KeyError rp), set_frame_queue queue s)
              | Some _ =>
                  (Return (Some rf, Evicted rp),
                   set_frame_queue (queue ++ [rf])
                     (set_frames (<[rf := Some page_no]> (frames s))
                        (set_page_table
                           (alter Page.evict rp (page_table s)) s)))
              end
          end
      end
  end.
Proof.
  intros Hrange. unfold _handle_page_fault, free_frames. msimpl.
  rewrite free_among_spec, bool_decide_eq_true_2 by exact Hrange.
  destruct (filter _ (allocated_frames s)) as [|f rest]; [|reflexivity].
  destruct (frame_queue s) as [|rf queue]; [reflexivity|].
  simpl. destruct (frames s !! rf) as [[rp|]|]; try reflexivity.
  msimpl. simpl. destruct (page_table s !! rp); reflexivity.
Qed.

Lemma access_memory_cases page_no offset operation s :
  access_memory page_no offset operation s =
  match page_table s !! page_no with
  | None => (Return (None, false, PageOutOfRange page_no), s)
  | Some page =>
      if Page.exists_ page then
        match Page.frame_no page with
        | Some f =>
            (Return (Some (Z.of_nat f * page_size s + offset), false, NoInfo),
             set_page_table
               (alter (mark operation) page_no (page_table s)) s)
        | None =>
            (Raise TypeError,
             set_page_table
               (alter (mark operation) page_no (page_table s)) s)
        end
      else
        match _handle_page_fault page_no s with
        | (Raise e, s1) => (Raise e, s1)
        | (Return (None, _), s1) => (Return (None, true, CannotLoad), s1)
        | (Return (Some f, i), s1) =>
            (Return (Some (Z.of_nat f * page_size s1 + offset), true, i),
             set_page_table
               (alter (mark operation) page_no
                  (alter (Page.load f) page_no (page_table s1))) s1)
        end
  end.
Proof.
  unfold access_memory. msimpl.
  destruct (page_table s !! page_no) as [page|]; [|reflexivity].
  destruct (Page.exists_ page); simpl.
  - unfold mark. destruct (is_store operation); msimpl.
    + destruct (Page.frame_no page); reflexivity.
    + destruct (Page.frame_no page); msimpl; unfold set_page_table;
        rewrite alter_id by reflexivity; destruct s; reflexivity.
  - destruct (_handle_page_fault page_no s) as [[[[f|] i]|e] s1]; try reflexivity.
    unfold mark. destruct (is_store operation); msimpl; [reflexivity|].
    rewrite (alter_id (λ p, p)) by reflexivity. reflexivity.
Qed.

Lemma create_job_cases job_id job_size n disk s :
  create_job job_id job_size n disk s =
  if bool_decide (job_size > max_job_size s) then
    (Return (false, JobTooLarge (max_job_size s)), s)
  else if bool_decide (n > total_frames s) then
    (Return (false, TooManyFrames (total_frames s)), s)
  else if bool_decide (page_size s = 0) then (Raise ZeroDivisionError, s)
  else
    let pages_count := (job_size + page_size s - 1) `div` page_size s in
    if bool_decide (Z.of_nat (length (empty_frames (frames s))) < n) then
      (Return (false, OutOfFrames),
       set_allocated_frames []
         (set_page_table (fresh_page_table disk pages_count) s))
    else
      (Return (true, JobCreated job_id n),
       mk (memory_size s) (page_size s) (max_job_size s) (total_frames s)
          (frames s) (Some (Job.new job_id job_size pages_count n))
          (fresh_page_table disk pages_count)
          (take (Z.to_nat n) (empty_frames (frames s))) []).
Proof.
  unfold create_job. msimpl.
  destruct (bool_decide (job_size > max_job_size s)); [reflexivity|].
  destruct (bool_decide (n > total_frames s)); [reflexivity|].
  destruct (bool_decide (page_size s = 0)); [reflexivity|].
  msimpl. simpl.
  destruct (bool_decide (Z.of_nat (length (empty_frames (frames s))) < n));
    reflexivity.
Qed.

(** **** The freshly built page table and the empty frames *)

Lemma fresh_page_table_non_resident disk pages_count p pg :
  fresh_page_table disk pages_count !! p = Some pg → Page.exists_ pg = false.
Proof.
  unfold fresh_page_table.
  generalize (seq 0 (Z.to_nat pages_count)). intros l.
  assert (H : ∀ pt : gmap Z Page.t,
             (∀ q pq, pt !! q = Some pq → Page.exists_ pq = false) →
             foldl (λ pt i, <[Z.of_nat i :=
                                Page.new (Z.of_nat i) false None false (disk i)]> pt)
                   pt l !! p = Some pg →
             Page.exists_ pg = false).
  { induction l as [|i l IH]; intros pt Hpt; simpl; [apply Hpt|].
    apply IH. intros q pq Hq.
    destruct (decide (Z.of_nat i = q)) as [Heq|Hne].
    - subst q. rewrite lookup_insert_eq in Hq. injection Hq as <-. reflexivity.
    - rewrite lookup_insert_ne in Hq by exact Hne. eapply Hpt, Hq. }
  apply H. intros q pq Hq. rewrite lookup_empty in Hq. discriminate.
Qed.

Lemma empty_frames_gen (fs : list (option Z)) : ∀ k,
  let l := (filter (λ ifr : nat * option Z, ifr.2 = None)
              (imap (λ i x, ((k + i)%nat, x)) fs)).*1 in
  StronglySorted lt l
  ∧ Forall (λ f, (k ≤ f)%nat ∧ fs !! (f - k)%nat = Some None) l.
Proof.
  induction fs as [|x fs IH]; intros k; simpl.
  - split; constructor.
  - destruct (IH (S k)) as (Hs & Hf).
    assert (Heq : imap ((λ i x0, ((k + i)%nat, x0)) ∘ S) fs
                  = imap (λ i x0, ((S k + i)%nat, x0)) fs).
    { apply imap_ext. intros i y _. simpl. f_equal. lia. }
    rewrite Heq, filter_cons.
    assert (Hf' : Forall (λ f, (k ≤ f)%nat
                               ∧ (x :: fs) !! (f - k)%nat = Some None)
              (filter (λ ifr : nat * option Z, ifr.2 = None)
                 (imap (λ i x0, ((S k + i)%nat, x0)) fs)).*1).
    { eapply Forall_impl; [exact Hf|]. simpl. intros f (Hk & Hl).
      split; [lia|]. replace (f - k)%nat with (S (f - S k)) by lia. exact Hl. }
    destruct (decide (((k + 0)%nat, x).2 = None)) as [Hx|Hx]; [|auto].
    simpl in Hx. subst x. simpl. split.
    + constructor; [exact Hs|].
      eapply Forall_impl; [exact Hf|]. simpl. intros; lia.
    + constructor; [|exact Hf'].
      split; [lia|]. replace (k + 0 - k)%nat with 0%nat by lia. reflexivity.
Qed.

Lemma empty_frames_sorted fs : StronglySorted lt (empty_frames fs).
Proof. exact (proj1 (empty_frames_gen fs 0)). Qed.

Lemma empty_frames_empty fs :
  Forall (λ f, fs !! f = Some None) (empty_frames fs).
Proof.
  pose proof (proj2 (empty_frames_gen fs 0)) as H.
  eapply Forall_impl; [exact H|]. simpl. intros f (_ & Hl).
  replace (f - 0)%nat with f in Hl by lia. exact Hl.
Qed.

Lemma empty_frames_replicate n :
  empty_frames (replicate n None) = seq 0 n.
Proof.
  unfold empty_frames.
  assert (H : ∀ k, (filter (λ ifr : nat * option Z, ifr.2 = None)
                      (imap (λ i x, ((k + i)%nat, x)) (replicate n None))).*1
                   = seq k n).
  { induction n as [|n IH]; intros k; [reflexivity|].
    change (replicate (S n) None) with (@None Z :: replicate n None).
    rewrite imap_cons, filter_cons_True by reflexivity.
    rewrite fmap_cons. cbn [seq fst].
    replace (k + 0)%nat with k by lia. f_equal.
    rewrite <- IH. do 2 f_equal. apply imap_ext.
    intros i y _. simpl. f_equal. lia. }
  exact (H 0%nat).
Qed.


(** A page fault, case by case, on a state whose allocated frames are
    positions of the frame table. *)
Lemma access_fault_cases page_no offset operation s page :
  page_table s !! page_no = Some page → Page.exists_ page = false →
  Forall (λ f, (f < length (frames s))%nat) (allocated_frames s) →
  access_memory page_no offset operation s =
  match free_frames s with
  | f :: _ =>
      (Return (Some (Z.of_nat f * page_size s + offset), true, NoInfo),
       after_fill page_no operation f s)
  | [] =>
      match frame_queue s with
      | [] => (Return (None, true, CannotLoad), s)
      | rf :: queue =>
          match frames s !! rf with
          | None => (Raise IndexError, set_frame_queue queue s)
          | Some None =>
              (Return (Some (Z.of_nat rf * page_size s + offset), true,
                       NothingEvicted),
               after_replace page_no operation rf None queue s)
          | Some (Some rp) =>
              match page_table s !! rp with
              | None => (Raise (KeyError rp), set_frame_queue queue s)
              | Some _ =>
                  (Return (Some (Z.of_nat rf * page_size s + offset), true,
                           Evicted rp),
                   after_replace page_no operation rf (Some rp) queue s)
              end
          end
      end
  end.
Proof.
  intros Hpage Hex Hrange.
  rewrite access_memory_cases, Hpage, Hex, handle_page_fault_cases by exact Hrange.
  destruct (free_frames s) as [|f rest]; [|reflexivity].
  destruct (frame_queue s) as [|rf queue]; [reflexivity|].
  destruct (frames s !! rf) as [[rp|]|]; try reflexivity.
  destruct (page_table s !! rp); reflexivity.
Qed.

(** **** Well-formedness is kept by every call *)

Lemma mark_exists operation p : Page.exists_ (mark operation p) = Page.exists_ p.
Proof. unfold mark. destruct (is_store operation); reflexivity. Qed.

Lemma mark_frame_no operation p :
  Page.frame_no (mark operation p) = Page.frame_no p.
Proof. unfold mark. destruct (is_store operation); reflexivity. Qed.

Lemma wf_mark operation page_no s :
  wf s → wf (set_page_table (alter (mark operation) page_no (page_table s)) s).
Proof.
  intros [Hps Hrange Hsort Hocc Hnd Hres]. split; simpl; auto.
  intros p pg Hp Hex. simpl in *.
  destruct (decide (page_no = p)) as [->|Hne].
  - rewrite lookup_alter_eq in Hp.
    destruct (page_table s !! p) as [pg0|] eqn:E; [|discriminate].
    injection Hp as <-. rewrite mark_exists in Hex. rewrite mark_frame_no.
    exact (Hres p pg0 E Hex).
  - rewrite lookup_alter_ne in Hp by exact Hne. exact (Hres p pg Hp Hex).
Qed.

Lemma wf_pop s rf queue :
  wf s → frame_queue s = rf :: queue → wf (set_frame_queue queue s).
Proof.
  intros [Hps Hrange Hsort Hocc Hnd Hres] Hq. rewrite Hq in *.
  split; simpl; auto.
  - intros f Hf. apply Hocc. right. exact Hf.
  - apply NoDup_cons in Hnd. tauto.
Qed.

Lemma wf_fill page_no operation f s page :
  wf s → page_table s !! page_no = Some page →
  f ∈ free_frames s → wf (after_fill page_no operation f s).
Proof.
  intros [Hps Hrange Hsort Hocc Hnd Hres] Hpage Hf.
  apply list_elem_of_filter in Hf as (Hnone & Hin).
  assert (Hlt : (f < length (frames s))%nat) by (eapply lookup_lt_Some, Hnone).
  split; simpl; auto.
  - rewrite length_insert. exact Hrange.
  - intros f' Hf'. apply elem_of_app in Hf' as [Hf'|Hf'].
    + destruct (Hocc f' Hf') as (p & Hp). exists p.
      rewrite list_lookup_insert_ne; [exact Hp|congruence].
    + apply list_elem_of_singleton in Hf' as ->. exists page_no.
      apply list_lookup_insert_eq. exact Hlt.
  - apply NoDup_app. split; [exact Hnd|]. split; [|apply NoDup_singleton].
    intros f' Hf' Hs. apply list_elem_of_singleton in Hs as ->.
    destruct (Hocc f Hf') as (p & Hp). congruence.
  - intros p pg Hp Hex. simpl in *.
    destruct (decide (page_no = p)) as [->|Hne].
    + rewrite !lookup_alter_eq, Hpage in Hp. injection Hp as <-.
      rewrite mark_frame_no. exists f. split; [reflexivity|].
      apply list_lookup_insert_eq. exact Hlt.
    + rewrite !lookup_alter_ne in Hp by exact Hne.
      destruct (Hres p pg Hp Hex) as (f' & Hfn & Hfr). exists f'.
      split; [exact Hfn|]. rewrite list_lookup_insert_ne; [exact Hfr|congruence].
Qed.

Lemma wf_replace page_no operation rf rp queue s page :
  wf s → page_table s !! page_no = Some page →
  frame_queue s = rf :: queue → frames s !! rf = Some (Some rp) →
  wf (after_replace page_no operation rf (Some rp) queue s).
Proof.
  intros [Hps Hrange Hsort Hocc Hnd Hres] Hpage Hq Hrf. rewrite Hq in *.
  assert (Hlt : (rf < length (frames s))%nat) by (eapply lookup_lt_Some, Hrf).
  apply NoDup_cons in Hnd as (Hnotin & Hnd).
  split; simpl; auto.
  - rewrite length_insert. exact Hrange.
  - intros f' Hf'. apply elem_of_app in Hf' as [Hf'|Hf'].
    + destruct (Hocc f') as (p & Hp); [right; exact Hf'|]. exists p.
      rewrite list_lookup_insert_ne; [exact Hp|congruence].
    + apply list_elem_of_singleton in Hf' as ->. exists page_no.
      apply list_lookup_insert_eq. exact Hlt.
  - apply NoDup_app. split; [exact Hnd|]. split; [|apply NoDup_singleton].
    intros f' Hf' Hs. apply list_elem_of_singleton in Hs as ->. contradiction.
  - intros p pg Hp Hex. simpl in *.
    destruct (decide (page_no = p)) as [->|Hne].
    + rewrite !lookup_alter_eq in Hp.
      destruct (alter Page.evict rp (page_table s) !! p) as [pg0|];
        [|discriminate].
      injection Hp as <-. rewrite mark_frame_no. exists rf.
      split; [reflexivity|]. apply list_lookup_insert_eq. exact Hlt.
    + rewrite !lookup_alter_ne in Hp by exact Hne.
      destruct (decide (rp = p)) as [->|Hne'].
      * rewrite lookup_alter_eq in Hp.
        destruct (page_table s !! p) as [pg0|]; [|discriminate].
        injection Hp as <-. discriminate.
      * rewrite lookup_alter_ne in Hp by exact Hne'.
        destruct (Hres p pg Hp Hex) as (f' & Hfn & Hfr). exists f'.
        split; [exact Hfn|].
        rewrite list_lookup_insert_ne; [exact Hfr|congruence].
Qed.

Lemma access_memory_wf page_no offset operation s :
  wf s → wf (access_memory page_no offset operation s).2.
Proof.
  intros Hwf.
  destruct (page_table s !! page_no) as [page|] eqn:Hpage;
    [|rewrite access_memory_cases, Hpage; exact Hwf].
  destruct (Page.exists_ page) eqn:Hex.
  - rewrite access_memory_cases, Hpage, Hex.
    destruct (Page.frame_no page); apply wf_mark, Hwf.
  - rewrite (access_fault_cases _ _ _ _ page Hpage Hex (wf_alloc_range _ Hwf)).
    destruct (free_frames s) as [|f rest] eqn:Hfree.
    + destruct (frame_queue s) as [|rf queue] eqn:Hq; [exact Hwf|].
      destruct (wf_queue_occupied _ Hwf rf) as (rp & Hrp);
        [rewrite Hq; left|].
      rewrite Hrp. destruct (page_table s !! rp).
      * eapply wf_replace; eauto.
      * eapply wf_pop; eauto.
    + eapply wf_fill; eauto. rewrite Hfree. left.
Qed.

Lemma StronglySorted_take_lt n (l : list nat) :
  StronglySorted lt l → StronglySorted lt (take n l).
Proof.
  intros H. rewrite <- (take_drop n l) in H.
  eapply StronglySorted_app_1_l, H.
Qed.

Lemma create_job_wf job_id job_size n disk s :
  wf s → wf (create_job job_id job_size n disk s).2.
Proof.
  intros Hwf. rewrite create_job_cases.
  repeat (case_bool_decide; [exact Hwf|]). simpl.
  destruct Hwf as [Hps Hrange Hsort Hocc Hnd Hres].
  case_bool_decide; split; simpl; auto.
  - constructor.
  - intros p pg Hp Hex.
    rewrite (fresh_page_table_non_resident _ _ _ _ Hp) in Hex. discriminate.
  - apply Forall_take. eapply Forall_impl; [apply empty_frames_empty|].
    simpl. intros f Hf. eapply lookup_lt_Some, Hf.
  - apply StronglySorted_take_lt, empty_frames_sorted.
  - intros f Hf. inversion Hf.
  - constructor.
  - intros p pg Hp Hex.
    rewrite (fresh_page_table_non_resident _ _ _ _ Hp) in Hex. discriminate.
Qed.

Lemma init_wf memory_size page_size max_job_size s0 :
  init memory_size page_size max_job_size = Return s0 → wf s0.
Proof.
  unfold init. case_bool_decide; [discriminate|]. intros [= <-].
  split; simpl;
    [ assumption | constructor | constructor | intros f Hf; inversion Hf
    | constructor
    | intros p pg Hp; simpl in Hp; rewrite lookup_empty in Hp; discriminate ].
Qed.

Lemma reachable_wf s : reachable s → wf s.
Proof.
  induction 1 as [ms ps mj s0 H0| |].
  - eapply init_wf, H0.
  - apply create_job_wf. assumption.
  - apply access_memory_wf. assumption.
Qed.


(** **** Frames of the current job hold resident pages *)

Lemma settled_init memory_size page_size max_job_size s0 :
  init memory_size page_size max_job_size = Return s0 → settled s0.
Proof.
  intros H0. pose proof (init_wf _ _ _ _ H0) as Hwf. revert H0.
  unfold init. case_bool_decide; [discriminate|]. intros [= <-].
  split; [exact Hwf| |]; simpl; intros f Hf; inversion Hf.
Qed.

Lemma settled_job job_id job_size n disk s s' :
  wf s →
  create_job job_id job_size n disk s
  = (Return (true, JobCreated job_id n), s') →
  settled s'.
Proof.
  intros Hwf Hc. pose proof (create_job_wf job_id job_size n disk s Hwf) as Hwf'.
  rewrite Hc in Hwf'. simpl in Hwf'. revert Hc. rewrite create_job_cases.
  repeat (case_bool_decide; [discriminate|]). simpl. intros [= <-].
  split; [exact Hwf'| |]; simpl.
  - intros f Hf. inversion Hf.
  - intros f Hf p Hp. simpl in Hp.
    apply elem_of_take in Hf as (i & Hf & _).
    pose proof (empty_frames_empty (frames s)) as He.
    rewrite Forall_forall in He.
    rewrite (He f) in Hp by (eapply list_elem_of_lookup_2, Hf). discriminate.
Qed.

Lemma settled_create_job job_id job_size n disk s :
  settled s →
  (create_job job_id job_size n disk s).1 ≠ Return (false, OutOfFrames) →
  settled (create_job job_id job_size n disk s).2.
Proof.
  intros Hs Hne.
  destruct (create_job job_id job_size n disk s) as [r s'] eqn:Hc.
  pose proof Hc as Hc'. rewrite create_job_cases in Hc'. simpl in *.
  repeat (case_bool_decide; [injection Hc' as <- <-; exact Hs|]).
  simpl in Hc'. case_bool_decide.
  - injection Hc' as <- <-. contradiction.
  - injection Hc' as Hr _. subst r.
    eapply settled_job; [apply Hs|exact Hc].
Qed.

Lemma settled_mark operation page_no s :
  settled s →
  settled (set_page_table (alter (mark operation) page_no (page_table s)) s).
Proof.
  intros [Hwf Hq Ha].
  assert (Hkeep : ∀ p pg f,
            page_table s !! p = Some pg → Page.exists_ pg = true →
            Page.frame_no pg = Some f →
            ∃ pg', alter (mark operation) page_no (page_table s) !! p = Some pg'
                   ∧ Page.exists_ pg' = true ∧ Page.frame_no pg' = Some f).
  { intros p pg f Hp Hex Hf. destruct (decide (page_no = p)) as [->|Hne].
    - exists (mark operation pg). rewrite lookup_alter_eq, Hp.
      rewrite mark_exists, mark_frame_no. auto.
    - exists pg. rewrite lookup_alter_ne by exact Hne. auto. }
  split; [apply wf_mark, Hwf| |]; simpl.
  - intros f Hf. destruct (Hq f Hf) as (p & pg & Hfr & Hp & Hex & Hfn).
    destruct (Hkeep p pg f Hp Hex Hfn) as (pg' & ? & ? & ?). eauto 10.
  - intros f Hf p Hfr. simpl in *.
    destruct (Ha f Hf p Hfr) as (pg & Hp & Hex & Hfn).
    exact (Hkeep p pg f Hp Hex Hfn).
Qed.

Lemma settled_pop s rf queue :
  settled s → frame_queue s = rf :: queue → settled (set_frame_queue queue s).
Proof.
  intros [Hwf Hq Ha] Heq. split; [eapply wf_pop; eauto| |]; simpl.
  - intros f Hf. apply Hq. rewrite Heq. right. exact Hf.
  - exact Ha.
Qed.

Lemma settled_fill page_no operation f s page :
  settled s → page_table s !! page_no = Some page →
  Page.exists_ page = false → f ∈ free_frames s →
  settled (after_fill page_no operation f s).
Proof.
  intros [Hwf Hq Ha] Hpage Hex Hf.
  pose proof (wf_fill page_no operation f s page Hwf Hpage Hf) as Hwf'.
  apply list_elem_of_filter in Hf as (Hnone & Hin).
  assert (Hlt : (f < length (frames s))%nat) by (eapply lookup_lt_Some, Hnone).
  assert (Hnew : ∃ pg, alter (mark operation) page_no
                         (alter (Page.load f) page_no (page_table s)) !! page_no
                       = Some pg
                       ∧ Page.exists_ pg = true ∧ Page.frame_no pg = Some f).
  { exists (mark operation (Page.load f page)).
    rewrite !lookup_alter_eq, Hpage, mark_exists, mark_frame_no. auto. }
  assert (Hold : ∀ p pg f', page_table s !! p = Some pg →
            Page.exists_ pg = true → Page.frame_no pg = Some f' →
            ∃ pg', alter (mark operation) page_no
                     (alter (Page.load f) page_no (page_table s)) !! p
                   = Some pg'
                   ∧ Page.exists_ pg' = true ∧ Page.frame_no pg' = Some f').
  { intros p pg f' Hp Hexp Hfn. exists pg.
    rewrite !lookup_alter_ne by congruence. auto. }
  split; [exact Hwf'| |]; simpl.
  - intros f' Hf'. apply elem_of_app in Hf' as [Hf'|Hf'].
    + destruct (Hq f' Hf') as (p & pg & Hfr & Hp & Hexp & Hfn).
      destruct (Hold p pg f' Hp Hexp Hfn) as (pg' & ? & ? & ?).
      exists p, pg'. rewrite list_lookup_insert_ne by congruence. auto.
    + apply list_elem_of_singleton in Hf' as ->.
      destruct Hnew as (pg & ? & ? & ?). exists page_no, pg.
      rewrite list_lookup_insert_eq by exact Hlt. auto.
  - intros f' Hf' p Hfr. simpl in *.
    destruct (decide (f = f')) as [<-|Hne].
    + rewrite list_lookup_insert_eq in Hfr by exact Hlt.
      injection Hfr as <-. exact Hnew.
    + rewrite list_lookup_insert_ne in Hfr by exact Hne.
      destruct (Ha f' Hf' p Hfr) as (pg & Hp & Hexp & Hfn).
      exact (Hold p pg f' Hp Hexp Hfn).
Qed.

Lemma settled_replace page_no operation rf rp queue s page :
  settled s → page_table s !! page_no = Some page →
  Page.exists_ page = false →
  frame_queue s = rf :: queue → frames s !! rf = Some (Some rp) →
  settled (after_replace page_no operation rf (Some rp) queue s).
Proof.
  intros [Hwf Hq Ha] Hpage Hex Heq Hrf.
  pose proof (wf_replace page_no operation rf rp queue s page Hwf Hpage Heq Hrf)
    as Hwf'.
  assert (Hlt : (rf < length (frames s))%nat) by (eapply lookup_lt_Some, Hrf).
  destruct (Hq rf) as (rp' & pgr & Hrf' & Hpr & Hexr & Hfnr);
    [rewrite Heq; left|].
  assert (rp' = rp) by congruence. subst rp'.
  assert (Hne : rp ≠ page_no) by congruence.
  assert (Hnew : ∃ pg, alter (mark operation) page_no
                         (alter (Page.load rf) page_no
                            (alter Page.evict rp (page_table s))) !! page_no
                       = Some pg
                       ∧ Page.exists_ pg = true ∧ Page.frame_no pg = Some rf).
  { exists (mark operation (Page.load rf page)).
    rewrite !lookup_alter_eq, lookup_alter_ne, Hpage by exact Hne.
    simpl. rewrite mark_exists, mark_frame_no. auto. }
  assert (Hold : ∀ p pg f', f' ≠ rf → page_table s !! p = Some pg →
            Page.exists_ pg = true → Page.frame_no pg = Some f' →
            ∃ pg', alter (mark operation) page_no
                     (alter (Page.load rf) page_no
                        (alter Page.evict rp (page_table s))) !! p
                   = Some pg'
                   ∧ Page.exists_ pg' = true ∧ Page.frame_no pg' = Some f').
  { intros p pg f' Hf' Hp Hexp Hfn. exists pg.
    rewrite !lookup_alter_ne by congruence. auto. }
  pose proof (wf_queue_nodup _ Hwf) as Hnd. rewrite Heq in Hnd.
  apply NoDup_cons in Hnd as (Hnotin & _).
  split; [exact Hwf'| |]; simpl.
  - intros f' Hf'. apply elem_of_app in Hf' as [Hf'|Hf'].
    + assert (f' ≠ rf) by congruence.
      destruct (Hq f') as (p & pg & Hfr & Hp & Hexp & Hfn);
        [rewrite Heq; right; exact Hf'|].
      destruct (Hold p pg f') as (pg' & ? & ? & ?); auto.
      exists p, pg'. rewrite list_lookup_insert_ne by congruence. auto.
    + apply list_elem_of_singleton in Hf' as ->.
      destruct Hnew as (pg & ? & ? & ?). exists page_no, pg.
      rewrite list_lookup_insert_eq by exact Hlt. auto.
  - intros f' Hf' p Hfr. simpl in *.
    destruct (decide (rf = f')) as [<-|Hne'].
    + rewrite list_lookup_insert_eq in Hfr by exact Hlt.
      injection Hfr as <-. exact Hnew.
    + rewrite list_lookup_insert_ne in Hfr by exact Hne'.
      destruct (Ha f' Hf' p Hfr) as (pg & Hp & Hexp & Hfn).
      apply (Hold p pg f'); auto.
Qed.

Lemma settled_access_memory page_no offset operation s :
  settled s → settled (access_memory page_no offset operation s).2.
Proof.
  intros Hs. pose proof (settled_wf _ Hs) as Hwf.
  destruct (page_table s !! page_no) as [page|] eqn:Hpage;
    [|rewrite access_memory_cases, Hpage; exact Hs].
  destruct (Page.exists_ page) eqn:Hex.
  - rewrite access_memory_cases, Hpage, Hex.
    destruct (Page.frame_no page); apply settled_mark, Hs.
  - rewrite (access_fault_cases _ _ _ _ page Hpage Hex (wf_alloc_range _ Hwf)).
    destruct (free_frames s) as [|f rest] eqn:Hfree.
    + destruct (frame_queue s) as [|rf queue] eqn:Hq; [exact Hs|].
      destruct (wf_queue_occupied _ Hwf rf) as (rp & Hrp);
        [rewrite Hq; left|].
      rewrite Hrp. destruct (page_table s !! rp).
      * eapply settled_replace; eauto.
      * eapply settled_pop; eauto.
    + eapply settled_fill; eauto. rewrite Hfree. left.
Qed.

Lemma coherent_settled s : coherent s → settled s.
Proof.
  induction 1 as [ms ps mj s0 H0|s job_id job_size n disk s' Hr Hc| |].
  - eapply settled_init, H0.
  - eapply settled_job; [apply reachable_wf, Hr|exact Hc].
  - apply settled_create_job; assumption.
  - apply settled_access_memory. assumption.
Qed.


(** **** The statements about the paging engine *)

Lemma reachable_app : reachable PagingRun.app.
Proof. apply (reach_init 64 1 64). reflexivity. Qed.

Lemma reachable_two_pages : reachable PagingRun.two_pages.
Proof.
  unfold PagingRun.two_pages.
  do 2 apply reach_access_memory. apply reach_create_job, reachable_app.
Qed.

(** C2, as the code has it: in every reachable state a frame index occurs
    at most once in the FIFO queue and every resident page's frame slot
    holds that page's number; and, while the latest [create_job] that
    passed its first two checks succeeded, every frame of the current job
    (allocated-frame list or FIFO queue) that holds a page number holds a
    resident page whose frame number is that frame.  Frame slots outside
    the current job's frames may keep page numbers of an earlier job. *)
Theorem paging_invariant s :
  reachable s →
  NoDup (frame_queue s)
  ∧ resident_in_frame s
  ∧ (coherent s → job_frames_hold_resident s).
Proof.
  intros Hr. pose proof (reachable_wf s Hr) as Hwf.
  split; [apply Hwf|]. split; [apply Hwf|].
  intros Hc f Hf. apply coherent_settled in Hc as [_ Hq Ha].
  destruct Hf as [Hf|Hf]; [exact (Ha f Hf)|].
  intros p Hp. destruct (Hq f Hf) as (p' & pg & Hfr & Hpg & Hex & Hfn).
  assert (p' = p) by congruence. subst p'. eauto.
Qed.

Lemma paging_invariant_witness :
  NoDup (frame_queue PagingRun.two_pages)
  ∧ resident_in_frame PagingRun.two_pages
  ∧ job_frames_hold_resident PagingRun.two_pages.
Proof.
  assert (Hr : reachable PagingRun.two_pages).
  { unfold PagingRun.two_pages.
    do 2 apply reach_access_memory. apply reach_create_job.
    apply (reach_init 64 1 64). reflexivity. }
  assert (Hc : coherent PagingRun.two_pages).
  { unfold PagingRun.two_pages.
    do 2 apply coherent_access_memory.
    apply coherent_create_job; [|vm_compute; discriminate].
    apply (coherent_init 64 1 64). reflexivity. }
  destruct (paging_invariant PagingRun.two_pages Hr) as (Hnd & Hres & Hjob).
  split; [exact Hnd|]. split; [exact Hres|exact (Hjob Hc)].
Defined.

(** The claim C2 as stated fails: after a second job is created, frame 0
    still holds page 1 of the first job, which the new page table does
    not even contain. *)
Lemma stale_frame_counterexample :
  reachable PagingRun.second_job
  ∧ ¬ frames_hold_resident PagingRun.second_job.
Proof.
  split.
  - apply reach_create_job, reachable_two_pages.
  - intros H. destruct (H 0%nat 1) as (pg & Hpg & _); [reflexivity|].
    vm_compute in Hpg. discriminate.
Qed.


Lemma filter_head_least (P : nat → Prop) `{∀ x, Decision (P x)} l : ∀ f rest,
  StronglySorted lt l → filter P l = f :: rest →
  ∀ f', f' ∈ l → P f' → (f ≤ f')%nat.
Proof.
  induction l as [|x l IH]; intros f rest Hs Hf f' Hin HP; [inversion Hin|].
  apply StronglySorted_inv in Hs as (Hs & Hall).
  rewrite Forall_forall in Hall. rewrite filter_cons in Hf.
  destruct (decide (P x)) as [Hx|Hx].
  - injection Hf as -> _.
    apply elem_of_cons in Hin as [->|Hin]; [lia|].
    specialize (Hall f' Hin). lia.
  - apply elem_of_cons in Hin as [->|Hin]; [contradiction|].
    exact (IH f rest Hs Hf f' Hin HP).
Qed.

(** C3, as the code has it: on an access to a non-resident page of the
    page table, if some allocated frame is empty the lowest-indexed one
    receives the page and joins the FIFO queue, nothing is evicted, and
    the call returns the address with [page_fault = true]; otherwise, if
    the FIFO queue is not empty, its oldest frame is popped, it holds a
    page, and when that page has an entry in the page table the entry is
    marked non-resident with no frame, the page is reported as evicted,
    the requesting page is mapped into the frame, the frame goes to the
    tail of the queue, and the call returns the address with
    [page_fault = true]; and if no allocated frame is empty and the FIFO
    queue is empty, the call returns no address, with
    [page_fault = true], and changes nothing. *)
Theorem page_fault_handling s page_no offset operation page :
  reachable s →
  page_table s !! page_no = Some page → Page.exists_ page = false →
  (∀ f rest, free_frames s = f :: rest →
     f ∈ allocated_frames s ∧ frames s !! f = Some None
     ∧ (∀ f', f' ∈ allocated_frames s → frames s !! f' = Some None →
              (f ≤ f')%nat)
     ∧ access_memory page_no offset operation s
       = (Return (Some (Z.of_nat f * page_size s + offset), true, NoInfo),
          after_fill page_no operation f s))
  ∧ (free_frames s = [] →
     (∀ f, f ∈ allocated_frames s → frames s !! f ≠ Some None)
     ∧ (∀ rf queue, frame_queue s = rf :: queue →
          ∃ rp, frames s !! rf = Some (Some rp)
                ∧ (is_Some (page_table s !! rp) →
                   access_memory page_no offset operation s
                   = (Return (Some (Z.of_nat rf * page_size s + offset),
                              true, Evicted rp),
                      after_replace page_no operation rf (Some rp) queue s)))
     ∧ (frame_queue s = [] →
        access_memory page_no offset operation s
        = (Return (None, true, CannotLoad), s))).
Proof.
  intros Hr Hpage Hex. pose proof (reachable_wf s Hr) as Hwf.
  pose proof (access_fault_cases page_no offset operation s page Hpage Hex
                (wf_alloc_range _ Hwf)) as Hcases.
  split.
  - intros f rest Hfree. rewrite Hfree in Hcases.
    assert (Hf : f ∈ free_frames s) by (rewrite Hfree; left).
    apply list_elem_of_filter in Hf as (Hnone & Hin).
    split; [exact Hin|]. split; [exact Hnone|]. split; [|exact Hcases].
    intros f' Hin' Hnone'.
    exact (filter_head_least _ _ f rest (wf_alloc_sorted _ Hwf) Hfree f'
             Hin' Hnone').
  - intros Hfree. rewrite Hfree in Hcases. split; [|split].
    + intros f Hin Hnone.
      assert (Hf : f ∈ free_frames s) by (apply list_elem_of_filter; auto).
      rewrite Hfree in Hf. inversion Hf.
    + intros rf queue Hq. rewrite Hq in Hcases.
      destruct (wf_queue_occupied _ Hwf rf) as (rp & Hrp); [rewrite Hq; left|].
      exists rp. split; [exact Hrp|]. intros (pg & Hpg).
      rewrite Hrp, Hpg in Hcases. exact Hcases.
    + intros Hq. rewrite Hq in Hcases. exact Hcases.
Qed.

Lemma page_fault_handling_witness :
  (∀ f rest, free_frames PagingRun.one_frame = f :: rest →
     f ∈ allocated_frames PagingRun.one_frame
     ∧ frames PagingRun.one_frame !! f = Some None
     ∧ (∀ f', f' ∈ allocated_frames PagingRun.one_frame →
              frames PagingRun.one_frame !! f' = Some None → (f ≤ f')%nat)
     ∧ access_memory 1 5 "load" PagingRun.one_frame
       = (Return (Some (Z.of_nat f * page_size PagingRun.one_frame + 5),
                  true, NoInfo),
          after_fill 1 "load" f PagingRun.one_frame))
  ∧ (free_frames PagingRun.one_frame = [] →
     (∀ f, f ∈ allocated_frames PagingRun.one_frame →
           frames PagingRun.one_frame !! f ≠ Some None)
     ∧ (∀ rf queue, frame_queue PagingRun.one_frame = rf :: queue →
          ∃ rp, frames PagingRun.one_frame !! rf = Some (Some rp)
                ∧ (is_Some (page_table PagingRun.one_frame !! rp) →
                   access_memory 1 5 "load" PagingRun.one_frame
                   = (Return (Some (Z.of_nat rf
                                    * page_size PagingRun.one_frame + 5),
                              true, Evicted rp),
                      after_replace 1 "load" rf (Some rp) queue
                        PagingRun.one_frame)))
     ∧ (frame_queue PagingRun.one_frame = [] →
        access_memory 1 5 "load" PagingRun.one_frame
        = (Return (None, true, CannotLoad), PagingRun.one_frame))).
Proof.
  apply (page_fault_handling PagingRun.one_frame 1 5 "load"
           (Page.new 1 false None false "000")).
  - unfold PagingRun.one_frame.
    apply reach_access_memory, reach_create_job.
    apply (reach_init 64 1 64). reflexivity.
  - vm_compute. reflexivity.
  - reflexivity.
Defined.

(** The claim C3 as stated fails: a job created with no frames has a
    non-resident page whose access returns no address. *)
Lemma fault_without_address_counterexample :
  reachable PagingRun.no_frames
  ∧ (∃ page, page_table PagingRun.no_frames !! 0 = Some page
             ∧ Page.exists_ page = false)
  ∧ ¬ fault_returns_address PagingRun.no_frames 0 0 "load".
Proof.
  split; [apply reach_create_job, reachable_app|]. split.
  - eexists. split; [vm_compute; reflexivity|reflexivity].
  - intros (f & i & H). vm_compute in H. discriminate.
Qed.


Lemma handle_page_fault_out_of_range page_no s :
  ¬ Forall (λ f, (f < length (frames s))%nat) (allocated_frames s) →
  _handle_page_fault page_no s = (Raise IndexError, s).
Proof.
  intros Hrange. unfold _handle_page_fault. msimpl.
  rewrite free_among_spec, bool_decide_eq_false_2 by exact Hrange.
  reflexivity.
Qed.

(** What [_handle_page_fault] does when it reports an eviction. *)
Lemma handle_page_fault_evicted page_no s f rp s1 :
  _handle_page_fault page_no s = (Return (Some f, Evicted rp), s1) →
  is_Some (page_table s !! rp)
  ∧ page_table s1 = alter Page.evict rp (page_table s)
  ∧ page_size s1 = page_size s.
Proof.
  destruct (decide (Forall (λ f, (f < length (frames s))%nat)
                      (allocated_frames s))) as [Hrange|Hrange];
    [|rewrite handle_page_fault_out_of_range by exact Hrange; discriminate].
  rewrite handle_page_fault_cases by exact Hrange.
  destruct (free_frames s); [|discriminate].
  destruct (frame_queue s) as [|rf queue]; [discriminate|].
  destruct (frames s !! rf) as [[rp'|]|]; try discriminate.
  destruct (page_table s !! rp') as [pg|] eqn:E; [|discriminate].
  intros [= <- <- <-]. rewrite E. eauto.
Qed.

(** The FIFO run of the specification: one frame, two pages. *)
Example fifo_replacement_run :
  (access_memory 0 0 "save"
     (create_job "j" 2048 1 PagingRun.disk PagingRun.app).2).1
  = Return (Some 0, true, NoInfo)
  ∧ (access_memory 0 7 "load" PagingRun.one_frame).1
    = Return (Some 7, false, NoInfo)
  ∧ (access_memory 1 5 "load" PagingRun.one_frame).1
    = Return (Some 5, true, Evicted 0)
  ∧ (access_memory 0 0 "load"
       (access_memory 1 5 "load" PagingRun.one_frame).2).1
    = Return (Some 0, true, Evicted 1).
Proof. repeat split; vm_compute; reflexivity. Qed.


(** C9: when an access evicts a page, the eviction clears the resident
    flag and the frame assignment of the evicted page's entry and leaves
    its modified flag (and disk position) as they were, so a page written
    before it was evicted still shows as modified afterwards. *)
Theorem eviction_keeps_dirty s page_no offset operation addr rp s' :
  access_memory page_no offset operation s
  = (Return (addr, true, Evicted rp), s') →
  ∃ pg pg',
    page_table s !! rp = Some pg
    ∧ page_table s' !! rp = Some pg'
    ∧ (rp ≠ page_no →
       pg' = Page.new (Page.page_no pg) false None (Page.modified pg)
                      (Page.disk_pos pg))
    ∧ (Page.modified pg = true → Page.modified pg' = true)
    ∧ ∃ f s1,
        _handle_page_fault page_no s = (Return (Some f, Evicted rp), s1)
        ∧ page_table s1 !! rp
          = Some (Page.new (Page.page_no pg) false None (Page.modified pg)
                           (Page.disk_pos pg)).
Proof.
  rewrite access_memory_cases.
  destruct (page_table s !! page_no) as [page|] eqn:Hpage; [|discriminate].
  destruct (Page.exists_ page).
  { destruct (Page.frame_no page); discriminate. }
  destruct (_handle_page_fault page_no s) as [[[[f|] i]|e] s1] eqn:Hh;
    try discriminate.
  intros [= <- -> <-].
  destruct (handle_page_fault_evicted _ _ _ _ _ Hh) as ((pg & Hpg) & Hpt & _).
  assert (H1 : page_table s1 !! rp = Some (Page.evict pg)).
  { rewrite Hpt, lookup_alter_eq, Hpg. reflexivity. }
  exists pg. simpl. destruct (decide (page_no = rp)) as [->|Hne].
  - exists (mark operation (Page.load f (Page.evict pg))).
    rewrite !lookup_alter_eq, H1. simpl.
    split; [exact Hpg|]. split; [reflexivity|].
    split; [congruence|]. split; [|eauto].
    unfold mark. destruct (is_store operation); simpl; auto.
  - exists (Page.evict pg). rewrite !lookup_alter_ne by exact Hne.
    split; [exact Hpg|]. split; [exact H1|]. split; [reflexivity|].
    split; [auto|eauto].
Qed.

Lemma eviction_keeps_dirty_witness :
  ∃ pg pg',
    page_table PagingRun.one_frame !! 0 = Some pg
    ∧ page_table (access_memory 1 5 "load" PagingRun.one_frame).2 !! 0
      = Some pg'
    ∧ (0 ≠ 1 →
       pg' = Page.new (Page.page_no pg) false None (Page.modified pg)
                      (Page.disk_pos pg))
    ∧ (Page.modified pg = true → Page.modified pg' = true)
    ∧ ∃ f s1,
        _handle_page_fault 1 PagingRun.one_frame
        = (Return (Some f, Evicted 0), s1)
        ∧ page_table s1 !! 0
          = Some (Page.new (Page.page_no pg) false None (Page.modified pg)
                           (Page.disk_pos pg)).
Proof.
  apply (eviction_keeps_dirty PagingRun.one_frame 1 5 "load" (Some 5) 0
           (access_memory 1 5 "load" PagingRun.one_frame).2).
  vm_compute. reflexivity.
Defined.

(** After the write to page 0 and its eviction by page 1, page 0 is not
    resident and still modified. *)
Example evicted_page_still_dirty :
  page_table (access_memory 1 5 "load" PagingRun.one_frame).2 !! 0
  = Some (Page.new 0 false None true "000").
Proof. vm_compute. reflexivity. Qed.


(** C10: [create_job] accepts an allocation of zero frames whenever its
    other two checks pass, and for such a job every access to a page of
    the page table returns no address with [page_fault = true] and leaves
    the whole state (page table, frame table, FIFO queue) as it was, so
    no page ever becomes resident. *)
Theorem job_without_frames s job_id job_size disk :
  reachable s →
  job_size ≤ max_job_size s → 0 ≤ total_frames s →
  let s' := (create_job job_id job_size 0 disk s).2 in
  create_job job_id job_size 0 disk s = (Return (true, JobCreated job_id 0), s')
  ∧ allocated_frames s' = [] ∧ frame_queue s' = []
  ∧ frames s' = frames s
  ∧ (∀ page_no offset operation,
       is_Some (page_table s' !! page_no) →
       access_memory page_no offset operation s'
       = (Return (None, true, CannotLoad), s'))
  ∧ ∀ calls, run_accesses calls s' = s'.
Proof.
  intros Hr Hsize Htotal s'. subst s'.
  pose proof (reachable_wf s Hr) as Hwf.
  rewrite create_job_cases.
  rewrite bool_decide_eq_false_2 by lia.
  rewrite bool_decide_eq_false_2 by lia.
  rewrite bool_decide_eq_false_2 by (apply Hwf). simpl.
  rewrite bool_decide_eq_false_2 by lia. simpl.
  match goal with |- (_, ?x) = _ ∧ _ => set (s' := x) end.
  assert (Hfault : ∀ page_no offset operation,
            is_Some (page_table s' !! page_no) →
            access_memory page_no offset operation s'
            = (Return (None, true, CannotLoad), s')).
  { intros page_no offset operation (page & Hpage).
    rewrite (access_fault_cases page_no offset operation s' page Hpage).
    - reflexivity.
    - eapply fresh_page_table_non_resident, Hpage.
    - constructor. }
  split; [reflexivity|]. split; [reflexivity|]. split; [reflexivity|].
  split; [reflexivity|]. split; [exact Hfault|].
  intros calls. unfold run_accesses.
  induction calls as [|[[page_no offset] operation] calls IH]; [reflexivity|].
  simpl. destruct (page_table s' !! page_no) as [page|] eqn:Hpage.
  - rewrite Hfault by eauto. exact IH.
  - rewrite access_memory_cases, Hpage. exact IH.
Qed.

Lemma job_without_frames_witness :
  let s' := (create_job "j0" 1024 0 PagingRun.disk PagingRun.app).2 in
  create_job "j0" 1024 0 PagingRun.disk PagingRun.app
  = (Return (true, JobCreated "j0" 0), s')
  ∧ allocated_frames s' = [] ∧ frame_queue s' = []
  ∧ frames s' = frames PagingRun.app
  ∧ (∀ page_no offset operation,
       is_Some (page_table s' !! page_no) →
       access_memory page_no offset operation s'
       = (Return (None, true, CannotLoad), s'))
  ∧ ∀ calls, run_accesses calls s' = s'.
Proof.
  apply (job_without_frames PagingRun.app "j0" 1024 PagingRun.disk).
  - apply (reach_init 64 1 64). reflexivity.
  - vm_compute. discriminate.
  - vm_compute. discriminate.
Defined.

(** **** Before the first job *)

Lemma before_first_job_init s :
  before_first_job s →
  ∃ memory_size page_size max_job_size,
    init memory_size page_size max_job_size = Return s.
Proof.
  induction 1 as [ms ps mj s0 H0|s job_id job_size n disk _ IH Hfail
                 |s page_no offset operation _ IH].
  - eauto.
  - destruct IH as (ms & ps & mj & H0).
    assert (Hsame : (create_job job_id job_size n disk s).2 = s);
      [|rewrite Hsame; eauto].
    revert Hfail. rewrite create_job_cases.
    repeat (case_bool_decide; [reflexivity|]). simpl.
    case_bool_decide as Hlt; [|simpl; congruence].
    exfalso. revert H0. unfold init.
    case_bool_decide; [discriminate|]. intros [= <-]. simpl in *.
    rewrite empty_frames_replicate, length_seq in Hlt. lia.
  - destruct IH as (ms & ps & mj & H0).
    assert (Hsame : (access_memory page_no offset operation s).2 = s);
      [|rewrite Hsame; eauto].
    rewrite access_memory_cases. revert H0. unfold init.
    case_bool_decide; [discriminate|]. intros [= <-]. simpl.
    rewrite lookup_empty. reflexivity.
Qed.

(** C7, as the code has it: an [access_memory] call made before any
    [create_job] call has succeeded returns no physical address, with
    [page_fault = false] and the page-out-of-range text (the page table
    is empty), and changes nothing; the "create a job first" refusal is
    made by the caller [_execute_instruction], which does not call the
    engine when there is no current job. *)
Theorem access_before_first_job s page_no offset operation :
  before_first_job s →
  access_memory page_no offset operation s
  = (Return (None, false, PageOutOfRange page_no), s)
  ∧ access_error_kind (access_memory page_no offset operation s).1
    = Some PageOutOfRangeKind
  ∧ MemoryManagementApp._execute_instruction operation page_no offset s
    = (MemoryManagementApp.WarnCreateJobFirst, s).
Proof.
  intros Hb. destruct (before_first_job_init s Hb) as (ms & ps & mj & H0).
  revert H0. unfold init. case_bool_decide; [discriminate|]. intros [= <-].
  rewrite access_memory_cases. simpl. rewrite lookup_empty. auto.
Qed.

Lemma access_before_first_job_witness :
  access_memory 0 0 "load" PagingRun.app
  = (Return (None, false, PageOutOfRange 0), PagingRun.app)
  ∧ access_error_kind (access_memory 0 0 "load" PagingRun.app).1
    = Some PageOutOfRangeKind
  ∧ MemoryManagementApp._execute_instruction "load" 0 0 PagingRun.app
    = (MemoryManagementApp.WarnCreateJobFirst, PagingRun.app).
Proof.
  apply (access_before_first_job PagingRun.app 0 0 "load").
  apply (before_init 64 1 64). reflexivity.
Defined.

(** The claim C7 as stated fails: on a fresh engine the answer of
    [access_memory] is the page-out-of-range one, not a "no current job"
    one. *)
Lemma no_current_job_counterexample :
  before_first_job PagingRun.app
  ∧ access_error_kind (access_memory 0 0 "load" PagingRun.app).1
    ≠ Some NoCurrentJobKind.
Proof.
  split; [apply (before_init 64 1 64); reflexivity|].
  vm_compute. discriminate.
Qed.

(** **** Failing [create_job] calls *)

(** The first two checks return before anything is assigned. *)
Lemma create_job_early_failure job_id job_size n disk s m s' :
  create_job job_id job_size n disk s = (Return (false, m), s') →
  m ≠ OutOfFrames → s' = s.
Proof.
  rewrite create_job_cases.
  repeat (case_bool_decide; [congruence|]). simpl. congruence.
Qed.

(** The third check returns after the page table and the allocated-frame
    list have been replaced. *)
Lemma create_job_out_of_frames job_id job_size n disk s s' :
  create_job job_id job_size n disk s = (Return (false, OutOfFrames), s') →
  s' = set_allocated_frames []
         (set_page_table
            (fresh_page_table disk
               ((job_size + page_size s - 1) `div` page_size s)) s).
Proof.
  rewrite create_job_cases.
  repeat (case_bool_decide; [congruence|]). simpl. congruence.
Qed.

(** C1 fails on the code: with two of the 64 frames occupied, a job
    asking for 64 frames is refused with [OutOfFrames], yet the page
    table has been rebuilt (page 1 is gone) and the allocated-frame list
    emptied, while the FIFO queue, the frame table and the job descriptor
    are those of the previous job; the next access to page 0 then raises
    [KeyError] on the stale page 1. *)
Theorem create_job_refusal_changes_state :
  create_job "j2" 1024 64 PagingRun.disk PagingRun.two_pages
  = (Return (false, OutOfFrames), PagingRun.refused)
  ∧ is_Some (page_table PagingRun.two_pages !! 1)
  ∧ page_table PagingRun.refused !! 1 = None
  ∧ allocated_frames PagingRun.two_pages = seq 0 64
  ∧ allocated_frames PagingRun.refused = []
  ∧ frame_queue PagingRun.refused = frame_queue PagingRun.two_pages
  ∧ frames PagingRun.refused = frames PagingRun.two_pages
  ∧ current_job PagingRun.refused = current_job PagingRun.two_pages
  ∧ PagingRun.refused ≠ PagingRun.two_pages
  ∧ (access_memory 0 0 "load" PagingRun.refused).1 = Raise (KeyError 1).
Proof.
  split; [vm_compute; reflexivity|].
  split; [vm_compute; eexists; reflexivity|].
  split; [vm_compute; reflexivity|].
  split; [vm_compute; reflexivity|].
  split; [vm_compute; reflexivity|].
  split; [vm_compute; reflexivity|].
  split; [vm_compute; reflexivity|].
  split; [vm_compute; reflexivity|].
  split; [|vm_compute; reflexivity].
  intros H. apply (f_equal allocated_frames) in H.
  vm_compute in H. discriminate.
Qed.

End Paging.


(** *** More about the partition engine *)
Section PartitionFurther.
Import DynamicPartition PartitionSpec PartitionMore.

Lemma merge_sweep_list l : _merge_adjacent_blocks l = sweep_list l.
Proof. apply merge_adjacent_blocks_sweep. Qed.

Lemma sweep_alternating_id rest : ∀ cur,
  alternating (cur :: rest) → sweep cur rest = cur :: rest.
Proof.
  induction rest as [|nxt rest IH]; intros cur Halt; [reflexivity|].
  destruct Halt as (Hor & Halt). simpl.
  destruct (negb (MemoryBlock.allocated cur)
            && negb (MemoryBlock.allocated nxt)) eqn:E.
  - apply andb_true_iff in E as (Ec & En). apply negb_true_iff in Ec, En.
    destruct Hor; congruence.
  - rewrite (IH nxt Halt). reflexivity.
Qed.

Lemma no_adjacent_free_alternating l : no_adjacent_free l → alternating l.
Proof.
  induction l as [|b l IH]; intros H; [exact I|].
  destruct l as [|b' l]; [exact I|]. split.
  - specialize (H 0%nat b b' eq_refl eq_refl).
    destruct (MemoryBlock.allocated b), (MemoryBlock.allocated b'); auto.
  - apply IH. intros i b1 b2 H1 H2. exact (H (S i) b1 b2 H1 H2).
Qed.

(** X1: a list is left as it is by [_merge_adjacent_blocks] exactly when it
    has no two adjacent free blocks; hence running the merge twice is the
    same as running it once. *)
Theorem merge_fixed_point l :
  (_merge_adjacent_blocks l = l ↔ no_adjacent_free l)
  ∧ _merge_adjacent_blocks (_merge_adjacent_blocks l) = _merge_adjacent_blocks l.
Proof.
  assert (Hout : ∀ k, alternating (sweep_list k)).
  { intros [|c r]; [exact I|apply sweep_alternating]. }
  assert (Hid : ∀ k, alternating k → sweep_list k = k).
  { intros [|c r] Hk; [reflexivity|apply sweep_alternating_id, Hk]. }
  rewrite !merge_sweep_list. split; [split|].
  - intros Heq. apply alternating_no_adjacent_free. rewrite <- Heq. apply Hout.
  - intros Hn. apply Hid, no_adjacent_free_alternating, Hn.
  - apply Hid, Hout.
Qed.

Lemma sweep_allocated_blocks rest : ∀ cur,
  allocated_blocks (sweep cur rest) = allocated_blocks (cur :: rest).
Proof.
  unfold allocated_blocks.
  induction rest as [|nxt rest IH]; intros cur; simpl sweep; [reflexivity|].
  destruct (negb (MemoryBlock.allocated cur)
            && negb (MemoryBlock.allocated nxt)) eqn:E.
  - apply andb_true_iff in E as (Ec & En). apply negb_true_iff in Ec, En.
    rewrite IH.
    rewrite !(filter_cons_False _ cur), (filter_cons_False _ nxt) by congruence.
    rewrite filter_cons_False by (simpl; congruence). reflexivity.
  - rewrite !(filter_cons _ cur). rewrite IH. reflexivity.
Qed.

Lemma sweep_length rest : ∀ cur,
  (length (sweep cur rest) ≤ length (cur :: rest))%nat.
Proof.
  induction rest as [|nxt rest IH]; intros cur; simpl sweep; [simpl; lia|].
  destruct (negb (MemoryBlock.allocated cur)
            && negb (MemoryBlock.allocated nxt)).
  - specialize (IH (MemoryBlock.grow cur (MemoryBlock.size nxt))).
    simpl in *. lia.
  - specialize (IH nxt). simpl in *. lia.
Qed.

(** X2: [_merge_adjacent_blocks] never touches an allocated block: the
    allocated blocks of the list, in order, are the same before and after;
    it keeps the total size, never makes the list longer, and leaves in
    place the start address of the first block. *)
Theorem merge_keeps_allocated l :
  allocated_blocks (_merge_adjacent_blocks l) = allocated_blocks l
  ∧ total_size (_merge_adjacent_blocks l) = total_size l
  ∧ (length (_merge_adjacent_blocks l) ≤ length l)%nat
  ∧ MemoryBlock.start_addr <$> head (_merge_adjacent_blocks l)
    = MemoryBlock.start_addr <$> head l.
Proof.
  rewrite merge_sweep_list. destruct l as [|cur rest]; [auto|]. simpl sweep_list.
  split; [apply sweep_allocated_blocks|]. split; [apply sweep_total|].
  split; [apply sweep_length|].
  destruct (sweep_cons rest cur) as (c' & r' & -> & _ & Hs). simpl. congruence.
Qed.

Lemma select_is_some algorithm req l :
  is_Some (select algorithm req l) ↔
  known_algorithm algorithm ∧ ∃ j c, candidate req l j c.
Proof.
  split.
  - intros ([i b] & Hsel). split.
    + unfold select in Hsel. unfold known_algorithm.
      repeat (case_bool_decide; [auto|]). discriminate.
    + exists i, b. eapply select_candidate, Hsel.
  - intros (Halg & j & c & Hc). destruct Halg as [-> | [-> | ->]].
    + pose proof (select_first_fit req l) as H.
      destruct (select "first_fit" req l) as [[i b]|]; [eauto|].
      destruct (H j c Hc).
    + pose proof (select_best_fit req l) as H.
      destruct (select "best_fit" req l) as [[i b]|]; [eauto|].
      destruct (H j c Hc).
    + pose proof (select_worst_fit req l) as H.
      destruct (select "worst_fit" req l) as [[i b]|]; [eauto|].
      destruct (H j c Hc).
Qed.

(** X3: [allocate] succeeds exactly when the process id is not yet
    tracked, the algorithm name is one of the three known ones and some
    free block is at least as large as the request; a tracked id is
    answered "already exists" whatever the memory holds, any other failure
    "cannot allocate", and a failed call changes nothing. *)
Theorem allocate_succeeds_iff p algorithm st :
  ((allocate p algorithm st).1.1 = true ↔
   processes st !! Process.pid p = None
   ∧ known_algorithm algorithm
   ∧ ∃ j c, candidate (Process.memory_size p) (memory_blocks st) j c)
  ∧ (is_Some (processes st !! Process.pid p) →
     allocate p algorithm st = ((false, ProcessExists (Process.pid p)), st))
  ∧ ((allocate p algorithm st).1.1 = false →
     (allocate p algorithm st).2 = st
     ∧ ((allocate p algorithm st).1.2 = ProcessExists (Process.pid p)
        ∨ (allocate p algorithm st).1.2
          = CannotAllocate (Process.pid p) (Process.memory_size p))).
Proof.
  pose proof (select_is_some algorithm (Process.memory_size p)
                (memory_blocks st)) as Hsel.
  unfold allocate. case_bool_decide as Hp.
  - simpl. split; [|auto]. split; [discriminate|].
    intros (Hnone & _). rewrite Hnone in Hp. destruct Hp; discriminate.
  - assert (Hnone : processes st !! Process.pid p = None).
    { destruct (processes st !! Process.pid p) eqn:E; [|reflexivity].
      destruct Hp. eauto. }
    destruct (select algorithm _ _) as [[i b]|]; simpl.
    + split; [|split; [intros Hs; rewrite Hnone in Hs; destruct Hs|]; discriminate].
      split; [|reflexivity]. intros _. split; [exact Hnone|].
      apply Hsel. eauto.
    + split; [|split; [intros Hs; rewrite Hnone in Hs; destruct Hs; discriminate|auto]].
      split; [discriminate|]. intros (_ & Hrest).
      apply Hsel in Hrest. destruct Hrest; discriminate.
Qed.

(** X4: [deallocate] succeeds exactly when the id is tracked and some block
    is allocated to it; then the id leaves the process map and the other
    entries stay; a failed call changes nothing. *)
Theorem deallocate_succeeds_iff pid st :
  ((deallocate pid st).1.1 = true ↔
   is_Some (processes st !! pid)
   ∧ ∃ b, b ∈ memory_blocks st ∧ MemoryBlock.allocated b = true
          ∧ MemoryBlock.process_id b = Some pid)
  ∧ ((deallocate pid st).1.1 = true →
     processes (deallocate pid st).2 = delete pid (processes st)
     ∧ memory_size (deallocate pid st).2 = memory_size st)
  ∧ ((deallocate pid st).1.1 = false → (deallocate pid st).2 = st).
Proof.
  destruct (deallocate_cases pid st)
    as [(-> & Hnone)|[(Heq & Hno)|(pre & b & post & c & rest & Hl & Ha & Hpid
                                  & Hcr & Hsome & ->)]]; simpl.
  - split; [|split; [discriminate|reflexivity]].
    split; [discriminate|]. intros (Hs & _). rewrite Hnone in Hs.
    destruct Hs; discriminate.
  - rewrite Heq. simpl. split; [|split; [discriminate|reflexivity]].
    split; [discriminate|]. intros (_ & b & Hin & Ha & Hp).
    destruct (Hno b Hin). auto.
  - split; [|split; [auto|discriminate]].
    split; [|reflexivity]. intros _. split; [exact Hsome|].
    exists b. rewrite Hl. split; [|auto]. apply elem_of_app. right. left.
Qed.


(** **** Processes and their blocks *)

Lemma NoDup_middle {A} (l1 l2 : list A) (x : A) :
  NoDup (l1 ++ x :: l2) ↔ (x ∉ l1 ++ l2) ∧ NoDup (l1 ++ l2).
Proof. rewrite <- Permutation_middle. apply NoDup_cons. Qed.

Lemma allocated_blocks_app l1 l2 :
  allocated_blocks (l1 ++ l2) = allocated_blocks l1 ++ allocated_blocks l2.
Proof. apply filter_app. Qed.

Lemma allocated_blocks_cons_free b l :
  MemoryBlock.allocated b = false →
  allocated_blocks (b :: l) = allocated_blocks l.
Proof. intros H. apply filter_cons_False. congruence. Qed.

Lemma allocated_blocks_cons_allocated b l :
  MemoryBlock.allocated b = true →
  allocated_blocks (b :: l) = b :: allocated_blocks l.
Proof. intros H. apply filter_cons_True. exact H. Qed.

Lemma allocated_blocks_elem b l :
  b ∈ allocated_blocks l ↔ b ∈ l ∧ MemoryBlock.allocated b = true.
Proof. unfold allocated_blocks. rewrite list_elem_of_filter. tauto. Qed.

Lemma allocated_blocks_remainder b p l :
  allocated_blocks (remainder_for b p ++ l) = allocated_blocks l.
Proof.
  unfold remainder_for. case_bool_decide; [|reflexivity].
  simpl. apply allocated_blocks_cons_free. reflexivity.
Qed.

Lemma sweep_free_unowned rest : ∀ cur,
  Forall (λ b, MemoryBlock.allocated b = false → MemoryBlock.process_id b = None)
         (cur :: rest) →
  Forall (λ b, MemoryBlock.allocated b = false → MemoryBlock.process_id b = None)
         (sweep cur rest).
Proof.
  induction rest as [|nxt rest IH]; intros cur H; simpl; [exact H|].
  apply Forall_cons in H as (Hc & H). apply Forall_cons in H as (Hn & H).
  destruct (negb (MemoryBlock.allocated cur)
            && negb (MemoryBlock.allocated nxt)).
  - apply IH. apply Forall_cons. split; [exact Hc|exact H].
  - apply Forall_cons. split; [exact Hc|]. apply IH.
    apply Forall_cons. auto.
Qed.

Lemma ownership_init m : ownership (init m).
Proof.
  split; unfold init; cbn [memory_blocks processes].
  - intros b Hb. apply allocated_blocks_elem in Hb as (Hin & Ha).
    apply list_elem_of_singleton in Hin as ->. discriminate.
  - intros pid p Hp. rewrite lookup_empty in Hp. discriminate.
  - rewrite allocated_blocks_cons_free by reflexivity. constructor.
  - rewrite allocated_blocks_cons_free by reflexivity. reflexivity.
  - intros b Hin _. apply list_elem_of_singleton in Hin as ->. reflexivity.
Qed.

Lemma allocate_ownership st p algorithm :
  ownership st → ownership (allocate p algorithm st).2.
Proof.
  intros Hown. unfold allocate.
  case_bool_decide as Hp; [exact Hown|].
  assert (Hnone : processes st !! Process.pid p = None).
  { destruct (processes st !! Process.pid p) eqn:E; [|reflexivity].
    destruct Hp. eauto. }
  destruct (select algorithm _ _) as [[i b]|] eqn:Hsel; [|exact Hown].
  apply select_candidate in Hsel as (Hl & Hfree & _). simpl.
  destruct (list_elem_of_split_length _ _ _ Hl) as (pre & post & Heq & ->).
  destruct Hown as [Hblock Hproc Hdis Hcount Hunowned].
  rewrite Heq in *.
  rewrite allocated_blocks_app, allocated_blocks_cons_free in * by exact Hfree.
  set (A := allocated_block_for b p).
  set (p' := Process.new (Process.pid p) (Process.memory_size p) (Some A)).
  assert (Hnew : allocated_blocks (pre ++ A :: remainder_for b p ++ post)
                 = allocated_blocks pre ++ A :: allocated_blocks post).
  { rewrite allocated_blocks_app, allocated_blocks_cons_allocated by reflexivity.
    rewrite allocated_blocks_remainder. reflexivity. }
  assert (Hfresh : ∀ b', b' ∈ allocated_blocks pre ++ allocated_blocks post →
                         MemoryBlock.process_id b' ≠ Some (Process.pid p)).
  { intros b' Hb' Heq'. destruct (Hblock b' Hb') as (p0 & Hp0 & Hid & _).
    assert (Process.pid p0 = Process.pid p) by congruence. congruence. }
  split; simpl; rewrite place_middle; fold A; try rewrite Hnew.
  - intros b' Hb'. apply elem_of_app in Hb' as [Hb'|Hb'].
    + destruct (Hblock b') as (p0 & Hp0 & Hrest); [apply elem_of_app; auto|].
      exists p0. split; [|exact Hrest].
      rewrite lookup_insert_ne; [exact Hp0|congruence].
    + apply elem_of_cons in Hb' as [->|Hb'].
      * exists p'. split; [apply lookup_insert_eq|auto].
      * destruct (Hblock b') as (p0 & Hp0 & Hrest); [apply elem_of_app; auto|].
        exists p0. split; [|exact Hrest].
        rewrite lookup_insert_ne; [exact Hp0|congruence].
  - intros pid q Hq. destruct (decide (Process.pid p = pid)) as [<-|Hne].
    + rewrite lookup_insert_eq in Hq. injection Hq as <-.
      split; [reflexivity|]. exists A. split; [|auto].
      apply elem_of_app. right. left.
    + rewrite lookup_insert_ne in Hq by exact Hne.
      destruct (Hproc pid q Hq) as (Hpid & b0 & Hin & Hrest).
      split; [exact Hpid|]. exists b0. split; [|exact Hrest].
      apply elem_of_app in Hin as [Hin|Hin]; apply elem_of_app; auto.
      right. right. exact Hin.
  - rewrite fmap_app, fmap_cons. apply NoDup_middle.
    rewrite <- fmap_app. split; [|exact Hdis].
    intros Hin. apply list_elem_of_fmap in Hin as (b' & Heq' & Hb').
    apply (Hfresh b' Hb'). symmetry. exact Heq'.
  - rewrite map_size_insert_None by exact Hnone.
    rewrite length_app in *. simpl. lia.
  - intros b' Hin Hfr.
    apply elem_of_app in Hin as [Hin|Hin];
      [apply Hunowned; [apply elem_of_app; auto|exact Hfr]|].
    apply elem_of_cons in Hin as [->|Hin]; [discriminate|].
    apply elem_of_app in Hin as [Hin|Hin].
    + unfold remainder_for in Hin. case_bool_decide; [|inversion Hin].
      apply list_elem_of_singleton in Hin as ->. reflexivity.
    + apply Hunowned; [|exact Hfr]. apply elem_of_app. right. right. exact Hin.
Qed.


Lemma deallocate_ownership st pid :
  ownership st → ownership (deallocate pid st).2.
Proof.
  intros Hown.
  destruct (deallocate_cases pid st)
    as [(-> & _)|[(-> & _)|(pre & b & post & c & rest & Heq & Ha & Hpid
                            & Hcr & Hsome & ->)]]; [exact Hown..|].
  destruct Hown as [Hblock Hproc Hdis Hcount Hunowned].
  rewrite Heq in *.
  rewrite allocated_blocks_app, allocated_blocks_cons_allocated in * by exact Ha.
  rewrite fmap_app, fmap_cons in Hdis. apply NoDup_middle in Hdis as (Hnotin & Hdis).
  rewrite <- fmap_app in Hnotin, Hdis.
  assert (Hnew : allocated_blocks (sweep c rest)
                 = allocated_blocks pre ++ allocated_blocks post).
  { rewrite sweep_allocated_blocks, <- Hcr, allocated_blocks_app.
    rewrite allocated_blocks_cons_free by reflexivity. reflexivity. }
  assert (Hother : ∀ b', b' ∈ allocated_blocks pre ++ allocated_blocks post →
                         MemoryBlock.process_id b' ≠ Some pid).
  { intros b' Hb' Heq'. apply Hnotin. rewrite Hpid, <- Heq'.
    apply list_elem_of_fmap. eauto. }
  assert (Hsplit : ∀ b', b' ∈ allocated_blocks pre ++ b :: allocated_blocks post →
                         b' = b ∨ b' ∈ allocated_blocks pre ++ allocated_blocks post).
  { intros b' Hb'. apply elem_of_app in Hb' as [Hb'|Hb'].
    - right. apply elem_of_app. auto.
    - apply elem_of_cons in Hb' as [->|Hb']; [auto|].
      right. apply elem_of_app. auto. }
  split; simpl; try rewrite Hnew.
  - intros b' Hb'.
    destruct (Hblock b') as (p0 & Hp0 & Hid & Hrest).
    { apply elem_of_app in Hb' as [Hb'|Hb']; apply elem_of_app; auto.
      right. right. exact Hb'. }
    exists p0. split; [|auto].
    rewrite lookup_delete_ne; [exact Hp0|].
    intros Hp. apply (Hother b' Hb'). congruence.
  - intros pid' q Hq. destruct (decide (pid = pid')) as [<-|Hne].
    { rewrite lookup_delete_eq in Hq. discriminate. }
    rewrite lookup_delete_ne in Hq by exact Hne.
    destruct (Hproc pid' q Hq) as (Hp' & b0 & Hin & Hab & Hid & Hsz).
    split; [exact Hp'|]. exists b0. split; [|auto].
    destruct (Hsplit b0 Hin) as [->|Hin']; [congruence|exact Hin'].
  - exact Hdis.
  - rewrite map_size_delete_Some by exact Hsome.
    rewrite length_app in *. simpl in Hcount. lia.
  - apply (proj1 (Forall_forall
                    (λ b, MemoryBlock.allocated b = false →
                          MemoryBlock.process_id b = None) _)).
    apply sweep_free_unowned. rewrite <- Hcr.
    apply Forall_forall. intros b' Hin Hfr.
    apply elem_of_app in Hin as [Hin|Hin];
      [apply Hunowned; [apply elem_of_app; auto|exact Hfr]|].
    apply elem_of_cons in Hin as [->|Hin]; [reflexivity|].
    apply Hunowned; [|exact Hfr]. apply elem_of_app. right. right. exact Hin.
Qed.

Lemma reachable_ownership ok m st : reachable ok m st → ownership st.
Proof.
  induction 1 as [|st p algorithm _ IH Hp|st pid _ IH].
  - apply ownership_init.
  - apply allocate_ownership. assumption.
  - apply deallocate_ownership. assumption.
Qed.

(** X5: in every reachable state the process map and the allocated blocks
    describe each other: every allocated block is owned by a tracked
    process that records this very block and whose requested size is the
    block's size; every tracked process is filed under its own id and owns
    such a block; no two allocated blocks have the same owner; there are as
    many allocated blocks as tracked processes; and a free block has no
    owner. *)
Theorem process_block_correspondence m st :
  reachable any_request m st →
  (∀ b, b ∈ memory_blocks st → MemoryBlock.allocated b = true →
        ∃ p, processes st !! Process.pid p = Some p
             ∧ MemoryBlock.process_id b = Some (Process.pid p)
             ∧ MemoryBlock.size b = Process.memory_size p
             ∧ Process.allocated_block p = Some b)
  ∧ (∀ pid p, processes st !! pid = Some p →
        Process.pid p = pid
        ∧ ∃ b, b ∈ memory_blocks st ∧ MemoryBlock.allocated b = true
               ∧ Process.allocated_block p = Some b
               ∧ MemoryBlock.process_id b = Some pid
               ∧ MemoryBlock.size b = Process.memory_size p)
  ∧ NoDup (MemoryBlock.process_id <$> allocated_blocks (memory_blocks st))
  ∧ length (allocated_blocks (memory_blocks st)) = size (processes st)
  ∧ (∀ b, b ∈ memory_blocks st → MemoryBlock.allocated b = false →
          MemoryBlock.process_id b = None).
Proof.
  intros Hr. destruct (reachable_ownership _ _ _ Hr)
    as [Hblock Hproc Hdis Hcount Hunowned].
  split; [|split; [|auto]].
  - intros b Hin Ha. apply Hblock, allocated_blocks_elem. auto.
  - intros pid p Hp. destruct (Hproc pid p Hp) as (Hpid & b & Hin & Hrest).
    apply allocated_blocks_elem in Hin as (Hin & Ha).
    split; [exact Hpid|]. exists b. tauto.
Qed.

Lemma process_block_correspondence_witness :
  (∀ b, b ∈ memory_blocks PartitionRun.abc → MemoryBlock.allocated b = true →
        ∃ p, processes PartitionRun.abc !! Process.pid p = Some p
             ∧ MemoryBlock.process_id b = Some (Process.pid p)
             ∧ MemoryBlock.size b = Process.memory_size p
             ∧ Process.allocated_block p = Some b)
  ∧ (∀ pid p, processes PartitionRun.abc !! pid = Some p →
        Process.pid p = pid
        ∧ ∃ b, b ∈ memory_blocks PartitionRun.abc
               ∧ MemoryBlock.allocated b = true
               ∧ Process.allocated_block p = Some b
               ∧ MemoryBlock.process_id b = Some pid
               ∧ MemoryBlock.size b = Process.memory_size p)
  ∧ NoDup (MemoryBlock.process_id
             <$> allocated_blocks (memory_blocks PartitionRun.abc))
  ∧ length (allocated_blocks (memory_blocks PartitionRun.abc))
    = size (processes PartitionRun.abc)
  ∧ (∀ b, b ∈ memory_blocks PartitionRun.abc →
          MemoryBlock.allocated b = false → MemoryBlock.process_id b = None).
Proof.
  apply (process_block_correspondence 30 PartitionRun.abc).
  unfold PartitionRun.abc.
  repeat first [ apply reach_allocate; [|exact I] | apply reach_init ].
Defined.

(** **** The handlers of the partition tab *)

Lemma invariant_facts m st :
  invariant m st →
  ordered_by_start (memory_blocks st)
  ∧ contiguous (memory_blocks st)
  ∧ non_overlapping (memory_blocks st)
  ∧ total_size (memory_blocks st) = m
  ∧ no_adjacent_free (memory_blocks st).
Proof.
  intros Hinv. split; [|split; [|split; [|split]]].
  - intros i j bi bj Hij Hi Hj.
    exact (proj2 (invariant_order m st i j bi bj Hinv Hij Hi Hj)).
  - destruct Hinv as [->|Hg]; [|apply chained_contiguous; apply Hg].
    apply chained_contiguous. simpl. auto.
  - intros i j bi bj Hij Hi Hj.
    exact (proj1 (invariant_order m st i j bi bj Hinv Hij Hi Hj)).
  - destruct Hinv as [->|Hg]; [simpl; lia|apply Hg].
  - apply alternating_no_adjacent_free.
    destruct Hinv as [->|Hg]; [exact I|apply Hg].
Qed.

Lemma partition_tab_reachable st :
  MemoryManagementApp.partition_tab_state st →
  reachable positive_request 1024 st.
Proof.
  induction 1 as [|st pid memory_size algorithm _ IH|st pid _ IH].
  - apply reach_init.
  - unfold MemoryManagementApp._allocate_memory.
    case_bool_decide as Hsz; [exact IH|].
    pose proof (reach_allocate positive_request 1024 st
                  (Process.new pid memory_size None) algorithm IH) as Hr.
    destruct (allocate _ algorithm st) as [[ok msg] st']. simpl in *.
    apply Hr. unfold positive_request. simpl. lia.
  - unfold MemoryManagementApp._deallocate_memory.
    pose proof (reach_deallocate positive_request 1024 st pid IH) as Hr.
    destruct (deallocate pid st) as [[ok msg] st']. exact Hr.
Qed.

(** X6: whatever is typed into the partition tab, the partition manager of
    the application keeps its 1024 units laid out as a list of blocks that
    is ordered by start address, contiguous from 0, non-overlapping, of
    total size 1024, with no two adjacent free blocks and every block of
    positive size: [_allocate_memory] turns away the sizes that could
    break this before the engine sees them. *)
Theorem partition_tab_invariant st :
  MemoryManagementApp.partition_tab_state st →
  ordered_by_start (memory_blocks st)
  ∧ contiguous (memory_blocks st)
  ∧ non_overlapping (memory_blocks st)
  ∧ total_size (memory_blocks st) = 1024
  ∧ no_adjacent_free (memory_blocks st)
  ∧ Forall (λ b, 0 < MemoryBlock.size b) (memory_blocks st).
Proof.
  intros Ht. apply partition_tab_reachable in Ht.
  pose proof (reachable_invariant _ _ Ht) as Hinv.
  destruct (invariant_facts _ _ Hinv) as (H1 & H2 & H3 & H4 & H5).
  repeat (split; [assumption|]).
  destruct Hinv as [->|Hg]; [|apply Hg].
  repeat constructor.
Qed.

Lemma partition_tab_invariant_witness :
  let st := (MemoryManagementApp._deallocate_memory 1
               (MemoryManagementApp._allocate_memory 2 (-5) "best_fit"
                  (MemoryManagementApp._allocate_memory 1 100 "worst_fit"
                     (init 1024)).2).2).2 in
  ordered_by_start (memory_blocks st)
  ∧ contiguous (memory_blocks st)
  ∧ non_overlapping (memory_blocks st)
  ∧ total_size (memory_blocks st) = 1024
  ∧ no_adjacent_free (memory_blocks st)
  ∧ Forall (λ b, 0 < MemoryBlock.size b) (memory_blocks st).
Proof.
  apply partition_tab_invariant.
  apply MemoryManagementApp.tab_deallocate, MemoryManagementApp.tab_allocate,
    MemoryManagementApp.tab_allocate, MemoryManagementApp.tab_start.
Defined.


(** **** Fragmentation *)

Lemma alternating_length l :
  alternating l →
  (length l ≤ 2 * length (allocated_blocks l) + 1)%nat
  ∧ (∀ b, head l = Some b → MemoryBlock.allocated b = true →
          (length l ≤ 2 * length (allocated_blocks l))%nat).
Proof.
  induction l as [|b l IH]; intros Halt.
  - split; [simpl; lia|discriminate].
  - assert (Halt' : alternating l).
    { destruct l; [exact I|apply Halt]. }
    destruct (IH Halt') as (IH1 & IH2).
    destruct (MemoryBlock.allocated b) eqn:Hb.
    + rewrite allocated_blocks_cons_allocated by exact Hb. simpl.
      split; [lia|intros; lia].
    + rewrite allocated_blocks_cons_free by exact Hb.
      split; [|intros b' [= <-]; congruence].
      destruct l as [|b' l]; [simpl; lia|].
      destruct Halt as ([Hx|Hy] & _); [congruence|].
      specialize (IH2 b' eq_refl Hy). simpl in *. lia.
Qed.

Lemma invariant_alternating m st : invariant m st → alternating (memory_blocks st).
Proof. intros [->|Hg]; [exact I|apply Hg]. Qed.

Lemma free_plus_allocated l :
  (length (filter (λ b, MemoryBlock.allocated b = false) l)
   + length (allocated_blocks l) = length l)%nat.
Proof.
  induction l as [|b l IH]; [reflexivity|].
  destruct (MemoryBlock.allocated b) eqn:Hb.
  - rewrite allocated_blocks_cons_allocated by exact Hb.
    rewrite filter_cons_False by congruence. simpl. lia.
  - rewrite allocated_blocks_cons_free by exact Hb.
    rewrite filter_cons_True by exact Hb. simpl. lia.
Qed.

(** X7: external fragmentation is bounded by the number of processes: in
    every state reached by requests of positive size, the block list has at
    most two blocks per tracked process plus one, that is, at most one free
    block more than there are tracked processes. *)
Theorem block_count_bound m st :
  reachable positive_request m st →
  (length (memory_blocks st) ≤ 2 * size (processes st) + 1)%nat
  ∧ (length (filter (λ b, MemoryBlock.allocated b = false) (memory_blocks st))
     ≤ size (processes st) + 1)%nat.
Proof.
  intros Hr.
  pose proof (invariant_alternating _ _ (reachable_invariant _ _ Hr)) as Halt.
  pose proof (own_count _ (reachable_ownership _ _ _ Hr)) as Hcount.
  destruct (alternating_length _ Halt) as (Hlen & _).
  rewrite Hcount in Hlen. split; [exact Hlen|].
  pose proof (free_plus_allocated (memory_blocks st)) as Hsplit. lia.
Qed.

Lemma block_count_bound_witness :
  (length (memory_blocks PartitionRun.holes)
   ≤ 2 * size (processes PartitionRun.holes) + 1)%nat
  ∧ (length (filter (λ b, MemoryBlock.allocated b = false)
               (memory_blocks PartitionRun.holes))
     ≤ size (processes PartitionRun.holes) + 1)%nat.
Proof.
  apply (block_count_bound 1024 PartitionRun.holes).
  unfold PartitionRun.holes.
  repeat first
    [ apply reach_deallocate
    | apply reach_allocate; [|unfold positive_request; simpl; lia]
    | apply reach_init ].
Defined.


(** **** Allocation undone by deallocation *)

Lemma find_owned_app pid A rest : ∀ pre k,
  (∀ b, b ∈ pre → ¬ (MemoryBlock.allocated b = true
                     ∧ MemoryBlock.process_id b = Some pid)) →
  MemoryBlock.allocated A = true → MemoryBlock.process_id A = Some pid →
  find_owned pid k (pre ++ A :: rest) = Some ((k + length pre)%nat, A).
Proof.
  induction pre as [|c pre IH]; intros k Hpre Ha Hp; simpl.
  - rewrite Ha, bool_decide_eq_true_2 by exact Hp. simpl.
    replace (k + 0)%nat with k by lia. reflexivity.
  - destruct (MemoryBlock.allocated c
              && bool_decide (MemoryBlock.process_id c = Some pid)) eqn:E.
    + apply andb_true_iff in E as (Ec & Ep). apply bool_decide_eq_true in Ep.
      destruct (Hpre c); [left|auto].
    + rewrite IH; [f_equal; f_equal; lia| |exact Ha|exact Hp].
      intros b Hb. apply Hpre. right. exact Hb.
Qed.

Lemma sweep_list_prefix l1 : ∀ l2,
  alternating l1 →
  (∀ x, last l1 = Some x → MemoryBlock.allocated x = true) →
  sweep_list (l1 ++ l2) = l1 ++ sweep_list l2.
Proof.
  induction l1 as [|c l1 IH]; intros l2 Halt Hlast; [reflexivity|].
  destruct l1 as [|c' l1].
  - simpl. specialize (Hlast c eq_refl).
    destruct l2 as [|n l2]; [reflexivity|]. simpl. rewrite Hlast. reflexivity.
  - destruct Halt as (Hor & Halt).
    specialize (IH l2 Halt Hlast). simpl in IH |- *.
    assert (E : negb (MemoryBlock.allocated c)
                && negb (MemoryBlock.allocated c') = false).
    { destruct Hor as [-> | ->]; [reflexivity|apply andb_false_r]. }
    rewrite E, IH. reflexivity.
Qed.

(** X8: in a state reached by requests of positive size, a successful
    [allocate] followed by [deallocate] of the same process id succeeds and
    gives back exactly the state before the allocation: the split is
    undone by the merge and the process map is as it was. *)
Theorem allocate_then_deallocate m st p algorithm msg st1 :
  reachable positive_request m st →
  allocate p algorithm st = ((true, msg), st1) →
  deallocate (Process.pid p) st1 = ((true, Released (Process.pid p)), st).
Proof.
  intros Hr Halloc.
  pose proof (invariant_alternating _ _ (reachable_invariant _ _ Hr)) as Halt.
  destruct (reachable_ownership _ _ _ Hr) as [Hblock _ _ _ Hunowned].
  revert Halloc. unfold allocate. case_bool_decide as Hp; [discriminate|].
  assert (Hnone : processes st !! Process.pid p = None).
  { destruct (processes st !! Process.pid p) eqn:E; [|reflexivity].
    destruct Hp. eauto. }
  destruct (select algorithm _ _) as [[i b]|] eqn:Hsel; [|discriminate].
  intros [= <- <-].
  apply select_candidate in Hsel as (Hl & Hfree & Hreq).
  destruct (list_elem_of_split_length _ _ _ Hl) as (pre & post & Heq & ->).
  assert (Hb : b = MemoryBlock.new (MemoryBlock.start_addr b)
                     (MemoryBlock.size b) false None).
  { assert (Ho : MemoryBlock.process_id b = None).
    { apply Hunowned; [|exact Hfree]. rewrite Heq. apply elem_of_app.
      right. left. }
    destruct b as [s z a o]. simpl in *. subst. reflexivity. }
  rewrite Heq in Halt. apply alternating_app in Halt as (Halt1 & Halt2 & Hbound).
  assert (Hpre : ∀ c, c ∈ pre →
            ¬ (MemoryBlock.allocated c = true
               ∧ MemoryBlock.process_id c = Some (Process.pid p))).
  { intros c Hc (Ha & Hid).
    destruct (Hblock c) as (p0 & Hp0 & Hid0 & _).
    { apply allocated_blocks_elem. split; [|exact Ha].
      rewrite Heq. apply elem_of_app. auto. }
    assert (Process.pid p0 = Process.pid p) by congruence. congruence. }
  unfold deallocate. simpl.
  rewrite bool_decide_eq_false_2 by (rewrite lookup_insert_eq; discriminate).
  rewrite Heq, place_middle.
  rewrite (find_owned_app _ (allocated_block_for b p)) by (auto; reflexivity).
  replace (0 + length pre)%nat with (length pre) by lia.
  rewrite insert_middle, merge_sweep_list. simpl MemoryBlock.start_addr.
  simpl MemoryBlock.size.
  rewrite sweep_list_prefix; [|exact Halt1|].
  2:{ intros x Hx. destruct (Hbound x b Hx eq_refl); congruence. }
  rewrite delete_insert_id by exact Hnone.
  assert (Hsweep :
            sweep_list (MemoryBlock.new (MemoryBlock.start_addr b)
                          (Process.memory_size p) false None
                        :: remainder_for b p ++ post)
            = b :: post).
  { unfold remainder_for. case_bool_decide as Hgt; simpl.
    - unfold MemoryBlock.grow. simpl.
      replace (Process.memory_size p
               + (MemoryBlock.size b - Process.memory_size p))
        with (MemoryBlock.size b) by lia.
      rewrite <- Hb. apply sweep_alternating_id, Halt2.
    - replace (Process.memory_size p) with (MemoryBlock.size b) by lia.
      rewrite <- Hb. apply sweep_alternating_id, Halt2. }
  rewrite Hsweep, <- Heq. f_equal. clear. destruct st. reflexivity.
Qed.

Lemma allocate_then_deallocate_witness :
  deallocate 7 (allocate (PartitionRun.proc 7 100) "best_fit"
                  PartitionRun.holes).2
  = ((true, Released 7), PartitionRun.holes).
Proof.
  apply (allocate_then_deallocate 1024 PartitionRun.holes
           (PartitionRun.proc 7 100) "best_fit" (Allocated 7)).
  - unfold PartitionRun.holes.
    repeat first
      [ apply reach_deallocate
      | apply reach_allocate; [|unfold positive_request; simpl; lia]
      | apply reach_init ].
  - vm_compute. reflexivity.
Defined.

End PartitionFurther.


(** *** More about the paging engine *)
Section PagingFurther.
Import DynamicPaging PagingSpec PagingMore.

Lemma access_memory_shape page_no offset operation s :
  wf s →
  access_shape s page_no offset operation
    (access_memory page_no offset operation s).1
    (access_memory page_no offset operation s).2.
Proof.
  intros Hwf.
  destruct (page_table s !! page_no) as [page|] eqn:Hpage.
  2:{ rewrite access_memory_cases, Hpage. apply shape_out_of_range, Hpage. }
  destruct (Page.exists_ page) eqn:Hex.
  - rewrite access_memory_cases, Hpage, Hex.
    destruct (wf_resident _ Hwf page_no page Hpage Hex) as (f & Hf & Hfr).
    rewrite Hf. simpl. eapply shape_hit; eauto.
  - rewrite (access_fault_cases _ _ _ _ page Hpage Hex (wf_alloc_range _ Hwf)).
    destruct (free_frames s) as [|f rest] eqn:Hfree.
    + destruct (frame_queue s) as [|rf queue] eqn:Hq.
      { simpl. eapply shape_no_frame; eauto. }
      destruct (wf_queue_occupied _ Hwf rf) as (rp & Hrp); [rewrite Hq; left|].
      rewrite Hrp. destruct (page_table s !! rp) as [old|] eqn:Hold; simpl.
      * eapply shape_replace; eauto.
      * eapply shape_stale; eauto.
    + simpl. eapply shape_fill; eauto.
Qed.

(** **** The page table of a new job *)

Lemma fresh_page_table_seq disk (k : nat) p :
  foldl (λ pt i, <[Z.of_nat i := Page.new (Z.of_nat i) false None false (disk i)]> pt)
        (∅ : gmap Z Page.t) (seq 0 k) !! p
  = if bool_decide (0 ≤ p < Z.of_nat k)
    then Some (Page.new p false None false (disk (Z.to_nat p)))
    else None.
Proof.
  induction k as [|k IH].
  - simpl. rewrite lookup_empty, bool_decide_eq_false_2 by lia. reflexivity.
  - rewrite seq_S, foldl_app. simpl.
    destruct (decide (Z.of_nat k = p)) as [<-|Hne].
    + rewrite lookup_insert_eq, bool_decide_eq_true_2 by lia.
      rewrite Nat2Z.id. reflexivity.
    + rewrite lookup_insert_ne, IH by exact Hne.
      repeat case_bool_decide; try reflexivity; lia.
Qed.

Lemma fresh_page_table_lookup disk pages_count p :
  fresh_page_table disk pages_count !! p
  = if bool_decide (0 ≤ p < pages_count)
    then Some (Page.new p false None false (disk (Z.to_nat p)))
    else None.
Proof.
  unfold fresh_page_table. rewrite fresh_page_table_seq.
  repeat case_bool_decide; try reflexivity; lia.
Qed.

(** **** The layout facts are kept by every call *)

Lemma mark_page_no operation p : Page.page_no (mark operation p) = Page.page_no p.
Proof. unfold mark. destruct (is_store operation); reflexivity. Qed.

Lemma mark_disk_pos operation p : Page.disk_pos (mark operation p) = Page.disk_pos p.
Proof. unfold mark. destruct (is_store operation); reflexivity. Qed.

Lemma tidy_init memory_size page_size max_job_size s0 :
  init memory_size page_size max_job_size = Return s0 → tidy s0.
Proof.
  unfold init. case_bool_decide; [discriminate|]. intros [= <-].
  split; simpl.
  - apply length_replicate.
  - reflexivity.
  - intros p pg Hp. rewrite lookup_empty in Hp. discriminate.
  - intros p pg f Hp. rewrite lookup_empty in Hp. discriminate.
Qed.

Lemma tidy_fresh disk pages_count s fs q :
  tidy s →
  tidy (mk (memory_size s) (page_size s) (max_job_size s) (total_frames s)
           (frames s) q (fresh_page_table disk pages_count) fs
           (frame_queue s))
  ∧ ∀ j, tidy (mk (memory_size s) (page_size s) (max_job_size s)
                  (total_frames s) (frames s) j
                  (fresh_page_table disk pages_count) fs []).
Proof.
  intros [Hlen Htot Hkeys Hq].
  assert (Hfresh : ∀ p pg, fresh_page_table disk pages_count !! p = Some pg →
            Page.page_no pg = p ∧ 0 ≤ p ∧ Page.exists_ pg = false
            ∧ Page.frame_no pg = None).
  { intros p pg Hp. rewrite fresh_page_table_lookup in Hp.
    case_bool_decide; [|discriminate]. injection Hp as <-. simpl.
    repeat split; lia. }
  split; [|intros j]; split; simpl; auto.
  - intros p pg Hp. destruct (Hfresh p pg Hp) as (? & ? & ? & ?). auto.
  - intros p pg f Hp Hex. destruct (Hfresh p pg Hp) as (? & ? & ? & ?). congruence.
  - intros p pg Hp. destruct (Hfresh p pg Hp) as (? & ? & ? & ?). auto.
  - intros p pg f Hp Hex. destruct (Hfresh p pg Hp) as (? & ? & ? & ?). congruence.
Qed.

Lemma create_job_tidy job_id job_size n disk s :
  tidy s → tidy (create_job job_id job_size n disk s).2.
Proof.
  intros Ht. rewrite create_job_cases.
  repeat (case_bool_decide; [exact Ht|]). simpl.
  case_bool_decide; simpl.
  - apply (tidy_fresh disk _ s [] (current_job s) Ht).
  - apply (tidy_fresh disk _ s _ None Ht).
Qed.

(** The entry of page [p] after a fault on [page_no] served by frame [f],
    which held [held]. *)
Lemma table_after_fault operation page_no f held (pt : gmap Z Page.t) p pg :
  alter (mark operation) page_no
    (alter (Page.load f) page_no (evicting held pt)) !! p = Some pg →
  ∃ x, pt !! p = Some x
       ∧ Page.page_no pg = Page.page_no x
       ∧ Page.disk_pos pg = Page.disk_pos x
       ∧ ((p = page_no ∧ Page.exists_ pg = true ∧ Page.frame_no pg = Some f
           ∧ Page.modified pg = Page.modified x || is_store operation)
          ∨ (p ≠ page_no ∧ held = Some p ∧ pg = Page.evict x)
          ∨ (p ≠ page_no ∧ held ≠ Some p ∧ pg = x)).
Proof.
  intros Hp.
  assert (Hev : ∀ y, evicting held pt !! p = Some y →
            ∃ x, pt !! p = Some x
                 ∧ ((held = Some p ∧ y = Page.evict x)
                    ∨ (held ≠ Some p ∧ y = x))).
  { intros y Hy. destruct held as [rp|]; simpl in Hy; [|eauto 6].
    destruct (decide (rp = p)) as [->|Hne].
    - rewrite lookup_alter_eq in Hy.
      destruct (pt !! p) as [x|]; [|discriminate]. injection Hy as <-. eauto.
    - rewrite lookup_alter_ne in Hy by exact Hne. exists y.
      split; [exact Hy|]. right. split; [congruence|reflexivity]. }
  destruct (decide (page_no = p)) as [->|Hne].
  - rewrite !lookup_alter_eq in Hp.
    destruct (evicting held pt !! p) as [y|] eqn:Hy; [|discriminate].
    injection Hp as <-. destruct (Hev y eq_refl) as (x & Hx & Hcase).
    exists x. split; [exact Hx|].
    rewrite mark_page_no, mark_disk_pos, mark_exists, mark_frame_no. simpl.
    assert (Hm : Page.modified (mark operation (Page.load f y))
                 = Page.modified x || is_store operation).
    { unfold mark.
      destruct Hcase as [(_ & ->)|(_ & ->)];
        destruct (is_store operation); simpl;
        rewrite ?orb_true_r, ?orb_false_r; reflexivity. }
    destruct Hcase as [(_ & ->)|(_ & ->)]; simpl; auto 10.
  - rewrite !lookup_alter_ne in Hp by exact Hne.
    destruct (Hev pg Hp) as (x & Hx & Hcase). exists x.
    split; [exact Hx|].
    destruct Hcase as [(Hh & ->)|(Hh & ->)]; simpl; auto 10.
Qed.

Lemma table_after_fault_dom operation page_no f held (pt : gmap Z Page.t) p :
  is_Some (alter (mark operation) page_no
             (alter (Page.load f) page_no (evicting held pt)) !! p)
  ↔ is_Some (pt !! p).
Proof.
  rewrite !lookup_alter_is_Some. destruct held; simpl;
    [apply lookup_alter_is_Some|reflexivity].
Qed.

Lemma table_after_hit operation page_no (pt : gmap Z Page.t) p pg :
  alter (mark operation) page_no pt !! p = Some pg →
  ∃ x, pt !! p = Some x
       ∧ Page.page_no pg = Page.page_no x
       ∧ Page.disk_pos pg = Page.disk_pos x
       ∧ Page.exists_ pg = Page.exists_ x
       ∧ Page.frame_no pg = Page.frame_no x
       ∧ ((p = page_no
           ∧ Page.modified pg = Page.modified x || is_store operation)
          ∨ (p ≠ page_no ∧ pg = x)).
Proof.
  intros Hp. destruct (decide (page_no = p)) as [->|Hne].
  - rewrite lookup_alter_eq in Hp.
    destruct (pt !! p) as [x|]; [|discriminate]. injection Hp as <-.
    exists x. rewrite mark_page_no, mark_disk_pos, mark_exists, mark_frame_no.
    repeat (split; [reflexivity|]). left. split; [reflexivity|].
    unfold mark. destruct (is_store operation); simpl;
      rewrite ?orb_true_r, ?orb_false_r; reflexivity.
  - rewrite lookup_alter_ne in Hp by exact Hne. exists pg. auto 10.
Qed.

Lemma access_memory_tidy page_no offset operation s :
  wf s → tidy s → tidy (access_memory page_no offset operation s).2.
Proof.
  intros Hwf Ht.
  pose proof (access_memory_shape page_no offset operation s Hwf) as Hshape.
  destruct Ht as [Hlen Htot Hkeys Hq].
  destruct Hshape as [Hnone|page f Hpage Hex Hf Hfr|page f rest Hpage Hex Hfree
                      |page rf queue rp old Hpage Hex Hfree Hqueue Hrf Hold
                      |page rf queue rp Hpage Hex Hfree Hqueue Hrf Hold
                      |page Hpage Hex Hfree Hqueue].
  - split; assumption.
  - split; simpl; auto.
    + intros p pg Hp.
      destruct (table_after_hit _ _ _ _ _ Hp) as (x & Hx & -> & _ & -> & -> & _).
      eauto.
    + intros p pg f' Hp.
      destruct (table_after_hit _ _ _ _ _ Hp) as (x & Hx & _ & _ & -> & -> & _).
      eauto.
  - split; simpl; auto.
    + rewrite length_insert. exact Hlen.
    + intros p pg Hp.
      destruct (table_after_fault _ _ _ None _ _ _ Hp)
        as (x & Hx & -> & _ & [(-> & Hexp & _)|[(_ & Hh & _)|(_ & _ & ->)]]);
        [|discriminate|eauto].
      destruct (Hkeys page_no x Hx) as (? & ? & _).
      split; [assumption|]. split; [assumption|congruence].
    + intros p pg f' Hp Hexp Hfn. apply elem_of_app.
      destruct (table_after_fault _ _ _ None _ _ _ Hp)
        as (x & Hx & _ & _ & [(-> & _ & Hfn' & _)|[(_ & Hh & _)|(_ & _ & ->)]]);
        [|discriminate|left; eauto].
      right. assert (f' = f) by congruence. subst. left.
  - split; simpl; auto.
    + rewrite length_insert. exact Hlen.
    + intros p pg Hp.
      destruct (table_after_fault _ _ _ (Some rp) _ _ _ Hp)
        as (x & Hx & -> & _ & [(-> & Hexp & _)|[(_ & Hh & ->)|(_ & _ & ->)]]);
        [| |eauto].
      * destruct (Hkeys page_no x Hx) as (? & ? & _).
        split; [assumption|]. split; [assumption|congruence].
      * destruct (Hkeys p x Hx) as (? & ? & _). simpl. auto.
    + intros p pg f' Hp Hexp Hfn. apply elem_of_app.
      destruct (table_after_fault _ _ _ (Some rp) _ _ _ Hp)
        as (x & Hx & _ & _ & [(-> & _ & Hfn' & _)|[(_ & Hh & ->)|(_ & Hh & ->)]]).
      * right. assert (f' = rf) by congruence. subst. left.
      * discriminate.
      * pose proof (Hq p x f' Hx Hexp Hfn) as Hin. rewrite Hqueue in Hin.
        apply elem_of_cons in Hin as [->|Hin]; [|left; exact Hin].
        destruct (wf_resident _ Hwf p x Hx Hexp) as (f'' & Hf'' & Hfr).
        congruence.
  - split; simpl; auto.
    intros p pg f' Hp Hexp Hfn.
    pose proof (Hq p pg f' Hp Hexp Hfn) as Hin. rewrite Hqueue in Hin.
    apply elem_of_cons in Hin as [->|Hin]; [|exact Hin].
    destruct (wf_resident _ Hwf p pg Hp Hexp) as (f'' & Hf'' & Hfr).
    congruence.
  - split; assumption.
Qed.

Lemma reachable_tidy s : reachable s → tidy s.
Proof.
  induction 1 as [ms ps mj s0 H0|s job_id job_size n disk Hr IH
                 |s page_no offset operation Hr IH].
  - eapply tidy_init, H0.
  - apply create_job_tidy, IH.
  - apply access_memory_tidy; [apply reachable_wf, Hr|exact IH].
Qed.

(** **** What [create_job] answers and builds *)

(** X9: on a reachable state [create_job] never raises and answers by
    priority: too large a job, then more frames than the machine has, then
    more frames than are empty, else success.  On success the frame table
    is untouched, the FIFO queue is empty, the job descriptor is stored,
    the allocated frames are the [n] lowest empty frames, and the page
    table holds exactly the pages [0 .. pages_count - 1], each
    non-resident, unmodified, without frame and with its drawn disk tag. *)
Theorem create_job_outcome s job_id job_size n disk :
  reachable s →
  let r := create_job job_id job_size n disk s in
  let pages_count := (job_size + page_size s - 1) `div` page_size s in
  (job_size > max_job_size s →
   r = (Return (false, JobTooLarge (max_job_size s)), s))
  ∧ (job_size ≤ max_job_size s → n > total_frames s →
     r = (Return (false, TooManyFrames (total_frames s)), s))
  ∧ (job_size ≤ max_job_size s → n ≤ total_frames s →
     Z.of_nat (empty_count s) < n → r.1 = Return (false, OutOfFrames))
  ∧ (job_size ≤ max_job_size s → n ≤ total_frames s →
     n ≤ Z.of_nat (empty_count s) →
     r.1 = Return (true, JobCreated job_id n)
     ∧ frames r.2 = frames s
     ∧ frame_queue r.2 = []
     ∧ current_job r.2 = Some (Job.new job_id job_size pages_count n)
     ∧ allocated_frames r.2 = take (Z.to_nat n) (empty_frames (frames s))
     ∧ length (allocated_frames r.2) = Z.to_nat n
     ∧ (∀ f, f ∈ allocated_frames r.2 → frames s !! f = Some None)
     ∧ ∀ p, page_table r.2 !! p
            = if bool_decide (0 ≤ p < pages_count)
              then Some (Page.new p false None false (disk (Z.to_nat p)))
              else None).
Proof.
  intros Hr r pages_count. subst r pages_count.
  pose proof (wf_page_size _ (reachable_wf s Hr)) as Hps.
  rewrite create_job_cases. unfold empty_count.
  split; [|split; [|split]].
  - intros H. rewrite bool_decide_eq_true_2 by exact H. reflexivity.
  - intros H1 H2. rewrite bool_decide_eq_false_2 by lia.
    rewrite bool_decide_eq_true_2 by exact H2. reflexivity.
  - intros H1 H2 H3. rewrite !bool_decide_eq_false_2 by (lia || exact Hps).
    rewrite (bool_decide_eq_true_2 _ H3). reflexivity.
  - intros H1 H2 H3. rewrite !bool_decide_eq_false_2 by (lia || exact Hps).
    cbn [fst snd].
    cbn [frames frame_queue current_job allocated_frames page_table].
    repeat (split; [reflexivity|]).
    split; [rewrite length_take; lia|]. split.
    + intros f Hf. apply subseteq_take in Hf.
      pose proof (empty_frames_empty (frames s)) as He.
      rewrite Forall_forall in He. exact (He f Hf).
    + intros p. apply fresh_page_table_lookup.
Qed.

Lemma create_job_outcome_witness :
  let r := create_job "j1" 2048 64 PagingRun.disk PagingRun.app in
  let pages_count :=
    (2048 + page_size PagingRun.app - 1) `div` page_size PagingRun.app in
  (2048 > max_job_size PagingRun.app →
   r = (Return (false, JobTooLarge (max_job_size PagingRun.app)), PagingRun.app))
  ∧ (2048 ≤ max_job_size PagingRun.app → 64 > total_frames PagingRun.app →
     r = (Return (false, TooManyFrames (total_frames PagingRun.app)),
          PagingRun.app))
  ∧ (2048 ≤ max_job_size PagingRun.app → 64 ≤ total_frames PagingRun.app →
     Z.of_nat (empty_count PagingRun.app) < 64 →
     r.1 = Return (false, OutOfFrames))
  ∧ (2048 ≤ max_job_size PagingRun.app → 64 ≤ total_frames PagingRun.app →
     64 ≤ Z.of_nat (empty_count PagingRun.app) →
     r.1 = Return (true, JobCreated "j1" 64)
     ∧ frames r.2 = frames PagingRun.app
     ∧ frame_queue r.2 = []
     ∧ current_job r.2 = Some (Job.new "j1" 2048 pages_count 64)
     ∧ allocated_frames r.2
       = take (Z.to_nat 64) (empty_frames (frames PagingRun.app))
     ∧ length (allocated_frames r.2) = Z.to_nat 64
     ∧ (∀ f, f ∈ allocated_frames r.2 → frames PagingRun.app !! f = Some None)
     ∧ ∀ p, page_table r.2 !! p
            = if bool_decide (0 ≤ p < pages_count)
              then Some (Page.new p false None false
                           (PagingRun.disk (Z.to_nat p)))
              else None).
Proof.
  apply (create_job_outcome PagingRun.app "j1" 2048 64 PagingRun.disk).
  apply (reach_init 64 1 64). reflexivity.
Defined.

Lemma ceil_div_lt p j ps :
  0 < ps → (p < (j + ps - 1) `div` ps ↔ p * ps < j).
Proof.
  intros Hps.
  pose proof (Z.div_mod (j + ps - 1) ps ltac:(lia)) as Hdm.
  pose proof (Z.mod_pos_bound (j + ps - 1) ps Hps) as Hmod.
  split; intros H; nia.
Qed.

(** X10: when the page size is positive, the page table of a newly
    created job holds page [p] exactly when [p] is non-negative and the
    page starts below the job size; so every address of the job lies in a
    page of the table and the table has no page beyond the job. *)
Theorem page_table_covers_job s job_id job_size n disk msg s' :
  reachable s → 0 < page_size s →
  create_job job_id job_size n disk s = (Return (true, msg), s') →
  (∀ p, is_Some (page_table s' !! p) ↔ 0 ≤ p ∧ p * page_size s < job_size)
  ∧ ∀ a, 0 ≤ a < job_size → is_Some (page_table s' !! (a `div` page_size s)).
Proof.
  intros Hr Hps Hc.
  assert (Hpt : page_table s'
                = fresh_page_table disk
                    ((job_size + page_size s - 1) `div` page_size s)).
  { revert Hc. rewrite create_job_cases.
    repeat (case_bool_decide; [discriminate|]). simpl. intros [= _ <-].
    reflexivity. }
  assert (Hiff : ∀ p, is_Some (page_table s' !! p)
                      ↔ 0 ≤ p ∧ p * page_size s < job_size).
  { intros p. rewrite Hpt, fresh_page_table_lookup.
    rewrite <- (ceil_div_lt p job_size (page_size s) Hps).
    case_bool_decide as Hb; split.
    - intros _. exact Hb.
    - intros _. eauto.
    - intros (x & Hx). discriminate.
    - intros Hc'. destruct Hb. exact Hc'. }
  split; [exact Hiff|]. intros a Ha. apply Hiff.
  pose proof (Z.div_mod a (page_size s) ltac:(lia)) as Hdm.
  pose proof (Z.mod_pos_bound a (page_size s) Hps) as Hmod.
  split; [apply Z.div_pos; lia|nia].
Qed.

Lemma page_table_covers_job_witness :
  (∀ p, is_Some (page_table
                   (create_job "j" 2500 2 PagingRun.disk PagingRun.app).2 !! p)
        ↔ 0 ≤ p ∧ p * page_size PagingRun.app < 2500)
  ∧ ∀ a, 0 ≤ a < 2500 →
         is_Some (page_table
                    (create_job "j" 2500 2 PagingRun.disk PagingRun.app).2
                  !! (a `div` page_size PagingRun.app)).
Proof.
  apply (page_table_covers_job PagingRun.app "j" 2500 2 PagingRun.disk
           (JobCreated "j" 2)).
  - apply (reach_init 64 1 64). reflexivity.
  - reflexivity.
  - vm_compute. reflexivity.
Defined.


(** **** What an access keeps and what it changes *)

Lemma set_page_table_id s : set_page_table (page_table s) s = s.
Proof. destruct s. reflexivity. Qed.

Lemma mark_load operation p : is_store operation = false → mark operation p = p.
Proof. intros H. unfold mark. rewrite H. reflexivity. Qed.

(** X11: once an access has returned an address, the same page and offset
    accessed again, with any operation, returns the same address without a
    page fault and without an eviction report; and if that operation is
    not a store the second access changes nothing at all. *)
Theorem access_again_hits s page_no offset operation addr fault i s' :
  reachable s →
  access_memory page_no offset operation s = (Return (Some addr, fault, i), s') →
  ∀ operation',
    (access_memory page_no offset operation' s').1
    = Return (Some addr, false, NoInfo)
    ∧ (is_store operation' = false →
       (access_memory page_no offset operation' s').2 = s').
Proof.
  intros Hr Ha operation'.
  pose proof (access_memory_shape page_no offset operation s (reachable_wf s Hr))
    as Hshape.
  rewrite Ha in Hshape. simpl in Hshape.
  assert (Hres : ∃ pg f, page_table s' !! page_no = Some pg
                         ∧ Page.exists_ pg = true ∧ Page.frame_no pg = Some f
                         ∧ addr = Z.of_nat f * page_size s' + offset).
  { inversion Hshape as [|page f Hpage Hex Hf Hfr|page f rest Hpage Hex Hfree
                         |page rf queue rp old Hpage Hex Hfree Hq Hrf Hold| |];
      subst; simpl.
    - exists (mark operation page), f.
      rewrite lookup_alter_eq, Hpage, mark_exists, mark_frame_no. auto.
    - exists (mark operation (Page.load f page)), f.
      rewrite !lookup_alter_eq, Hpage, mark_exists, mark_frame_no. auto.
    - destruct (alter Page.evict rp (page_table s) !! page_no) as [y|] eqn:Hy.
      + exists (mark operation (Page.load rf y)), rf.
        rewrite !lookup_alter_eq, Hy, mark_exists, mark_frame_no. auto.
      + apply eq_None_not_Some in Hy. destruct Hy.
        apply lookup_alter_is_Some. eauto. }
  destruct Hres as (pg & f & Hpg & Hex & Hf & ->).
  rewrite access_memory_cases, Hpg, Hex, Hf. simpl.
  split; [reflexivity|]. intros Hload.
  rewrite (alter_ext (mark operation') id) by (intros; apply mark_load, Hload).
  rewrite alter_id by reflexivity. apply set_page_table_id.
Qed.

Lemma access_again_hits_witness :
  (access_memory 1 5 "load"
     (access_memory 1 5 "load" PagingRun.one_frame).2).1
  = Return (Some 5, false, NoInfo)
  ∧ (is_store "load" = false →
     (access_memory 1 5 "load"
        (access_memory 1 5 "load" PagingRun.one_frame).2).2
     = (access_memory 1 5 "load" PagingRun.one_frame).2).
Proof.
  refine (access_again_hits PagingRun.one_frame 1 5 "load" 5 true (Evicted 0)
            _ _ _ "load").
  - unfold PagingRun.one_frame.
    apply reach_access_memory, reach_create_job.
    apply (reach_init 64 1 64). reflexivity.
  - vm_compute. reflexivity.
Defined.

(** X12: an access never clears a modified flag and changes at most the
    flag of the accessed page: a load-like operation leaves every flag as
    it is, and a store that returns an address leaves the accessed page
    modified. *)
Theorem access_modified_flags s page_no offset operation q pg :
  reachable s →
  page_table s !! q = Some pg →
  ∃ pg', page_table (access_memory page_no offset operation s).2 !! q = Some pg'
         ∧ (Page.modified pg = true → Page.modified pg' = true)
         ∧ (is_store operation = false → Page.modified pg' = Page.modified pg)
         ∧ (q ≠ page_no → Page.modified pg' = Page.modified pg)
         ∧ (∀ addr fault i,
              (access_memory page_no offset operation s).1
              = Return (Some addr, fault, i) →
              q = page_no → is_store operation = true →
              Page.modified pg' = true).
Proof.
  intros Hr Hq.
  pose proof (access_memory_shape page_no offset operation s (reachable_wf s Hr))
    as Hshape.
  destruct (access_memory page_no offset operation s) as [r s']. simpl in *.
  assert (Hfault : ∀ f held,
            ∃ pg', alter (mark operation) page_no
                     (alter (Page.load f) page_no
                        (evicting held (page_table s))) !! q = Some pg'
                   ∧ (Page.modified pg = true → Page.modified pg' = true)
                   ∧ (is_store operation = false →
                      Page.modified pg' = Page.modified pg)
                   ∧ (q ≠ page_no → Page.modified pg' = Page.modified pg)
                   ∧ (q = page_no → is_store operation = true →
                      Page.modified pg' = true)).
  { intros f held.
    destruct (proj2 (table_after_fault_dom operation page_no f held
                       (page_table s) q)) as (pg' & Hpg'); [eauto|].
    exists pg'. split; [exact Hpg'|].
    destruct (table_after_fault _ _ _ _ _ _ _ Hpg')
      as (x & Hx & _ & _ & [(-> & _ & _ & Hm)|[(Hne & _ & ->)|(Hne & _ & ->)]]);
      rewrite Hq in Hx; injection Hx as <-; simpl.
    - rewrite Hm. split; [intros ->; reflexivity|].
      split; [intros ->; apply orb_false_r|].
      split; [congruence|]. intros _ ->. apply orb_true_r.
    - repeat split; intros; (congruence || auto).
    - repeat split; intros; (congruence || auto). }
  destruct Hshape as [Hnone|page f Hpage Hex Hf Hfr|page f rest Hpage Hex Hfree
                      |page rf queue rp old Hpage Hex Hfree Hqueue Hrf Hold
                      |page rf queue rp Hpage Hex Hfree Hqueue Hrf Hold
                      |page Hpage Hex Hfree Hqueue]; simpl.
  - exists pg. repeat (split; [auto|]). discriminate.
  - destruct (lookup_alter_is_Some (mark operation) (page_table s) page_no q)
      as (_ & (pg' & Hpg')); [eauto|].
    exists pg'. split; [exact Hpg'|].
    destruct (table_after_hit _ _ _ _ _ Hpg')
      as (x & Hx & _ & _ & _ & _ & [(-> & Hm)|(Hne & ->)]);
      rewrite Hq in Hx; injection Hx as <-.
    + rewrite Hm. split; [intros ->; reflexivity|].
      split; [intros ->; apply orb_false_r|].
      split; [congruence|]. intros _ _ _ _ _ ->. apply orb_true_r.
    + repeat split; intros; (congruence || auto).
  - destruct (Hfault f None) as (pg' & H1 & H2 & H3 & H4 & H5).
    exists pg'. repeat (split; [assumption|]). eauto.
  - destruct (Hfault rf (Some rp)) as (pg' & H1 & H2 & H3 & H4 & H5).
    exists pg'. repeat (split; [assumption|]). eauto.
  - exists pg. repeat (split; [auto|]). discriminate.
  - exists pg. repeat (split; [auto|]). discriminate.
Qed.

Lemma access_modified_flags_witness :
  ∃ pg', page_table (access_memory 1 5 "load" PagingRun.one_frame).2 !! 0
         = Some pg'
         ∧ (Page.modified (Page.new 0 true (Some 0%nat) true "000") = true →
            Page.modified pg' = true)
         ∧ (is_store "load" = false →
            Page.modified pg'
            = Page.modified (Page.new 0 true (Some 0%nat) true "000"))
         ∧ (0 ≠ 1 →
            Page.modified pg'
            = Page.modified (Page.new 0 true (Some 0%nat) true "000"))
         ∧ (∀ addr fault i,
              (access_memory 1 5 "load" PagingRun.one_frame).1
              = Return (Some addr, fault, i) →
              0 = 1 → is_store "load" = true → Page.modified pg' = true).
Proof.
  apply (access_modified_flags PagingRun.one_frame 1 5 "load" 0
           (Page.new 0 true (Some 0%nat) true "000")).
  - unfold PagingRun.one_frame.
    apply reach_access_memory, reach_create_job.
    apply (reach_init 64 1 64). reflexivity.
  - vm_compute. reflexivity.
Defined.


(** X13: an access never changes the configuration, the job descriptor,
    the allocated-frame list or the size of the frame table; it never adds
    a page to the page table nor removes one; and it never changes the
    page number or the disk position stored in an entry. *)
Theorem access_keeps_layout s page_no offset operation :
  reachable s →
  let s' := (access_memory page_no offset operation s).2 in
  memory_size s' = memory_size s ∧ page_size s' = page_size s
  ∧ max_job_size s' = max_job_size s ∧ total_frames s' = total_frames s
  ∧ current_job s' = current_job s
  ∧ allocated_frames s' = allocated_frames s
  ∧ length (frames s') = length (frames s)
  ∧ (∀ p, is_Some (page_table s' !! p) ↔ is_Some (page_table s !! p))
  ∧ ∀ p pg pg', page_table s !! p = Some pg → page_table s' !! p = Some pg' →
                Page.page_no pg' = Page.page_no pg
                ∧ Page.disk_pos pg' = Page.disk_pos pg.
Proof.
  intros Hr s'. subst s'.
  pose proof (access_memory_shape page_no offset operation s (reachable_wf s Hr))
    as Hshape.
  destruct (access_memory page_no offset operation s) as [r s']. simpl in *.
  destruct Hshape as [Hnone|page f Hpage Hex Hf Hfr|page f rest Hpage Hex Hfree
                      |page rf queue rp old Hpage Hex Hfree Hqueue Hrf Hold
                      |page rf queue rp Hpage Hex Hfree Hqueue Hrf Hold
                      |page Hpage Hex Hfree Hqueue]; simpl;
    repeat (split; [reflexivity || apply length_insert|]).
  - intros p pg pg' H1 H2. split; congruence.
  - split; [intros p; apply lookup_alter_is_Some|].
    intros p pg pg' H1 H2.
    destruct (table_after_hit _ _ _ _ _ H2) as (x & Hx & -> & -> & _).
    split; congruence.
  - split; [intros p; apply (table_after_fault_dom _ _ _ None)|].
    intros p pg pg' H1 H2.
    destruct (table_after_fault _ _ _ None _ _ _ H2) as (x & Hx & -> & -> & _).
    split; congruence.
  - split; [intros p; apply (table_after_fault_dom _ _ _ (Some rp))|].
    intros p pg pg' H1 H2.
    destruct (table_after_fault _ _ _ (Some rp) _ _ _ H2)
      as (x & Hx & -> & -> & _).
    split; congruence.
  - intros p pg pg' H1 H2. split; congruence.
  - intros p pg pg' H1 H2. split; congruence.
Qed.

Lemma access_keeps_layout_witness :
  let s' := (access_memory 1 5 "save" PagingRun.one_frame).2 in
  memory_size s' = memory_size PagingRun.one_frame
  ∧ page_size s' = page_size PagingRun.one_frame
  ∧ max_job_size s' = max_job_size PagingRun.one_frame
  ∧ total_frames s' = total_frames PagingRun.one_frame
  ∧ current_job s' = current_job PagingRun.one_frame
  ∧ allocated_frames s' = allocated_frames PagingRun.one_frame
  ∧ length (frames s') = length (frames PagingRun.one_frame)
  ∧ (∀ p, is_Some (page_table s' !! p)
          ↔ is_Some (page_table PagingRun.one_frame !! p))
  ∧ ∀ p pg pg', page_table PagingRun.one_frame !! p = Some pg →
                page_table s' !! p = Some pg' →
                Page.page_no pg' = Page.page_no pg
                ∧ Page.disk_pos pg' = Page.disk_pos pg.
Proof.
  apply (access_keeps_layout PagingRun.one_frame 1 5 "save").
  unfold PagingRun.one_frame.
  apply reach_access_memory, reach_create_job.
  apply (reach_init 64 1 64). reflexivity.
Defined.

(** **** Frames are never given back *)

Lemma empty_frames_length_gen (fs : list (option Z)) : ∀ k,
  length (filter (λ ifr : nat * option Z, ifr.2 = None)
            (imap (λ i x, ((k + i)%nat, x)) fs)).*1
  = length (filter (λ x : option Z, x = None) fs).
Proof.
  induction fs as [|x fs IH]; intros k; [reflexivity|].
  rewrite imap_cons.
  assert (Heq : imap ((λ i x0, ((k + i)%nat, x0)) ∘ S) fs
                = imap (λ i x0, ((S k + i)%nat, x0)) fs).
  { apply imap_ext. intros i y _. simpl. f_equal. lia. }
  rewrite Heq, !filter_cons.
  destruct (decide (((k + 0)%nat, x).2 = None)) as [Hx|Hx];
    destruct (decide (x = None)) as [Hy|Hy]; simpl in Hx; try contradiction;
    rewrite ?fmap_cons; cbn [length]; rewrite IH; reflexivity.
Qed.

Lemma empty_frames_length fs :
  length (empty_frames fs) = length (filter (λ x : option Z, x = None) fs).
Proof. exact (empty_frames_length_gen fs 0). Qed.

Lemma filter_none_insert (fs : list (option Z)) : ∀ f v,
  (length (filter (λ x : option Z, x = None) (<[f := Some v]> fs))
   ≤ length (filter (λ x : option Z, x = None) fs))%nat.
Proof.
  induction fs as [|x fs IH]; intros f v; [simpl; lia|].
  destruct f as [|f]; simpl.
  - rewrite filter_cons_False by discriminate.
    rewrite filter_cons. destruct (decide (x = None)); simpl; lia.
  - rewrite !filter_cons. specialize (IH f v).
    destruct (decide (x = None)); simpl; lia.
Qed.

Lemma occupied_insert (fs : list (option Z)) f g v p :
  fs !! g = Some (Some p) → ∃ p', <[f := Some v]> fs !! g = Some (Some p').
Proof.
  intros Hg. destruct (decide (f = g)) as [->|Hne].
  - exists v. apply list_lookup_insert_eq. eapply lookup_lt_Some, Hg.
  - exists p. rewrite list_lookup_insert_ne by exact Hne. exact Hg.
Qed.

(** X14: no call ever empties a frame: a frame slot that holds a page
    still holds a page after any [create_job] or [access_memory] call,
    [create_job] leaves the frame table as it is, and the number of empty
    frame slots never grows. *)
Theorem frames_never_freed s :
  reachable s →
  (∀ job_id job_size n disk,
     frames (create_job job_id job_size n disk s).2 = frames s)
  ∧ ∀ page_no offset operation,
      let s' := (access_memory page_no offset operation s).2 in
      (∀ f p, frames s !! f = Some (Some p) →
              ∃ p', frames s' !! f = Some (Some p'))
      ∧ (empty_count s' ≤ empty_count s)%nat.
Proof.
  intros Hr. split.
  - intros job_id job_size n disk. rewrite create_job_cases.
    repeat (case_bool_decide; [reflexivity|]). reflexivity.
  - intros page_no offset operation s'. subst s'.
    pose proof (access_memory_shape page_no offset operation s
                  (reachable_wf s Hr)) as Hshape.
    destruct (access_memory page_no offset operation s) as [r s'].
    unfold empty_count. rewrite !empty_frames_length. simpl in *.
    destruct Hshape; simpl;
      (split; [intros g p Hg; eauto using occupied_insert
              |(reflexivity || lia || apply filter_none_insert)]).
Qed.

Lemma frames_never_freed_witness :
  (∀ job_id job_size n disk,
     frames (create_job job_id job_size n disk PagingRun.two_pages).2
     = frames PagingRun.two_pages)
  ∧ ∀ page_no offset operation,
      let s' := (access_memory page_no offset operation PagingRun.two_pages).2 in
      (∀ f p, frames PagingRun.two_pages !! f = Some (Some p) →
              ∃ p', frames s' !! f = Some (Some p'))
      ∧ (empty_count s' ≤ empty_count PagingRun.two_pages)%nat.
Proof.
  apply (frames_never_freed PagingRun.two_pages).
  unfold PagingRun.two_pages.
  do 2 apply reach_access_memory. apply reach_create_job.
  apply (reach_init 64 1 64). reflexivity.
Defined.


(** **** Addresses *)

(** X15: with a positive page size and an offset inside the page, an
    address returned by [access_memory] lies inside physical memory and
    inside the frame that now holds the page: the frame is a slot of the
    frame table, the address divided by the page size is the frame index
    and the remainder is the offset. *)
Theorem physical_address_bounds s page_no offset operation addr fault i :
  reachable s → 0 < page_size s → 0 ≤ offset < page_size s →
  (access_memory page_no offset operation s).1 = Return (Some addr, fault, i) →
  0 ≤ addr < memory_size s
  ∧ ∃ f, frames (access_memory page_no offset operation s).2 !! f
         = Some (Some page_no)
         ∧ addr = Z.of_nat f * page_size s + offset
         ∧ addr `div` page_size s = Z.of_nat f
         ∧ addr `mod` page_size s = offset.
Proof.
  intros Hr Hps Hoff Ha.
  pose proof (reachable_wf s Hr) as Hwf.
  destruct (reachable_tidy s Hr) as [Hlen Htot _ _].
  pose proof (access_memory_shape page_no offset operation s Hwf) as Hshape.
  destruct (access_memory page_no offset operation s) as [r s']. simpl in *.
  subst r.
  assert (Hf : ∃ f, frames s' !! f = Some (Some page_no)
                    ∧ (f < length (frames s))%nat
                    ∧ addr = Z.of_nat f * page_size s + offset).
  { inversion Hshape as [|page f Hpage Hex Hfn Hfr|page f rest Hpage Hex Hfree
                         |page rf queue rp old Hpage Hex Hfree Hq Hrf Hold| |];
      subst; simpl.
    - exists f. split; [exact Hfr|]. split; [eapply lookup_lt_Some, Hfr|reflexivity].
    - assert (Hin : f ∈ free_frames s) by (rewrite Hfree; left).
      apply list_elem_of_filter in Hin as (Hnone & _).
      apply lookup_lt_Some in Hnone. exists f.
      split; [apply list_lookup_insert_eq, Hnone|auto].
    - apply lookup_lt_Some in Hrf. exists rf.
      split; [apply list_lookup_insert_eq, Hrf|auto]. }
  destruct Hf as (f & Hfr & Hlt & ->).
  assert (Hslot : Z.of_nat f + 1 ≤ memory_size s `div` page_size s) by lia.
  pose proof (Z.mul_div_le (memory_size s) (page_size s) Hps) as Hms.
  split; [nia|]. exists f. split; [exact Hfr|]. split; [reflexivity|].
  split.
  - symmetry. apply (Z.div_unique _ _ _ offset); [left; exact Hoff|lia].
  - symmetry. apply (Z.mod_unique _ _ (Z.of_nat f)); [left; exact Hoff|lia].
Qed.

Lemma physical_address_bounds_witness :
  0 ≤ 1029 < memory_size PagingRun.two_pages
  ∧ ∃ f, frames (access_memory 0 5 "load" PagingRun.two_pages).2 !! f
         = Some (Some 0)
         ∧ 1029 = Z.of_nat f * page_size PagingRun.two_pages + 5
         ∧ 1029 `div` page_size PagingRun.two_pages = Z.of_nat f
         ∧ 1029 `mod` page_size PagingRun.two_pages = 5.
Proof.
  apply (physical_address_bounds PagingRun.two_pages 0 5 "load" 1029 false NoInfo).
  - unfold PagingRun.two_pages.
    do 2 apply reach_access_memory. apply reach_create_job.
    apply (reach_init 64 1 64). reflexivity.
  - reflexivity.
  - vm_compute. split; [discriminate|reflexivity].
  - vm_compute. reflexivity.
Defined.

(** **** How many pages can be resident *)

Lemma resident_pages_lookup s p pg :
  resident_pages s !! p = Some pg
  ↔ page_table s !! p = Some pg ∧ Page.exists_ pg = true.
Proof. unfold resident_pages. apply map_lookup_filter_Some. Qed.

Lemma resident_le_queue s :
  wf s → tidy s → (size (resident_pages s) ≤ length (frame_queue s))%nat.
Proof.
  intros Hwf Ht.
  set (frame_of := λ kv : Z * Page.t, default 0%nat (Page.frame_no kv.2)).
  rewrite <- length_map_to_list.
  rewrite <- (length_fmap frame_of).
  apply submseteq_length, NoDup_submseteq.
  - apply NoDup_fmap_2_strong; [|apply NoDup_map_to_list].
    intros [p pg] [p' pg'] Hx Hy Heq.
    apply elem_of_map_to_list, resident_pages_lookup in Hx as (Hp & Hex).
    apply elem_of_map_to_list, resident_pages_lookup in Hy as (Hp' & Hex').
    destruct (wf_resident _ Hwf p pg Hp Hex) as (f & Hf & Hfr).
    destruct (wf_resident _ Hwf p' pg' Hp' Hex') as (f' & Hf' & Hfr').
    unfold frame_of in Heq. simpl in Heq. rewrite Hf, Hf' in Heq. simpl in Heq.
    subst f'. assert (p = p') by congruence. subst p'.
    f_equal. congruence.
  - intros f Hf. apply list_elem_of_fmap in Hf as ([p pg] & -> & Hin).
    apply elem_of_map_to_list, resident_pages_lookup in Hin as (Hp & Hex).
    destruct (wf_resident _ Hwf p pg Hp Hex) as (f & Hf & _).
    unfold frame_of. simpl. rewrite Hf. simpl.
    exact (tidy_queued _ Ht p pg f Hp Hex Hf).
Qed.

Lemma coherent_queue_allocated s :
  coherent s → ∀ f, f ∈ frame_queue s → f ∈ allocated_frames s.
Proof.
  induction 1 as [ms ps mj s0 H0|s job_id job_size n disk s' Hr Hc
                 |s job_id job_size n disk Hc IH Hne
                 |s page_no offset operation Hc IH].
  - revert H0. unfold init. case_bool_decide; [discriminate|]. intros [= <-].
    intros f Hf. inversion Hf.
  - revert Hc. rewrite create_job_cases.
    repeat (case_bool_decide; [discriminate|]). intros [= <-].
    intros f Hf. inversion Hf.
  - revert Hne. rewrite create_job_cases.
    repeat (case_bool_decide; [intros _; exact IH|]).
    case_bool_decide; simpl; [congruence|]. intros _ f Hf. inversion Hf.
  - pose proof (access_memory_shape page_no offset operation s
                  (settled_wf _ (coherent_settled s Hc))) as Hshape.
    destruct (access_memory page_no offset operation s) as [r s']. simpl in *.
    destruct Hshape as [Hnone|page f Hpage Hex Hf Hfr|page f rest Hpage Hex Hfree
                        |page rf queue rp old Hpage Hex Hfree Hqueue Hrf Hold
                        |page rf queue rp Hpage Hex Hfree Hqueue Hrf Hold
                        |page Hpage Hex Hfree Hqueue]; simpl; try exact IH.
    + intros g Hg. apply elem_of_app in Hg as [Hg|Hg]; [auto|].
      apply list_elem_of_singleton in Hg as ->.
      assert (Hin : f ∈ free_frames s) by (rewrite Hfree; left).
      apply list_elem_of_filter in Hin. tauto.
    + intros g Hg. apply IH. rewrite Hqueue.
      apply elem_of_app in Hg as [Hg|Hg]; [right; exact Hg|].
      apply list_elem_of_singleton in Hg as ->. left.
    + intros g Hg. apply IH. rewrite Hqueue. right. exact Hg.
Qed.

(** X16: the pages that are resident never outnumber the frames in the
    FIFO queue, in any reachable state; and while the latest job creation
    that passed its first two checks succeeded, the FIFO queue holds only
    frames of the job, so at most as many pages are resident as the job
    has allocated frames. *)
Theorem resident_pages_bound s :
  reachable s →
  (size (resident_pages s) ≤ length (frame_queue s))%nat
  ∧ (coherent s →
     (∀ f, f ∈ frame_queue s → f ∈ allocated_frames s)
     ∧ (length (frame_queue s) ≤ length (allocated_frames s))%nat
     ∧ (size (resident_pages s) ≤ length (allocated_frames s))%nat).
Proof.
  intros Hr. pose proof (reachable_wf s Hr) as Hwf.
  pose proof (resident_le_queue s Hwf (reachable_tidy s Hr)) as Hle.
  split; [exact Hle|]. intros Hc.
  pose proof (coherent_queue_allocated s Hc) as Hsub.
  assert (Hq : (length (frame_queue s) ≤ length (allocated_frames s))%nat).
  { apply submseteq_length, NoDup_submseteq; [apply Hwf|exact Hsub]. }
  split; [exact Hsub|]. split; [exact Hq|lia].
Qed.

Lemma resident_pages_bound_witness :
  (size (resident_pages PagingRun.one_frame)
   ≤ length (frame_queue PagingRun.one_frame))%nat
  ∧ (∀ f, f ∈ frame_queue PagingRun.one_frame →
          f ∈ allocated_frames PagingRun.one_frame)
  ∧ (length (frame_queue PagingRun.one_frame)
     ≤ length (allocated_frames PagingRun.one_frame))%nat
  ∧ (size (resident_pages PagingRun.one_frame)
     ≤ length (allocated_frames PagingRun.one_frame))%nat.
Proof.
  assert (Hr : reachable PagingRun.one_frame).
  { unfold PagingRun.one_frame.
    apply reach_access_memory, reach_create_job.
    apply (reach_init 64 1 64). reflexivity. }
  assert (Hc : coherent PagingRun.one_frame).
  { unfold PagingRun.one_frame.
    apply coherent_access_memory.
    apply coherent_create_job; [|vm_compute; discriminate].
    apply (coherent_init 64 1 64). reflexivity. }
  destruct (resident_pages_bound PagingRun.one_frame Hr) as (H1 & H2).
  split; [exact H1|exact (H2 Hc)].
Defined.


(** **** When calls raise *)

(** X17: on a reachable state [access_memory] raises nothing but a
    [KeyError], and only when the frame at the head of the FIFO queue
    holds a page number that is absent from the page table, in which case
    that frame has been dropped from the queue; while the latest job
    creation that passed its first two checks succeeded, it never
    raises. *)
Theorem access_memory_raises s page_no offset operation :
  reachable s →
  (∀ e, (access_memory page_no offset operation s).1 = Raise e →
        ∃ rf queue rp,
          e = KeyError rp ∧ frame_queue s = rf :: queue
          ∧ frames s !! rf = Some (Some rp) ∧ page_table s !! rp = None
          ∧ (access_memory page_no offset operation s).2
            = set_frame_queue queue s)
  ∧ (coherent s →
     ∃ v, (access_memory page_no offset operation s).1 = Return v).
Proof.
  intros Hr.
  pose proof (access_memory_shape page_no offset operation s (reachable_wf s Hr))
    as Hshape.
  destruct (access_memory page_no offset operation s) as [r s']. simpl in *.
  split.
  - intros e ->. inversion Hshape; subst. eauto 10.
  - intros Hc. destruct (coherent_settled s Hc) as [_ Hq _].
    destruct Hshape as [Hnone|page f Hpage Hex Hf Hfr|page f rest Hpage Hex Hfree
                        |page rf queue rp old Hpage Hex Hfree Hqueue Hrf Hold
                        |page rf queue rp Hpage Hex Hfree Hqueue Hrf Hold
                        |page Hpage Hex Hfree Hqueue]; eauto.
    destruct (Hq rf) as (p & pg & Hfr & Hp & _); [rewrite Hqueue; left|].
    congruence.
Qed.

Lemma access_memory_raises_witness :
  (∀ e, (access_memory 0 0 "load" PagingRun.refused).1 = Raise e →
        ∃ rf queue rp,
          e = KeyError rp ∧ frame_queue PagingRun.refused = rf :: queue
          ∧ frames PagingRun.refused !! rf = Some (Some rp)
          ∧ page_table PagingRun.refused !! rp = None
          ∧ (access_memory 0 0 "load" PagingRun.refused).2
            = set_frame_queue queue PagingRun.refused)
  ∧ (coherent PagingRun.refused →
     ∃ v, (access_memory 0 0 "load" PagingRun.refused).1 = Return v).
Proof.
  apply (access_memory_raises PagingRun.refused 0 0 "load").
  apply reach_create_job.
  unfold PagingRun.two_pages.
  do 2 apply reach_access_memory. apply reach_create_job.
  apply (reach_init 64 1 64). reflexivity.
Defined.

(** **** The instruction handler *)

(** X18: when a job exists and the offset is below the page size, an
    instruction whose page fault is served by an empty frame makes
    [_execute_instruction] raise [TypeError] (it concatenates a string with
    the [None] the engine returned as eviction report), although the
    engine has already loaded the page into the lowest empty frame of the
    job. *)
Theorem first_touch_crashes_handler s job page_no offset operation page f rest :
  reachable s →
  current_job s = Some job → offset < page_size s →
  page_table s !! page_no = Some page → Page.exists_ page = false →
  free_frames s = f :: rest →
  MemoryManagementApp._execute_instruction operation page_no offset s
  = (MemoryManagementApp.Uncaught TypeError, after_fill page_no operation f s)
  ∧ ∃ pg, page_table (after_fill page_no operation f s) !! page_no = Some pg
          ∧ Page.exists_ pg = true ∧ Page.frame_no pg = Some f.
Proof.
  intros Hr Hjob Hoff Hpage Hex Hfree.
  unfold MemoryManagementApp._execute_instruction.
  rewrite Hjob, bool_decide_eq_false_2 by lia.
  rewrite (access_fault_cases page_no offset operation s page Hpage Hex
             (wf_alloc_range _ (reachable_wf s Hr))), Hfree.
  split; [reflexivity|].
  exists (mark operation (Page.load f page)). simpl.
  rewrite !lookup_alter_eq, Hpage, mark_exists, mark_frame_no. auto.
Qed.

Lemma first_touch_crashes_handler_witness :
  MemoryManagementApp._execute_instruction "load" 0 0
    (create_job "j" 2048 1 PagingRun.disk PagingRun.app).2
  = (MemoryManagementApp.Uncaught TypeError,
     after_fill 0 "load" 0 (create_job "j" 2048 1 PagingRun.disk PagingRun.app).2)
  ∧ ∃ pg, page_table
            (after_fill 0 "load" 0
               (create_job "j" 2048 1 PagingRun.disk PagingRun.app).2) !! 0
          = Some pg
          ∧ Page.exists_ pg = true ∧ Page.frame_no pg = Some 0%nat.
Proof.
  apply (first_touch_crashes_handler
           (create_job "j" 2048 1 PagingRun.disk PagingRun.app).2
           (Job.new "j" 2048 2 1) 0 0 "load"
           (Page.new 0 false None false "000") 0%nat []).
  - apply reach_create_job. apply (reach_init 64 1 64). reflexivity.
  - reflexivity.
  - reflexivity.
  - vm_compute. reflexivity.
  - reflexivity.
  - vm_compute. reflexivity.
Defined.


(** **** The handlers of the paging tab *)

Lemma create_job_config job_id job_size n disk s :
  let s' := (create_job job_id job_size n disk s).2 in
  memory_size s' = memory_size s ∧ page_size s' = page_size s
  ∧ max_job_size s' = max_job_size s ∧ total_frames s' = total_frames s.
Proof.
  rewrite create_job_cases.
  repeat (case_bool_decide; [auto|]). simpl. auto.
Qed.

Lemma access_memory_config page_no offset operation s :
  wf s →
  let s' := (access_memory page_no offset operation s).2 in
  memory_size s' = memory_size s ∧ page_size s' = page_size s
  ∧ max_job_size s' = max_job_size s ∧ total_frames s' = total_frames s.
Proof.
  intros Hwf.
  pose proof (access_memory_shape page_no offset operation s Hwf) as Hshape.
  destruct (access_memory page_no offset operation s) as [r s']. simpl in *.
  destruct Hshape; simpl; auto.
Qed.

Lemma create_job_handler_state job_id job_size n disk s :
  (MemoryManagementApp._create_job job_id job_size n disk s).2
  = (create_job job_id (job_size * 1024) n disk s).2.
Proof.
  unfold MemoryManagementApp._create_job.
  destruct (create_job job_id (job_size * 1024) n disk s) as [[[[] m]|e] s'];
    reflexivity.
Qed.

Lemma execute_instruction_state operation page_no offset s :
  (MemoryManagementApp._execute_instruction operation page_no offset s).2 = s
  ∨ (MemoryManagementApp._execute_instruction operation page_no offset s).2
    = (access_memory page_no offset operation s).2.
Proof.
  unfold MemoryManagementApp._execute_instruction.
  destruct (current_job s); [|auto].
  case_bool_decide; [auto|]. right.
  destruct (access_memory page_no offset operation s)
    as [[[[[addr|] fault] i]|e] s']; try reflexivity.
  destruct fault, i; reflexivity.
Qed.

Lemma paging_tab_config s :
  MemoryManagementApp.paging_tab_state s →
  reachable s
  ∧ memory_size s = 65536 ∧ page_size s = 1024
  ∧ max_job_size s = 65536 ∧ total_frames s = 64.
Proof.
  induction 1 as [s0 H0|s job_id job_size n disk _ (Hr & IH)
                 |s operation page_no offset _ (Hr & IH)].
  - split; [eapply reach_init, H0|]. injection H0 as <-. auto.
  - rewrite create_job_handler_state.
    split; [apply reach_create_job, Hr|].
    destruct (create_job_config job_id (job_size * 1024) n disk s)
      as (-> & -> & -> & ->). exact IH.
  - destruct (execute_instruction_state operation page_no offset s)
      as [-> | ->]; [auto|].
    split; [apply reach_access_memory, Hr|].
    destruct (access_memory_config page_no offset operation s
                (reachable_wf s Hr)) as (-> & -> & -> & ->). exact IH.
Qed.

(** X19: in the application, configured with 64 frames of 1 KB and jobs
    of at most 64 KB, [_create_job] never raises; when it reports success
    for a job typed as [job_size] KB with [n] frames, then [job_size] and
    [n] are at most 64, the page table holds exactly the pages
    [0 .. job_size - 1] (one page per KB, none for a size that is not
    positive), and [n] frames (none for a negative [n]) are reserved. *)
Theorem paging_tab_job_created s job_id job_size n disk :
  MemoryManagementApp.paging_tab_state s →
  (∀ e s', MemoryManagementApp._create_job job_id job_size n disk s
           ≠ (MemoryManagementApp.JobUncaught e, s'))
  ∧ ∀ m s',
      MemoryManagementApp._create_job job_id job_size n disk s
      = (MemoryManagementApp.InfoCreated m, s') →
      m = JobCreated job_id n
      ∧ job_size ≤ 64 ∧ n ≤ 64
      ∧ (∀ p, is_Some (page_table s' !! p) ↔ 0 ≤ p < job_size)
      ∧ length (allocated_frames s') = Z.to_nat n
      ∧ frame_queue s' = [].
Proof.
  intros Ht. destruct (paging_tab_config s Ht) as (Hr & Hms & Hps & Hmj & Htf).
  unfold MemoryManagementApp._create_job. rewrite create_job_cases.
  rewrite Hps, Hmj, Htf.
  assert (Hpages : (job_size * 1024 + 1024 - 1) `div` 1024 = job_size).
  { symmetry. apply (Z.div_unique _ _ _ 1023); lia. }
  rewrite Hpages.
  case_bool_decide as H1; [split; intros; discriminate|].
  case_bool_decide as H2; [split; intros; discriminate|].
  rewrite bool_decide_eq_false_2 by discriminate. cbv zeta.
  case_bool_decide as H3; [split; intros; discriminate|].
  split; [intros; discriminate|]. intros m s' [= <- <-]. simpl.
  split; [reflexivity|]. split; [lia|]. split; [lia|]. split.
  - intros p. rewrite fresh_page_table_lookup.
    case_bool_decide as Hb; split; intros H;
      first [ exact Hb | contradiction | (destruct H; discriminate) | eauto ].
  - split; [rewrite length_take; lia|reflexivity].
Qed.

Lemma paging_tab_job_created_witness :
  (∀ e s', MemoryManagementApp._create_job "j" 3 2 PagingRun.disk PagingRun.app
           ≠ (MemoryManagementApp.JobUncaught e, s'))
  ∧ ∀ m s',
      MemoryManagementApp._create_job "j" 3 2 PagingRun.disk PagingRun.app
      = (MemoryManagementApp.InfoCreated m, s') →
      m = JobCreated "j" 2
      ∧ 3 ≤ 64 ∧ 2 ≤ 64
      ∧ (∀ p, is_Some (page_table s' !! p) ↔ 0 ≤ p < 3)
      ∧ length (allocated_frames s') = Z.to_nat 2
      ∧ frame_queue s' = [].
Proof.
  apply (paging_tab_job_created PagingRun.app "j" 3 2 PagingRun.disk).
  apply MemoryManagementApp.paging_tab_start. reflexivity.
Defined.

End PagingFurther.
